(** * Beat-to-MIDI conversion and drum-loop sampling: a shallow embedding

    The development follows the two Python sources:
    - [beat_midi_converter.py]: class [BeatMidiConverter]
      ([merge_beats], [time_to_beat_position], [create_tempo_track],
      the unpacking done by [generate_midi]);
    - [drum_loop_sampler.py]: class [DrumLoopSampler]
      ([get_target_beats], [sample_drum_loops]).

    Modelling conventions.
    - Python [float] times are exact rationals ([Q]); [==] on floats is
      [Qeq_bool], [<] and [>] are [Qltb], [<=] and [>=] are [Qle_bool].
      Rounding, infinities and NaN are outside the model.
    - Python [int] is [Z]; [%] is [Z.modulo] (sign of the divisor, as in
      Python) and raises [ZeroDivisionError] on a zero divisor.
    - A raised exception is a [Raise e] result; the functions that can
      raise live in the [result] monad.
    - A list updated by index is a [list] with stdpp's insert.
    - The drum sampler runs in a state-and-exception monad over the
      loaded fragments, the track under construction and the count of
      random draws; [random.choice] reads an injected sequence of
      numbers, and the [while] loop carries fuel. Loading the fragment
      files and writing the MIDI file are outside the model.
    - Building a [set_tempo] message checks the range of the tempo as
      the MIDI library does; a note message built without a channel is
      on channel 0. *)

From Stdlib Require Import ZArith QArith Qabs Qround Lia Lqa.
From stdpp Require Import base list sorting strings gmap.

Set Default Proof Using "Type".

(** ** Python exceptions and the exception monad *)

Inductive exn : Type :=
| ValueError
| ZeroDivisionError
| IndexError
| TypeError.

Inductive result (A : Type) : Type :=
| Ok (a : A)
| Raise (e : exn).

Arguments Ok {A} a.
Arguments Raise {A} e.

#[global] Instance result_ret : MRet result := fun A a => Ok a.
#[global] Instance result_bind : MBind result := fun A B f m =>
  match m with
  | Ok a => f a
  | Raise e => Raise e
  end.

(** ** Comparisons on times *)

(** [x < y] on floats. *)
Definition Qltb (x y : Q) : bool := negb (Qle_bool y x).

(** [x in l] for a list of floats: some element compares equal. *)
Definition Qmem (x : Q) (l : list Q) : bool := existsb (Qeq_bool x) l.

(** [int(x)]: truncation towards zero. *)
Definition Qtrunc (x : Q) : Z := Z.quot (Qnum x) (Zpos (Qden x)).

(** [min(l)] and [max(l)] of a non-empty list: the running extremum is
    replaced only by a strictly smaller (larger) item. *)
Definition Qmin_from (x : Q) (l : list Q) : Q :=
  foldl (fun m y => if Qltb y m then y else m) x l.

Definition Qmax_from (x : Q) (l : list Q) : Q :=
  foldl (fun m y => if Qltb m y then y else m) x l.

Definition py_min (l : list Q) : result Q :=
  match l with
  | [] => Raise ValueError
  | x :: r => Ok (Qmin_from x r)
  end.

Definition py_max (l : list Q) : result Q :=
  match l with
  | [] => Raise ValueError
  | x :: r => Ok (Qmax_from x r)
  end.

(** [max(l)] on a list of ints. *)
Definition py_max_int (l : list Z) : result Z :=
  match l with
  | [] => Raise ValueError
  | x :: r => Ok (foldl Z.max x r)
  end.

(** [l.index(v)]: first index holding [v], [ValueError] when absent. *)
Fixpoint index_from (v : Z) (l : list Z) (i : nat) : result nat :=
  match l with
  | [] => Raise ValueError
  | x :: r => if Z.eqb x v then Ok i else index_from v r (S i)
  end.

Definition py_index (v : Z) (l : list Z) : result nat := index_from v l 0.

(** [l.count(v)]. *)
Definition py_count (v : Z) (l : list Z) : nat :=
  length (List.filter (Z.eqb v) l).

(** [a % b] on ints. *)
Definition py_mod (a b : Z) : result Z :=
  if Z.eqb b 0 then Raise ZeroDivisionError else Ok (a mod b)%Z.

(** [l.sort(key=lambda x: x[0])]: a stable sort on the time component.
    An item is inserted before the first item whose key is not smaller,
    so items with equal keys keep their original order. *)
Fixpoint insert_by_time (x : Q * Z) (l : list (Q * Z)) : list (Q * Z) :=
  match l with
  | [] => [x]
  | y :: r => if Qle_bool (fst x) (fst y) then x :: y :: r
              else y :: insert_by_time x r
  end.

Fixpoint sort_by_time (l : list (Q * Z)) : list (Q * Z) :=
  match l with
  | [] => []
  | x :: r => insert_by_time x (sort_by_time r)
  end.

(** The same stable sort for items that carry any payload, as
    [markers.sort(key=lambda x: x[0])] needs it. *)
Fixpoint insert_by_key {A : Type} (x : Q * A) (l : list (Q * A))
  : list (Q * A) :=
  match l with
  | [] => [x]
  | y :: r => if Qle_bool (fst x) (fst y) then x :: y :: r
              else y :: insert_by_key x r
  end.

Fixpoint sort_by_key {A : Type} (l : list (Q * A)) : list (Q * A) :=
  match l with
  | [] => []
  | x :: r => insert_by_key x (sort_by_key r)
  end.

(** ** MIDI messages

    The messages of the MIDI library that the two programs build or
    read; [time] is the delta from the previous message of the track. *)

Inductive note_type : Type :=
| note_on
| note_off.

Inductive message : Type :=
| track_name (name : string) (time : Z)
| time_signature (numerator denominator : Z) (time : Z)
| set_tempo (tempo : Z) (time : Z)
| marker (text : string) (time : Z)
| end_of_track (time : Z)
| note_message (type : note_type) (channel note velocity : Z) (time : Z).

Definition msg_time (m : message) : Z :=
  match m with
  | track_name _ t => t
  | time_signature _ _ t => t
  | set_tempo _ t => t
  | marker _ t => t
  | end_of_track t => t
  | note_message _ _ _ _ t => t
  end.

Module BeatMidiConverter.

(** What [merge_beats] hands back: a dictionary with the keys "beats",
    "beat_positions", "downbeats" on the empty-input paths, a 3-tuple on
    the main path. *)
Inductive merge_result : Type :=
| RDict (beats : list Q) (beat_positions : list Z) (downbeats : list Q)
| RTuple (final_beats : list Q) (final_positions : list Z)
         (merged_downbeats : list Q).

(** [[1 if b in downbeats else 2 for b in beats]] *)
Definition fallback_positions (beats downbeats : list Q) : list Z :=
  map (fun b => if Qmem b downbeats then 1%Z else 2%Z) beats.

(** [zip(beat2, range(1, len(beat2) + 1))] *)
Definition enumerate1 (beat2 : list Q) : list (Q * Z) :=
  zip beat2 (map Z.of_nat (seq 1 (length beat2))).

Definition beat2_before (beat2 : list Q) (beat1_start tolerance : Q)
  : list (Q * Z) :=
  List.filter (fun bp => Qltb (fst bp) (beat1_start - tolerance)%Q)
              (enumerate1 beat2).

Definition beat2_after (beat2 : list Q) (beat1_end tolerance : Q)
  : list (Q * Z) :=
  List.filter (fun bp => Qltb (beat1_end + tolerance)%Q (fst bp))
              (enumerate1 beat2).

(** The greedy pass: [last] is [filtered_beats[-1][0]], the time of the
    last item kept so far. *)
Fixpoint filter_close (tolerance last : Q) (rest : list (Q * Z))
  : list (Q * Z) :=
  match rest with
  | [] => []
  | (beat, position) :: r =>
      if Qltb tolerance (Qabs (beat - last)%Q)
      then (beat, position) :: filter_close tolerance beat r
      else filter_close tolerance last r
  end.

(** [filtered_beats]; [merged_beats[0]] raises on an empty list. *)
Definition filtered_beats (tolerance : Q) (merged_beats : list (Q * Z))
  : result (list (Q * Z)) :=
  match merged_beats with
  | [] => Raise IndexError
  | m0 :: rest => Ok (m0 :: filter_close tolerance (fst m0) rest)
  end.

(** The membership flags: 1 for a time found in either downbeat list,
    0 otherwise. *)
Definition downbeat_flags (final_beats downbeats1 downbeats2 : list Q)
  : list Z :=
  map (fun beat => if Qmem beat downbeats1 || Qmem beat downbeats2
                   then 1%Z else 0%Z) final_beats.

(** The renumbering loop [for i in range(len(final_positions))], run on
    the remaining indices [idxs]; each round overwrites slot [i]. *)
Fixpoint renumber_loop (num_beats_per_quarter start_number : Z)
  (idxs : list nat) (final_positions : list Z) : result (list Z) :=
  match idxs with
  | [] => Ok final_positions
  | i :: r =>
      beat_num ← py_mod (start_number + Z.of_nat i) num_beats_per_quarter;
      renumber_loop num_beats_per_quarter start_number r
        (<[i := if Z.eqb beat_num 0 then num_beats_per_quarter
                else beat_num]> final_positions)
  end.

(** The beats that survive on the main path (lines 51-84). *)
Definition merge_final_beats (beat1 beat2 : list Q) (beat_positions1 : list Z)
  (tolerance : Q) : result (list Q) :=
  beat1_start ← py_min beat1;
  beat1_end ← py_max beat1;
  let merged_beats :=
    sort_by_time (beat2_before beat2 beat1_start tolerance
                  ++ zip beat1 beat_positions1
                  ++ beat2_after beat2 beat1_end tolerance) in
  filtered ← filtered_beats tolerance merged_beats;
  Ok (map fst filtered).

Definition merge_beats (beat1 beat2 : list Q) (beat_positions1 : list Z)
  (downbeats1 downbeats2 : list Q) (tolerance : Q) : result merge_result :=
  match beat1, beat2 with
  | [], _ =>
      Ok (RDict beat2 (fallback_positions beat2 downbeats2) downbeats2)
  | _, [] =>
      Ok (RDict beat1 (fallback_positions beat1 downbeats1) downbeats1)
  | _, _ =>
      final_beats ← merge_final_beats beat1 beat2 beat_positions1 tolerance;
      let final_positions :=
        downbeat_flags final_beats downbeats1 downbeats2 in
      num_beats_per_quarter ← py_max_int beat_positions1;
      first_downbeat ← py_index 1 final_positions;
      let num_start_beats_before_downbeat :=
        py_count 0 (take first_downbeat final_positions) in
      let start_number :=
        (num_beats_per_quarter
         - Z.of_nat num_start_beats_before_downbeat + 1)%Z in
      final_positions ←
        renumber_loop num_beats_per_quarter start_number
          (seq 0 (length final_positions)) final_positions;
      let merged_downbeats :=
        map fst (List.filter (fun bp => Z.eqb (snd bp) 1)
                             (zip final_beats final_positions)) in
      Ok (RTuple final_beats final_positions merged_downbeats)
  end.

(** *** [time_to_beat_position] *)

(** The [for i, beat_time in enumerate(beats)] scan, at index [i] with
    [rest] still to visit; [None] when the loop falls through. *)
Fixpoint scan_beats (time_seconds : Q) (beats : list Q) (i : nat)
  (rest : list Q) : option Q :=
  match rest with
  | [] => None
  | beat_time :: r =>
      if Qle_bool time_seconds beat_time then
        match i with
        | O => Some 0%Q
        | S j =>
            let prev_beat_time := default 0%Q (beats !! j) in
            let beat_interval := (beat_time - prev_beat_time)%Q in
            if Qltb 0%Q beat_interval then
              let time_offset := (time_seconds - prev_beat_time)%Q in
              Some (inject_Z (Z.of_nat i) + time_offset / beat_interval)%Q
            else Some (inject_Z (Z.of_nat i))
        end
      else scan_beats time_seconds beats (S i) r
  end.

Definition time_to_beat_position (time_seconds : Q) (beats : list Q) : Q :=
  match beats with
  | [] => 0%Q
  | _ =>
      match scan_beats time_seconds beats 0 beats with
      | Some pos => pos
      | None =>
          let n := length beats in
          let len_beats := inject_Z (Z.of_nat n) in
          if (2 <=? n)%nat then
            let last_beat := default 0%Q (beats !! (n - 1)%nat) in
            let last_interval :=
              (last_beat - default 0 (beats !! (n - 2)%nat))%Q in
            if Qltb 0%Q last_interval then
              let extra_time := (time_seconds - last_beat)%Q in
              (len_beats + extra_time / last_interval)%Q
            else len_beats
          else len_beats
      end
  end.

(** *** [create_tempo_track] *)

(** [sum(m.time for m in track if hasattr(m, "time"))]: every message
    carries a [time]. *)
Definition sum_times (track : list message) : Z :=
  foldr Z.add 0%Z (map msg_time track).

(** [int(60_000_000 / (60.0 / interval))], in exact arithmetic. The two
    float divisions of the code can move the quotient across a whole
    number, so what is proved of the value itself is stated with a
    margin. *)
Definition interval_to_tempo (interval : Q) : Z :=
  let bpm := (60 / interval)%Q in
  Qtrunc (60000000 / bpm)%Q.

(** [mido.MetaMessage("set_tempo", tempo=tempo, time=time)]: the MIDI
    library stores a tempo in three bytes and refuses any other value
    with ValueError when the message is built. *)
Definition max_tempo : Z := 16777215.

Definition meta_set_tempo (tempo time : Z) : result message :=
  if ((0 <=? tempo)%Z && (tempo <=? max_tempo)%Z)%bool
  then Ok (set_tempo tempo time)
  else Raise ValueError.

(** The loop [for i in range(1, len(beats))] on the remaining indices. *)
Fixpoint tempo_loop (ticks_per_beat : Z) (beats : list Q) (current_tick : Z)
  (idxs : list nat) (track : list message) : result (list message) :=
  match idxs with
  | [] => Ok track
  | i :: r =>
      let tick := (current_tick + (Z.of_nat i - 1) * ticks_per_beat)%Z in
      let delta_ticks := (tick - sum_times track)%Z in
      let interval :=
        (default 0 (beats !! i) - default 0 (beats !! (i - 1)%nat))%Q in
      if Qle_bool interval 0%Q then
        tempo_loop ticks_per_beat beats current_tick r track
      else
        let tempo := interval_to_tempo interval in
        msg ← meta_set_tempo tempo delta_ticks;
        tempo_loop ticks_per_beat beats current_tick r (track ++ [msg])
  end.

(** [create_tempo_track]: IndexError on an empty beat list, ValueError
    from the first tempo that the MIDI library refuses. *)
Definition create_tempo_track (ticks_per_beat : Z) (beats : list Q)
  : result (list message) :=
  match beats with
  | [] => Raise IndexError
  | real_start_time :: _ =>
      let track := [track_name "Tempo Track" 0] in
      '(track, current_tick) ←
        (if Qltb 0%Q real_start_time then
           let pre_tempo := interval_to_tempo real_start_time in
           msg ← meta_set_tempo pre_tempo 0;
           Ok (track ++ [msg], ticks_per_beat)
         else Ok (track, 0%Z));
      track ← tempo_loop ticks_per_beat beats current_tick
                (seq 1 (length beats - 1)) track;
      Ok (track ++ [end_of_track 0])
  end.

(** *** The unpacking in [generate_midi] *)

(** The objects that the three targets of
    [merged_beats, beat_positions, downbeats = self.merge_beats(...)]
    can be bound to. *)
Inductive pyval : Type :=
| PFloats (l : list Q)
| PInts (l : list Z)
| PStr (s : string).

(** Iterating a dictionary yields its keys in insertion order; iterating
    a tuple yields its items. *)
Definition py_iter (r : merge_result) : list pyval :=
  match r with
  | RDict _ _ _ => [PStr "beats"; PStr "beat_positions"; PStr "downbeats"]
  | RTuple final_beats final_positions merged_downbeats =>
      [PFloats final_beats; PInts final_positions; PFloats merged_downbeats]
  end.

(** [a, b, c = r] *)
Definition unpack3 (r : merge_result) : result (pyval * pyval * pyval) :=
  match py_iter r with
  | [a; b; c] => Ok (a, b, c)
  | _ => Raise ValueError
  end.

(** [beat_positions.index(1)]: a list is searched, a string refuses an
    int argument. *)
Definition pyval_index (v : Z) (x : pyval) : result nat :=
  match x with
  | PInts l => py_index v l
  | PFloats l =>
      py_index 1 (map (fun y => if Qeq_bool y (inject_Z v) then 1%Z else 0%Z) l)
  | PStr _ => Raise TypeError
  end.

(** Lines 245-255 of [generate_midi], when a second beat document is
    given: the merge, the unpacking and the prefix beat. *)
Definition generate_midi_merge (beats1 beats2 : list Q)
  (beat_positions1 : list Z) (downbeats1 downbeats2 : list Q) (tolerance : Q)
  : result (pyval * nat) :=
  r ← merge_beats beats1 beats2 beat_positions1 downbeats1 downbeats2
        tolerance;
  '(merged_beats, beat_positions, downbeats) ← unpack3 r;
  prefix_beat ← pyval_index 1 beat_positions;
  let final_beats := merged_beats in
  Ok (final_beats, prefix_beat).

(** *** [calculate_tempo_from_beats] *)

(** The loop [for i in range(len(beats) - 1)] on the remaining indices;
    an entry is appended for a positive interval only. *)
Fixpoint tempo_changes_loop (beats : list Q) (idxs : list nat)
  : list (Q * Q) :=
  match idxs with
  | [] => []
  | i :: r =>
      let interval :=
        (default 0 (beats !! S i) - default 0 (beats !! i))%Q in
      if Qltb 0%Q interval then
        let bpm := (60 / interval)%Q in
        (inject_Z (Z.of_nat i), bpm) :: tempo_changes_loop beats r
      else tempo_changes_loop beats r
  end.

Definition calculate_tempo_from_beats (beats : list Q) : list (Q * Q) :=
  if (length beats <? 2)%nat then [(0%Q, 120%Q)]
  else tempo_changes_loop beats (seq 0 (length beats - 1)).

(** *** [create_segment_markers] *)

(** A segment dictionary, read with [segment.get("start", 0.0)] and
    [segment.get("label", "unknown")]: either key may be missing. *)
Record segment : Type := mkSegment {
  seg_start : option Q;
  seg_label : option string
}.

Definition segment_marker (beats : list Q) (seg : segment) : Q * string :=
  let start_time := default 0%Q (seg_start seg) in
  let label := default "unknown" (seg_label seg) in
  let beat_position := time_to_beat_position start_time beats in
  (beat_position, label).

Definition create_segment_markers (beats : list Q) (segments : list segment)
  : list (Q * string) :=
  match beats, segments with
  | [], _ => []
  | _, [] => []
  | _, _ => sort_by_key (map (segment_marker beats) segments)
  end.

(** *** [beats_to_ticks], [bpm_to_tempo] *)

Definition beats_to_ticks (ticks_per_beat : Z) (beats : Q) : Z :=
  Qtrunc (beats * inject_Z ticks_per_beat)%Q.

(** A float division by zero raises. *)
Definition bpm_to_tempo (bpm : Q) : result Z :=
  if Qeq_bool bpm 0%Q then Raise ZeroDivisionError
  else Ok (Qtrunc (60000000 / bpm)%Q).

(** *** [create_marker_track] *)

(** The loop [for beat_pos, label in markers]; [current_time] is the
    target tick of the previous marker. *)
Fixpoint marker_loop (ticks_per_beat : Z) (current_time : Z)
  (markers : list (Q * string)) (track : list message) : list message :=
  match markers with
  | [] => track
  | (beat_pos, label) :: r =>
      let target_time := beats_to_ticks ticks_per_beat beat_pos in
      let delta_time := Z.max 0 (target_time - current_time) in
      marker_loop ticks_per_beat target_time r
        (track ++ [marker label delta_time])
  end.

Definition create_marker_track (ticks_per_beat : Z)
  (markers : list (Q * string)) : list message :=
  marker_loop ticks_per_beat 0 markers [track_name "Markers" 0]
  ++ [end_of_track 0].

(** *** [generate_midi] *)

(** The first beat document, read with [.get(key, [])]: any key may be
    missing. *)
Record beat_document : Type := mkBeatDocument {
  doc_beats : option (list Q);
  doc_beat_positions : option (list Z);
  doc_downbeats : option (list Q);
  doc_segments : option (list segment)
}.

(** The parts of a non-empty second document that are read. *)
Record beat_document2 : Type := mkBeatDocument2 {
  doc2_beats : option (list Q);
  doc2_downbeats : option (list Q)
}.

(** [generate_midi] can also fail on its own unbound local. *)
Inductive generate_exn : Type :=
| Propagated (e : exn)
| UnboundLocalError.

Inductive generate_return : Type :=
| GReturns (prefix_beat : nat)
| GRaises (e : generate_exn).

(** The list that a name bound by the unpacking holds, when it is one. *)
Definition pyval_floats (x : pyval) : result (list Q) :=
  match x with
  | PFloats l => Ok l
  | _ => Raise TypeError
  end.

(** The tracks of the output file for a beat list and the segments. *)
Definition build_tracks (ticks_per_beat : Z) (final_beats : list Q)
  (segments : list segment) : result (list (list message)) :=
  let markers := create_segment_markers final_beats segments in
  let time_sig_track := [time_signature 4 4 0] in
  tempo_track ← create_tempo_track ticks_per_beat final_beats;
  Ok ([time_sig_track; tempo_track]
      ++ match markers with
         | [] => []
         | _ :: _ => [create_marker_track ticks_per_beat markers]
         end).

(** [generate_midi]: the file handed to [mid.save], if that line is
    reached, and how the call ends. [beat_data2] is [None] for [None] or
    an empty dictionary, which the test [if beat_data2:] treats alike. *)
Definition generate_midi (ticks_per_beat : Z) (beat_data1 : beat_document)
  (beat_data2 : option beat_document2) (tolerance : Q)
  : option (list (list message)) * generate_return :=
  let beats1 := default [] (doc_beats beat_data1) in
  let beat_positions1 := default [] (doc_beat_positions beat_data1) in
  let downbeats1 := default [] (doc_downbeats beat_data1) in
  let merged : result (list Q * option nat) :=
    match beat_data2 with
    | Some d2 =>
        let beats2 := default [] (doc2_beats d2) in
        let downbeats2 := default [] (doc2_downbeats d2) in
        '(final_beats, prefix_beat) ←
          generate_midi_merge beats1 beats2 beat_positions1 downbeats1
            downbeats2 tolerance;
        final_beats ← pyval_floats final_beats;
        Ok (final_beats, Some prefix_beat)
    | None => Ok (beats1, None)
    end in
  match merged with
  | Raise e => (None, GRaises (Propagated e))
  | Ok (final_beats, prefix_beat) =>
      let segments := default [] (doc_segments beat_data1) in
      match build_tracks ticks_per_beat final_beats segments with
      | Raise e => (None, GRaises (Propagated e))
      | Ok tracks =>
          (Some tracks,
           match prefix_beat with
           | Some k => GReturns k
           | None => GRaises UnboundLocalError
           end)
      end
  end.

End BeatMidiConverter.

Module DrumLoopSampler.

(** One extracted drum event, the dictionary
    [{"time", "note", "velocity", "type"}]. *)
Record event : Type := mkEvent {
  ev_time : Z;
  ev_note : Z;
  ev_velocity : Z;
  ev_type : note_type
}.

(** A fragment is the list of events extracted from one loop file. *)
Abbreviation fragment := (list event) (only parsing).

(** [all_drum_events], with the nested dictionaries flattened:
    [mid_regular] is [["mid"]["regular"]], [mid_transition_small] is
    [["mid"]["transition"]["small"]], and so on. *)
Record drum_library : Type := mkLibrary {
  start : list fragment;
  mid_regular : list fragment;
  mid_transition_small : list fragment;
  mid_transition_big : list fragment;
  end_ : list fragment
}.

(** The mutable objects of one run: the loaded fragments, the drum
    track under construction, and how many random draws were made. *)
Record state : Type := mkState {
  all_drum_events : drum_library;
  track : list message;
  draws : nat
}.

Inductive outcome (A : Type) : Type :=
| Returns (a : A)
| Raises (e : exn)
| OutOfFuel.

Arguments Returns {A} a.
Arguments Raises {A} e.
Arguments OutOfFuel {A}.

(** State-and-exception monad: the state survives a raise. *)
Definition M (A : Type) : Type := state -> outcome A * state.

#[global] Instance M_ret : MRet M := fun A a s => (Returns a, s).
#[global] Instance M_bind : MBind M := fun A B f m s =>
  match m s with
  | (Returns a, s') => f a s'
  | (Raises e, s') => (Raises e, s')
  | (OutOfFuel, s') => (OutOfFuel, s')
  end.

Definition get_state : M state := fun s => (Returns s, s).
Definition out_of_fuel {A} : M A := fun s => (OutOfFuel, s).

(** [track.append(msg)] *)
Definition track_append (msg : message) : M unit := fun s =>
  (Returns tt,
   mkState (all_drum_events s) (track s ++ [msg]) (draws s)).

(** [random.choice(seq)] as an index into a sequence of length [len]:
    the [n]-th draw of the run reads [rand n]. *)
Definition random_choice (rand : nat -> nat) (len : nat) : M nat := fun s =>
  match len with
  | O => (Raises IndexError, s)
  | S _ => (Returns (rand (draws s) mod len)%nat,
            mkState (all_drum_events s) (track s) (S (draws s)))
  end.

(** [mido.Message(event["type"], note=..., velocity=..., time=...)]: no
    channel is given, and the MIDI library takes channel 0. *)
Definition to_message (ev : event) : message :=
  note_message (ev_type ev) 0 (ev_note ev) (ev_velocity ev) (ev_time ev).

(** [event["time"] += d] *)
Definition add_time (d : Z) (ev : event) : event :=
  mkEvent (ev_time ev + d) (ev_note ev) (ev_velocity ev) (ev_type ev).

(** The same update seen from the library: the event at index [e] of the
    [j]-th start fragment is the object that was modified. *)
Definition bump_library (j e : nat) (d : Z) (lib : drum_library)
  : drum_library :=
  mkLibrary (alter (alter (add_time d) e) j (start lib))
            (mid_regular lib) (mid_transition_small lib)
            (mid_transition_big lib) (end_ lib).

Definition bump_start_event (j e : nat) (d : Z) : M unit := fun s =>
  (Returns tt,
   mkState (bump_library j e d (all_drum_events s)) (track s) (draws s)).

(** [for event in drum_event] of the start region; [drum_event] is the
    [j]-th start fragment and [e] the index of the event at hand. *)
Fixpoint start_events (prefix_beat : Z) (j e : nat) (events : list event)
  : M unit :=
  match events with
  | [] => mret tt
  | ev :: r =>
      s ← get_state;
      ev' ← (if (length (track s) =? 0)%nat then
               bump_start_event j e (480 * (prefix_beat + 1));;
               mret (add_time (480 * (prefix_beat + 1)) ev)
             else mret ev);
      track_append (to_message ev');;
      start_events prefix_beat j (S e) r
  end.

(** [for event in drum_events: track.append(...)] of the other regions. *)
Fixpoint append_events (events : list event) : M unit :=
  match events with
  | [] => mret tt
  | ev :: r => track_append (to_message ev);; append_events r
  end.

(** Draw one fragment of a category and return it. *)
Definition choose_fragment (rand : nat -> nat)
  (category : drum_library -> list fragment) : M fragment :=
  s ← get_state;
  j ← random_choice rand (length (category (all_drum_events s)));
  mret (default [] (category (all_drum_events s) !! j)).

Inductive mid_type : Type :=
| regular
| transition_small
| transition_big.

Definition mid_sampling_order : list mid_type :=
  [regular; transition_small; regular; transition_big].

Definition mid_category (t : mid_type) : drum_library -> list fragment :=
  match t with
  | regular => mid_regular
  | transition_small => mid_transition_small
  | transition_big => mid_transition_big
  end.

(** [while current_beat_idx < total_beats - end_loop_length]; one unit of
    fuel per round. Returns the final [current_beat_idx]. *)
Fixpoint mid_loop (fuel : nat) (rand : nat -> nat)
  (total_beats end_loop_length mid_loop_length : Z)
  (current_beat_idx : Z) (mid_order_index : nat) : M Z :=
  if (current_beat_idx <? total_beats - end_loop_length)%Z then
    match fuel with
    | O => out_of_fuel
    | S fuel' =>
        let current_mid_type :=
          default transition_big
            (mid_sampling_order
               !! (mid_order_index mod length mid_sampling_order)%nat) in
        drum_events ← choose_fragment rand (mid_category current_mid_type);
        append_events drum_events;;
        mid_loop fuel' rand total_beats end_loop_length mid_loop_length
          (current_beat_idx + mid_loop_length)%Z (S mid_order_index)
    end
  else mret current_beat_idx.

(** [get_target_beats]: one grid point per tempo message, at the running
    sum of their delta times, counted from tick 480. *)
Definition get_target_beats (midi : list (list message)) : list Z :=
  snd (foldl (fun '(current_time, beats) msg =>
                match msg with
                | set_tempo _ time =>
                    ((current_time + time)%Z, beats ++ [(current_time + time)%Z])
                | _ => (current_time, beats)
                end)
             (480%Z, []) (concat midi)).

(** Region 1 (lines 150-163): one start fragment, whose first event is
    shifted when the track is still empty. *)
Definition start_region (rand : nat -> nat) (prefix_beat : Z)
  (start_loop_length current_beat_idx : Z) : M Z :=
  if (current_beat_idx <? start_loop_length)%Z then
    s ← get_state;
    j ← random_choice rand (length (start (all_drum_events s)));
    start_events prefix_beat j 0
      (default [] (start (all_drum_events s) !! j));;
    mret (current_beat_idx + start_loop_length)%Z
  else mret current_beat_idx.

(** Region 3 (lines 197-208): one end fragment. *)
Definition end_region (rand : nat -> nat)
  (total_beats end_loop_length current_beat_idx : Z) : M Z :=
  if (current_beat_idx <? total_beats)%Z then
    drum_event ← choose_fragment rand end_;
    append_events drum_event;;
    mret (current_beat_idx + end_loop_length)%Z
  else mret current_beat_idx.

(** The sequencing part of [sample_drum_loops] (lines 124-211), on the
    fragments already loaded. Returns the tracks handed to
    [target_midi.save]. The fuel given to the middle region covers every
    run in which [mid_loop_length] is positive; with a slot width of zero
    or less the Python loop either raises within one rotation or never
    ends, and [OutOfFuel] stands for the latter. *)
Definition assemble (beats_per_bar : Z) (rand : nat -> nat)
  (target_midi : list (list message)) (prefix_beat : Z)
  : M (list (list message)) :=
  let target_beats := get_target_beats (target_midi ++ [[]]) in
  let current_beat_idx := 0%Z in
  let total_beats := Z.of_nat (length target_beats) in
  let start_loop_length := (beats_per_bar * 4 + prefix_beat + 1)%Z in
  let mid_loop_length := (beats_per_bar * 2)%Z in
  let end_loop_length := (beats_per_bar * 5)%Z in
  current_beat_idx ←
    start_region rand prefix_beat start_loop_length current_beat_idx;
  current_beat_idx ←
    mid_loop
      (Z.to_nat (total_beats - end_loop_length - current_beat_idx) + 4)
      rand total_beats end_loop_length mid_loop_length current_beat_idx 0;
  current_beat_idx ←
    end_region rand total_beats end_loop_length current_beat_idx;
  s ← get_state;
  mret (target_midi ++ [track s]).

(** [sample_drum_loops] run on a freshly loaded library: the outcome and
    the library as the run leaves it. *)
Definition sample_drum_loops (beats_per_bar : Z) (rand : nat -> nat)
  (target_midi : list (list message)) (library : drum_library)
  (prefix_beat : Z) : outcome (list (list message)) * drum_library :=
  let '(out, s) :=
    assemble beats_per_bar rand target_midi prefix_beat
      (mkState library [] 0) in
  (out, all_drum_events s).

(** [extract_drum_events], on the tracks read from a loop file: the note
    messages of all tracks, in order. *)
Definition extract_drum_events (midi : list (list message)) : list event :=
  omap (fun msg =>
          match msg with
          | note_message type _ note velocity time =>
              Some (mkEvent time note velocity type)
          | _ => None
          end)
       (concat midi).

(** *** [convert_midi_to_fixed_tempo]: from messages to notes *)

(** Lines 264-281: the note messages of the merged track with their
    absolute time in seconds. [tick2second] is the conversion of the MIDI
    library; a tempo change applies after the message that carries it. *)
Fixpoint note_events (tick2second : Z -> Z -> Z -> Q) (ticks_per_beat : Z)
  (current_tempo : Z) (accumulated_seconds : Q) (merged_track : list message)
  : list (Q * message) :=
  match merged_track with
  | [] => []
  | msg :: r =>
      let delta_seconds :=
        tick2second (msg_time msg) ticks_per_beat current_tempo in
      let accumulated_seconds := (accumulated_seconds + delta_seconds)%Q in
      let current_tempo :=
        match msg with
        | set_tempo tempo _ => tempo
        | _ => current_tempo
        end in
      match msg with
      | note_message _ _ _ _ _ =>
          (accumulated_seconds, msg)
          :: note_events tick2second ticks_per_beat current_tempo
               accumulated_seconds r
      | _ =>
          note_events tick2second ticks_per_beat current_tempo
            accumulated_seconds r
      end
  end.

(** A note with its start and end in seconds. *)
Record note_data : Type := mkNote {
  pitch : Z;
  velocity : Z;
  note_start : Q;
  note_end : Q
}.

(** Lines 283-309: [active_notes] maps a sounding pitch to its start time
    and velocity. *)
Fixpoint pair_notes (active_notes : gmap Z (Q * Z))
  (events : list (Q * message)) : list note_data :=
  match events with
  | [] => []
  | (time_seconds, msg) :: r =>
      match msg with
      | note_message type _ note vel _ =>
          if match type with note_on => (0 <? vel)%Z | note_off => false end
          then pair_notes (<[note := (time_seconds, vel)]> active_notes) r
          else if match type with
                  | note_off => true
                  | note_on => (vel =? 0)%Z
                  end
          then match active_notes !! note with
               | Some (start_time, velocity) =>
                   mkNote note velocity start_time time_seconds
                   :: pair_notes (delete note active_notes) r
               | None => pair_notes active_notes r
               end
          else pair_notes active_notes r
      | _ => pair_notes active_notes r
      end
  end.

(** The notes handed to the new file: default tempo 500000, time 0. *)
Definition convert_notes (tick2second : Z -> Z -> Z -> Q)
  (ticks_per_beat : Z) (merged_track : list message) : list note_data :=
  pair_notes ∅ (note_events tick2second ticks_per_beat 500000 0 merged_track).

End DrumLoopSampler.


Import BeatMidiConverter.
Import DrumLoopSampler.

(** ** Statements of the specification, for comparison with the code *)

(** A time written as a fraction. *)
Definition q (n : Z) (d : positive) : Q := Qmake n d.

(** The renumbering formula as the specification words it:
    [((beatsPerBar - k + i) mod beatsPerBar)], with 0 mapped to
    [beatsPerBar]. *)
Definition spec_position (beatsPerBar k i : Z) : Z :=
  let r := ((beatsPerBar - k + i) mod beatsPerBar)%Z in
  if Z.eqb r 0 then beatsPerBar else r.

(** The formula that lines 99-103 compute. *)
Definition code_position (num_beats_per_quarter k i : Z) : Z :=
  let beat_num := ((num_beats_per_quarter - k + 1 + i)
                   mod num_beats_per_quarter)%Z in
  if Z.eqb beat_num 0 then num_beats_per_quarter else beat_num.

(** The beats and positions of a merge result, whichever its shape. *)
Definition result_beats (r : merge_result) : list Q :=
  match r with RDict b _ _ => b | RTuple b _ _ => b end.

Definition result_positions (r : merge_result) : list Z :=
  match r with RDict _ p _ => p | RTuple _ p _ => p end.

(** The scenario of the specification: primary beats [1.0, 1.5, 2.0] at
    positions [1, 2, 3] with downbeat [1.0]; secondary beats
    [0.0 .. 3.0] every half second with downbeat [0.0]; tolerance 0.3. *)
Definition scenario_beat1 : list Q := [q 1 1; q 3 2; q 2 1].
Definition scenario_positions1 : list Z := [1; 2; 3]%Z.
Definition scenario_downbeats1 : list Q := [q 1 1].
Definition scenario_beat2 : list Q :=
  [q 0 1; q 1 2; q 1 1; q 3 2; q 2 1; q 5 2; q 3 1].
Definition scenario_downbeats2 : list Q := [q 0 1].
Definition scenario_tolerance : Q := q 3 10.

(** Well-formed inputs in the sense of the data model: times strictly
    increasing, one position per primary beat, positions in
    [1..beatsPerBar] stepping cyclically, the primary downbeats exactly
    the times at position 1, the secondary downbeats among the secondary
    beats. *)
Fixpoint increasingb (l : list Q) : bool :=
  match l with
  | x :: ((y :: _) as r) => Qltb x y && increasingb r
  | _ => true
  end.

Fixpoint cyclicb (beatsPerBar : Z) (l : list Z) : bool :=
  match l with
  | x :: ((y :: _) as r) =>
      Z.eqb y (if Z.eqb x beatsPerBar then 1 else x + 1)
      && cyclicb beatsPerBar r
  | _ => true
  end.

Definition well_formed_primary (beats : list Q) (positions : list Z)
  (downbeats : list Q) : bool :=
  increasingb beats
  && Nat.eqb (length positions) (length beats)
  && forallb (fun p => Z.leb 1 p) positions
  && match py_max_int positions with
     | Ok beatsPerBar => cyclicb beatsPerBar positions
     | Raise _ => false
     end
  && forallb (fun bp => Bool.eqb (Qmem (fst bp) downbeats) (Z.eqb (snd bp) 1))
             (zip beats positions)
  && forallb (fun d => Qmem d beats) downbeats.

Definition well_formed_secondary (beats downbeats : list Q) : bool :=
  increasingb beats && forallb (fun d => Qmem d beats) downbeats.

(** The value that one round of the renumbering loop writes at index [i]. *)
Definition numbered (num_beats_per_quarter start_number : Z) (i : nat) : Z :=
  let beat_num := ((start_number + Z.of_nat i) mod num_beats_per_quarter)%Z in
  if Z.eqb beat_num 0 then num_beats_per_quarter else beat_num.

(** Some surviving beat equals a listed downbeat of either source. *)
Definition some_downbeat_survives (final_beats downbeats1 downbeats2 : list Q)
  : bool :=
  existsb (fun beat => Qmem beat downbeats1 || Qmem beat downbeats2)
          final_beats.

(** Inputs on which the merge fails although both are well formed: the
    primary is a partial bar without a downbeat, and the only secondary
    downbeat lies inside the primary's span, where the secondary is
    discarded. *)
Definition partial_bar_beat1 : list Q := [q 1 1; q 3 2; q 2 1].
Definition partial_bar_positions1 : list Z := [2; 3; 4]%Z.
Definition partial_bar_downbeats1 : list Q := [].
Definition partial_bar_beat2 : list Q :=
  [q 0 1; q 1 2; q 21 20; q 31 20; q 41 20; q 51 20].
Definition partial_bar_downbeats2 : list Q := [q 21 20].

(** Order on timed items, and the gap relation of the greedy pass. *)
Definition time_le (a b : Q * Z) : Prop := (fst a <= fst b)%Q.

Definition apart (tolerance : Q) (x y : Q) : Prop := (tolerance < y - x)%Q.

(** The tempo events of a track as the data model has them: absolute
    tick (running sum of the delta times) and microseconds per beat. *)
Fixpoint tempo_events_from (tick : Z) (track : list message) : list (Z * Z) :=
  match track with
  | [] => []
  | m :: r =>
      let tick' := (tick + msg_time m)%Z in
      match m with
      | set_tempo tempo _ => (tick', tempo) :: tempo_events_from tick' r
      | _ => tempo_events_from tick' r
      end
  end.

Definition tempo_events (track : list message) : list (Z * Z) :=
  tempo_events_from 0 track.

(** The events that the loop of [create_tempo_track] stands for: one per
    index with a positive interval, at tick
    [current_tick + (i - 1) * ticks_per_beat]. *)
Definition interval_event (ticks_per_beat : Z) (beats : list Q)
  (current_tick : Z) (i : nat) : option (Z * Z) :=
  let interval :=
    (default 0 (beats !! i) - default 0 (beats !! (i - 1)%nat))%Q in
  if Qle_bool interval 0%Q then None
  else Some ((current_tick + (Z.of_nat i - 1) * ticks_per_beat)%Z,
             interval_to_tempo interval).

Definition interval_events (ticks_per_beat : Z) (beats : list Q)
  (current_tick : Z) (idxs : list nat) : list (Z * Z) :=
  omap (interval_event ticks_per_beat beats current_tick) idxs.

(** A duration is what a tempo encodes: the lead-in time [beats[0]] or
    an inter-beat interval. *)
Definition encoded_duration (beats : list Q) (d : Q) : Prop :=
  beats !! 0%nat = Some d
  \/ exists i x y, beats !! i = Some x /\ beats !! S i = Some y
                   /\ d = (y - x)%Q.

(** What one emitted tempo value is: a value that the MIDI library
    accepts, and the length in microseconds of a positive duration [d]
    that it encodes, cut to a whole number. The margins leave room for
    the last digit of the two float divisions, which can move the
    quotient across a whole number. *)
Definition tempo_value_ok (beats : list Q) (e : Z * Z) : Prop :=
  (0 <= snd e <= max_tempo)%Z
  /\ exists d, encoded_duration beats d /\ (0 < d)%Q
               /\ (d * 1000000 - 2 < inject_Z (snd e))%Q
               /\ (inject_Z (snd e) < d * 1000000 + 1)%Q.

(** A small library for the examples: one fragment per category. *)
Definition kick : event := mkEvent 0 36 100 note_on.
Definition kick_off : event := mkEvent 240 36 0 note_off.
Definition snare : event := mkEvent 0 38 90 note_on.

Definition demo_library : drum_library :=
  mkLibrary [[kick; kick_off]] [[snare]] [[snare; kick]] [[kick; snare]]
            [[kick_off]].

(** A computation that leaves the loaded fragments alone. *)
Definition keeps_library {A : Type} (m : M A) : Prop :=
  forall s, all_drum_events (snd (m s)) = all_drum_events s.

(** A computation that never runs out of fuel. *)
Definition never_out_of_fuel {A : Type} (m : M A) : Prop :=
  forall s, fst (m s) <> OutOfFuel.

(** A target file whose tempo track holds no tempo message. *)
Definition silent_target : list (list message) :=
  [[track_name "Tempo Track" 0; end_of_track 0]].

(** The markers of a track: absolute tick and text. *)
Fixpoint marker_events_from (tick : Z) (track : list message)
  : list (Z * string) :=
  match track with
  | [] => []
  | m :: r =>
      let tick' := (tick + msg_time m)%Z in
      match m with
      | marker text _ => (tick', text) :: marker_events_from tick' r
      | _ => marker_events_from tick' r
      end
  end.

Definition marker_events (track : list message) : list (Z * string) :=
  marker_events_from 0 track.

(** Order on markers by beat position. *)
Definition position_le (a b : Q * string) : Prop := (fst a <= fst b)%Q.

(** The grid points that the tempo messages of a message list add to a
    running time. *)
Fixpoint grid_from (current_time : Z) (msgs : list message) : list Z :=
  match msgs with
  | [] => []
  | set_tempo _ time :: r =>
      (current_time + time)%Z :: grid_from (current_time + time) r
  | _ :: r => grid_from current_time r
  end.

(** A message that is no tempo message, or one with delta time 0. *)
Definition is_tempo (m : message) : bool :=
  match m with set_tempo _ _ => true | _ => false end.

(** A note-on or note-off message. *)
Definition is_note (m : message) : bool :=
  match m with note_message _ _ _ _ _ => true | _ => false end.

(** The channel of a note message; the other messages have none. *)
Definition msg_channel (m : message) : option Z :=
  match m with note_message _ channel _ _ _ => Some channel | _ => None end.

(** A note message moved to channel 0. *)
Definition on_channel_0 (m : message) : message :=
  match m with
  | note_message type _ note velocity time =>
      note_message type 0 note velocity time
  | _ => m
  end.

(** Every category of the library holds a fragment. *)
Definition stocked (lib : drum_library) : Prop :=
  start lib <> [] /\ mid_regular lib <> [] /\ mid_transition_small lib <> []
  /\ mid_transition_big lib <> [] /\ end_ lib <> [].

(** Every category of the library holds exactly one fragment. *)
Definition one_per_category (lib : drum_library) : Prop :=
  length (start lib) = 1%nat /\ length (mid_regular lib) = 1%nat
  /\ length (mid_transition_small lib) = 1%nat
  /\ length (mid_transition_big lib) = 1%nat
  /\ length (end_ lib) = 1%nat.

(** The conversion of the MIDI library from ticks to seconds:
    [tick * tempo * 1e-6 / ticks_per_beat]. *)
Definition tick2second (tick ticks_per_beat tempo : Z) : Q :=
  (inject_Z tick * inject_Z tempo / (1000000 * inject_Z ticks_per_beat))%Q.

(** A message that ends a sounding note: a note-off, or a note-on with
    velocity 0. *)
Definition closes (pitch_ : Z) (m : message) : Prop :=
  match m with
  | note_message note_off _ n _ _ => n = pitch_
  | note_message note_on _ n v _ => n = pitch_ /\ v = 0%Z
  | _ => False
  end.

(** A computation that, started with a stocked library, returns and
    leaves the library stocked. *)
Definition returns_stocked {A : Type} (m : M A) : Prop :=
  forall s, stocked (all_drum_events s) ->
    exists a s', m s = (Returns a, s') /\ stocked (all_drum_events s').

(** The scenario as the two documents that [generate_midi] reads, with
    one segment. *)
Definition scenario_document1 : beat_document :=
  mkBeatDocument (Some scenario_beat1) (Some scenario_positions1)
    (Some scenario_downbeats1)
    (Some [mkSegment (Some (q 3 2)) (Some "verse")]).

Definition scenario_document2 : beat_document2 :=
  mkBeatDocument2 (Some scenario_beat2) (Some scenario_downbeats2).

(** A library whose start category is empty. *)
Definition no_start_library : drum_library :=
  mkLibrary [] [[snare]] [[snare; kick]] [[kick; snare]] [[kick_off]].

(** A merged track with a tempo change between two notes. *)
Definition two_note_track : list message :=
  [note_message note_on 9 36 100 0; note_message note_off 9 36 0 240;
   set_tempo 250000 0; note_message note_on 9 38 90 240;
   note_message note_on 9 38 0 480].

(** A computation that leaves nothing but note messages in a drum track
    that held nothing else. *)
Definition keeps_notes {A : Type} (m : M A) : Prop :=
  forall s, Forall (fun msg => is_note msg = true) (track s) ->
    Forall (fun msg => is_note msg = true) (track (snd (m s))).

(** * Proofs *)

(** ** Basic facts about the Python helpers *)

Lemma Qltb_lt (x y : Q) : Qltb x y = true <-> (x < y)%Q.
Proof.
  unfold Qltb. rewrite negb_true_iff.
  split.
  - intros H. apply Qnot_le_lt. intros Hle.
    apply Qle_bool_iff in Hle. congruence.
  - intros H. destruct (Qle_bool y x) eqn:E; [|reflexivity].
    apply Qle_bool_iff in E. exfalso. lra.
Qed.

Lemma Qltb_ge (x y : Q) : Qltb x y = false <-> (y <= x)%Q.
Proof.
  unfold Qltb. rewrite negb_false_iff. apply Qle_bool_iff.
Qed.

Lemma Qle_bool_gt (x y : Q) : Qle_bool x y = false <-> (y < x)%Q.
Proof.
  rewrite <- Qltb_lt. unfold Qltb. rewrite negb_true_iff. reflexivity.
Qed.

Lemma index_from_lookup (v : Z) (l : list Z) (i k : nat) :
  index_from v l i = Ok k ->
  exists k', k = (i + k')%nat /\ l !! k' = Some v
             /\ forall j, (j < k')%nat -> l !! j <> Some v.
Proof.
  revert i. induction l as [|x r IH]; intros i H; simpl in H; [discriminate|].
  destruct (Z.eqb x v) eqn:E.
  - injection H as <-. apply Z.eqb_eq in E. subst x.
    exists 0%nat. split; [lia|]. split; [reflexivity|]. intros j Hj. lia.
  - apply IH in H as (k' & -> & Hk & Hbefore).
    exists (S k'). split; [lia|]. split; [exact Hk|].
    intros [|j] Hj; simpl.
    + intros [= ->]. rewrite Z.eqb_refl in E. discriminate.
    + apply Hbefore. lia.
Qed.

Lemma py_index_lookup (v : Z) (l : list Z) (k : nat) :
  py_index v l = Ok k ->
  l !! k = Some v /\ forall j, (j < k)%nat -> l !! j <> Some v.
Proof.
  intros H. apply index_from_lookup in H as (k' & -> & H1 & H2).
  simpl. auto.
Qed.

Lemma index_from_found (v : Z) (l : list Z) (i : nat) :
  v ∈ l -> exists k, index_from v l i = Ok k.
Proof.
  revert i. induction l as [|x r IH]; intros i Hin.
  - inversion Hin.
  - simpl. destruct (Z.eqb x v) eqn:E; [eauto|].
    apply IH. apply elem_of_cons in Hin as [->|Hin]; [|exact Hin].
    rewrite Z.eqb_refl in E. discriminate.
Qed.

Lemma index_from_absent (v : Z) (l : list Z) (i : nat) :
  v ∉ l -> index_from v l i = Raise ValueError.
Proof.
  revert i. induction l as [|x r IH]; intros i Hin; simpl; [reflexivity|].
  destruct (Z.eqb x v) eqn:E.
  - apply Z.eqb_eq in E. subst. exfalso. apply Hin. left.
  - apply IH. intros H. apply Hin. right. exact H.
Qed.

Lemma bind_Ok {A B : Type} (m : result A) (f : A -> result B) (b : B) :
  m ≫= f = Ok b -> exists a, m = Ok a /\ f a = Ok b.
Proof. destruct m as [a|e]; simpl; [eauto|discriminate]. Qed.

Lemma py_count_all (v : Z) (l : list Z) :
  (forall x, x ∈ l -> x = v) -> py_count v l = length l.
Proof.
  unfold py_count. induction l as [|x r IH]; intros H; simpl; [reflexivity|].
  rewrite (H x) by left. rewrite Z.eqb_refl. simpl. f_equal.
  apply IH. intros y Hy. apply H. right. exact Hy.
Qed.

(** ** The renumbering loop *)

Lemma renumber_loop_seq (B s : Z) (n a : nat) (fp : list Z) :
  B <> 0%Z ->
  exists fp', renumber_loop B s (seq a n) fp = Ok fp'
    /\ length fp' = length fp
    /\ forall i, fp' !! i =
         if decide ((a <= i < a + n)%nat /\ (i < length fp)%nat)
         then Some (numbered B s i) else fp !! i.
Proof.
  intros HB. revert a fp. induction n as [|n IH]; intros a fp.
  - exists fp. simpl. split; [reflexivity|]. split; [reflexivity|].
    intros i. case_decide; [lia|reflexivity].
  - simpl. unfold py_mod. destruct (Z.eqb_spec B 0) as [|_]; [contradiction|].
    simpl.
    destruct (IH (S a) (<[a := numbered B s a]> fp)) as (fp' & Hrun & Hlen & Hat).
    exists fp'. split; [exact Hrun|].
    rewrite length_insert in Hlen. split; [exact Hlen|].
    intros i. rewrite Hat. rewrite length_insert.
    destruct (decide (i = a)) as [->|Hne].
    + case_decide; [lia|].
      case_decide.
      * apply list_lookup_insert_eq. lia.
      * rewrite list_insert_ge by lia. reflexivity.
    + rewrite list_lookup_insert_ne by congruence.
      repeat case_decide; try reflexivity; lia.
Qed.

Lemma renumber_loop_zero (s : Z) (i : nat) (r : list nat) (fp : list Z) :
  renumber_loop 0 s (i :: r) fp = Raise ZeroDivisionError.
Proof. reflexivity. Qed.

(** ** The membership flags *)

Lemma downbeat_flags_length (fb d1 d2 : list Q) :
  length (downbeat_flags fb d1 d2) = length fb.
Proof. unfold downbeat_flags. apply length_map. Qed.

Lemma downbeat_flags_values (fb d1 d2 : list Q) (x : Z) :
  x ∈ downbeat_flags fb d1 d2 -> x = 0%Z \/ x = 1%Z.
Proof.
  unfold downbeat_flags. intros H.
  apply list_elem_of_fmap in H as (b & -> & _).
  destruct (Qmem b d1 || Qmem b d2); auto.
Qed.

Lemma downbeat_flags_lookup (fb d1 d2 : list Q) (i : nat) (b : Q) :
  fb !! i = Some b ->
  downbeat_flags fb d1 d2 !! i
  = Some (if Qmem b d1 || Qmem b d2 then 1%Z else 0%Z).
Proof.
  intros H. unfold downbeat_flags.
  change (map ?f ?l) with (f <$> l). rewrite list_lookup_fmap, H. reflexivity.
Qed.

(** Before the first flagged index every flag is 0, so the count of
    zeros there is the index itself. *)
Lemma count_before_first_downbeat (fb d1 d2 : list Q) (k : nat) :
  py_index 1 (downbeat_flags fb d1 d2) = Ok k ->
  py_count 0 (take k (downbeat_flags fb d1 d2)) = k /\ (k < length fb)%nat.
Proof.
  intros H. apply py_index_lookup in H as [Hk Hbefore].
  assert (Hlt : (k < length fb)%nat).
  { apply lookup_lt_Some in Hk. rewrite downbeat_flags_length in Hk. exact Hk. }
  split; [|exact Hlt].
  rewrite py_count_all.
  - rewrite length_take, downbeat_flags_length. lia.
  - intros x Hx. apply list_elem_of_lookup in Hx as [j Hj].
    apply lookup_take_Some in Hj as [Hj Hjk].
    destruct (downbeat_flags_values fb d1 d2 x) as [->| ->]; [|reflexivity|].
    + apply list_elem_of_lookup. eauto.
    + exfalso. exact (Hbefore j Hjk Hj).
Qed.

(** ** [merge_beats]: the three paths *)

Lemma merge_beats_empty_primary (beat2 : list Q) (p1 : list Z)
  (d1 d2 : list Q) (tol : Q) :
  merge_beats [] beat2 p1 d1 d2 tol
  = Ok (RDict beat2 (fallback_positions beat2 d2) d2).
Proof. reflexivity. Qed.

Lemma merge_beats_empty_secondary (beat1 : list Q) (p1 : list Z)
  (d1 d2 : list Q) (tol : Q) :
  beat1 <> [] ->
  merge_beats beat1 [] p1 d1 d2 tol
  = Ok (RDict beat1 (fallback_positions beat1 d1) d1).
Proof. destruct beat1; [congruence|reflexivity]. Qed.

Lemma merge_beats_main (beat1 beat2 : list Q) (p1 : list Z)
  (d1 d2 : list Q) (tol : Q) :
  beat1 <> [] -> beat2 <> [] ->
  merge_beats beat1 beat2 p1 d1 d2 tol
  = (final_beats ← merge_final_beats beat1 beat2 p1 tol;
     let flags := downbeat_flags final_beats d1 d2 in
     num_beats_per_quarter ← py_max_int p1;
     first_downbeat ← py_index 1 flags;
     final_positions ←
       renumber_loop num_beats_per_quarter
         (num_beats_per_quarter
          - Z.of_nat (py_count 0 (take first_downbeat flags)) + 1)
         (seq 0 (length flags)) flags;
     Ok (RTuple final_beats final_positions
           (map fst (List.filter (fun bp => Z.eqb (snd bp) 1)
                                 (zip final_beats final_positions))))).
Proof. destruct beat1, beat2; try congruence; reflexivity. Qed.

Lemma merge_beats_tuple_inputs (beat1 beat2 : list Q) (p1 : list Z)
  (d1 d2 : list Q) (tol : Q) (fb : list Q) (fp : list Z) (md : list Q) :
  merge_beats beat1 beat2 p1 d1 d2 tol = Ok (RTuple fb fp md) ->
  beat1 <> [] /\ beat2 <> [].
Proof.
  destruct beat1 as [|x1 r1]; [discriminate|].
  destruct beat2 as [|x2 r2]; [discriminate|].
  intros _. split; discriminate.
Qed.

(** The main path, taken apart: what each step produced. *)
Lemma merge_beats_tuple_steps (beat1 beat2 : list Q) (p1 : list Z)
  (d1 d2 : list Q) (tol : Q) (fb : list Q) (fp : list Z) (md : list Q) :
  merge_beats beat1 beat2 p1 d1 d2 tol = Ok (RTuple fb fp md) ->
  exists B k,
    merge_final_beats beat1 beat2 p1 tol = Ok fb
    /\ py_max_int p1 = Ok B
    /\ py_index 1 (downbeat_flags fb d1 d2) = Ok k
    /\ renumber_loop B
         (B - Z.of_nat (py_count 0 (take k (downbeat_flags fb d1 d2))) + 1)
         (seq 0 (length (downbeat_flags fb d1 d2)))
         (downbeat_flags fb d1 d2) = Ok fp
    /\ md = map fst (List.filter (fun bp => Z.eqb (snd bp) 1) (zip fb fp)).
Proof.
  intros H. destruct (merge_beats_tuple_inputs _ _ _ _ _ _ _ _ _ H) as [H1 H2].
  rewrite merge_beats_main in H by assumption.
  apply bind_Ok in H as (fb' & Hfb & H). cbv zeta in H.
  apply bind_Ok in H as (B & HB & H).
  apply bind_Ok in H as (k & Hk & H).
  apply bind_Ok in H as (fp' & Hfp & H).
  injection H as <- <- <-.
  exists B, k. auto.
Qed.

Lemma py_max_int_nonempty (p1 : list Z) :
  p1 <> [] -> exists B, py_max_int p1 = Ok B.
Proof. destruct p1; [congruence|]. simpl. eauto. Qed.

Lemma insert_by_time_nonempty (x : Q * Z) (l : list (Q * Z)) :
  insert_by_time x l <> [].
Proof. destruct l as [|y r]; simpl; [|destruct (Qle_bool _ _)]; discriminate. Qed.

Lemma sort_by_time_nonempty (l : list (Q * Z)) :
  l <> [] -> sort_by_time l <> [].
Proof. destruct l; [congruence|]. intros _. simpl. apply insert_by_time_nonempty. Qed.

(** With at least one primary beat and one primary position, the
    sorting and the greedy pass always produce a non-empty beat list. *)
Lemma merge_final_beats_returns (beat1 beat2 : list Q) (p1 : list Z) (tol : Q) :
  beat1 <> [] -> p1 <> [] ->
  exists fb, merge_final_beats beat1 beat2 p1 tol = Ok fb /\ fb <> [].
Proof.
  intros H1 Hp. unfold merge_final_beats.
  destruct beat1 as [|x1 r1]; [congruence|].
  destruct p1 as [|y1 s1]; [congruence|].
  cbn [py_min py_max mbind result_bind].
  set (merged := sort_by_time _).
  assert (Hm : merged <> []).
  { apply sort_by_time_nonempty. intros Happ.
    apply app_eq_nil in Happ as [_ Happ]. simpl in Happ. discriminate. }
  destruct merged as [|m0 rest]; [congruence|]. simpl.
  eexists. split; [reflexivity|discriminate].
Qed.

Lemma flags_contain_one (fb d1 d2 : list Q) :
  1%Z ∈ downbeat_flags fb d1 d2 <-> some_downbeat_survives fb d1 d2 = true.
Proof.
  unfold downbeat_flags, some_downbeat_survives.
  induction fb as [|b r IH]; simpl.
  - split; [intros H; inversion H|discriminate].
  - rewrite elem_of_cons, IH.
    destruct (Qmem b d1 || Qmem b d2); simpl; split; auto.
    intros [H|H]; [discriminate|exact H].
Qed.

(** ** Claims about [merge_beats] *)

(** C1, as stated, fails: in the scenario of the specification the first
    flagged downbeat is at index 0, so k = 0 and beatsPerBar = 3; the
    code gives index 0 the position 1, the formula
    ((beatsPerBar - k + i) mod beatsPerBar with 0 mapped to beatsPerBar)
    gives 3. *)
Lemma merge_positions_spec_formula_fails :
  exists fb fp md,
    merge_beats scenario_beat1 scenario_beat2 scenario_positions1
      scenario_downbeats1 scenario_downbeats2 scenario_tolerance
    = Ok (RTuple fb fp md)
    /\ py_max_int scenario_positions1 = Ok 3%Z
    /\ py_index 1 (downbeat_flags fb scenario_downbeats1 scenario_downbeats2)
       = Ok 0%nat
    /\ fp !! 0%nat = Some 1%Z
    /\ spec_position 3 0 0 = 3%Z.
Proof.
  eexists _, _, _. split; [vm_compute; reflexivity|].
  repeat split; vm_compute; reflexivity.
Qed.

(** C1, amended: in a non-degenerate merge, with k the index of the first
    surviving event flagged as a downbeat (which is also the count of
    non-downbeat events before it) and beatsPerBar the maximum primary
    position, the surviving event at index i gets the position
    ((beatsPerBar - k + 1 + i) mod beatsPerBar), with 0 mapped to
    beatsPerBar; for beatsPerBar >= 1 the event at index k gets
    position 1. *)
Theorem merge_positions_formula (beat1 beat2 : list Q) (p1 : list Z)
  (d1 d2 : list Q) (tol : Q) (fb : list Q) (fp : list Z) (md : list Q) :
  merge_beats beat1 beat2 p1 d1 d2 tol = Ok (RTuple fb fp md) ->
  exists B k,
    py_max_int p1 = Ok B
    /\ py_index 1 (downbeat_flags fb d1 d2) = Ok k
    /\ py_count 0 (take k (downbeat_flags fb d1 d2)) = k
    /\ length fp = length fb
    /\ (forall i, (i < length fb)%nat ->
          fp !! i = Some (code_position B (Z.of_nat k) (Z.of_nat i)))
    /\ ((1 <= B)%Z -> fp !! k = Some 1%Z).
Proof.
  intros H.
  apply merge_beats_tuple_steps in H as (B & k & Hfb & HB & Hk & Hloop & Hmd).
  destruct (count_before_first_downbeat _ _ _ _ Hk) as [Hcount Hlt].
  rewrite Hcount in Hloop.
  assert (HB0 : B <> 0%Z).
  { intros ->. rewrite downbeat_flags_length in Hloop.
    destruct (length fb) as [|n]; [lia|]. simpl in Hloop. discriminate. }
  destruct (renumber_loop_seq B (B - Z.of_nat k + 1) (length (downbeat_flags fb d1 d2))
              0 (downbeat_flags fb d1 d2) HB0) as (fp' & Hrun & Hlen & Hat).
  rewrite Hrun in Hloop. injection Hloop as ->.
  rewrite downbeat_flags_length in Hlen, Hat.
  assert (Hpos : forall i, (i < length fb)%nat ->
            fp !! i = Some (code_position B (Z.of_nat k) (Z.of_nat i))).
  { intros i Hi. rewrite Hat. case_decide; [|lia].
    unfold numbered, code_position. reflexivity. }
  exists B, k. repeat split; try assumption.
  intros HB1. rewrite (Hpos k Hlt). f_equal. unfold code_position.
  replace (B - Z.of_nat k + 1 + Z.of_nat k)%Z with (1 + 1 * B)%Z by lia.
  rewrite Z.mod_add by lia.
  destruct (Z.eq_dec B 1%Z) as [->|Hne]; [reflexivity|].
  rewrite Z.mod_small by lia. reflexivity.
Qed.

(** The renumbering theorem at the scenario of the specification. *)
Lemma merge_positions_formula_witness :
  exists B k,
    py_max_int scenario_positions1 = Ok B
    /\ py_index 1 (downbeat_flags scenario_beat2 scenario_downbeats1
                     scenario_downbeats2) = Ok k
    /\ py_count 0 (take k (downbeat_flags scenario_beat2 scenario_downbeats1
                             scenario_downbeats2)) = k
    /\ length [1; 2; 3; 1; 2; 3; 1]%Z = length scenario_beat2
    /\ (forall i, (i < length scenario_beat2)%nat ->
          [1; 2; 3; 1; 2; 3; 1]%Z !! i
          = Some (code_position B (Z.of_nat k) (Z.of_nat i)))
    /\ ((1 <= B)%Z -> [1; 2; 3; 1; 2; 3; 1]%Z !! k = Some 1%Z).
Proof.
  apply (merge_positions_formula scenario_beat1 scenario_beat2
           scenario_positions1 scenario_downbeats1 scenario_downbeats2
           scenario_tolerance scenario_beat2 [1; 2; 3; 1; 2; 3; 1]%Z
           [q 0 1; q 3 2; q 3 1]).
  vm_compute. reflexivity.
Defined.

(** C2, as stated, fails in its last part: the first event flagged as a
    downbeat is the secondary downbeat at time 0.0 (index 0), not the
    primary downbeat at time 1.0, and the beat at time 1.0 ends at
    position 3. *)
Lemma scenario_anchor_is_not_at_one :
  exists fb fp md,
    merge_beats scenario_beat1 scenario_beat2 scenario_positions1
      scenario_downbeats1 scenario_downbeats2 scenario_tolerance
    = Ok (RTuple fb fp md)
    /\ py_index 1 (downbeat_flags fb scenario_downbeats1 scenario_downbeats2)
       = Ok 0%nat
    /\ fb !! 0%nat = Some (q 0 1)
    /\ fb !! 2%nat = Some (q 1 1)
    /\ fp !! 2%nat = Some 3%Z
    /\ ~ q 1 1 ∈ md.
Proof.
  eexists _, _, _. split; [vm_compute; reflexivity|].
  repeat split; try (vm_compute; reflexivity).
  intros H. repeat (apply elem_of_cons in H as [H|H]; [discriminate H|]).
  inversion H.
Qed.

(** C2, amended: in the scenario, secondary 0.0 and 0.5 are classified
    "before" and 2.5 and 3.0 "after", the deduplicated merge keeps all of
    [0.0, 0.5, 1.0, 1.5, 2.0, 2.5, 3.0], and the positions are renumbered
    cyclically from the first flagged downbeat, which is the secondary
    downbeat at time 0.0: positions [1, 2, 3, 1, 2, 3, 1], downbeats
    [0.0, 1.5, 3.0]. *)
Theorem scenario_merge :
  py_min scenario_beat1 = Ok (q 1 1)
  /\ py_max scenario_beat1 = Ok (q 2 1)
  /\ beat2_before scenario_beat2 (q 1 1) scenario_tolerance
     = [(q 0 1, 1%Z); (q 1 2, 2%Z)]
  /\ beat2_after scenario_beat2 (q 2 1) scenario_tolerance
     = [(q 5 2, 6%Z); (q 3 1, 7%Z)]
  /\ merge_final_beats scenario_beat1 scenario_beat2 scenario_positions1
       scenario_tolerance
     = Ok [q 0 1; q 1 2; q 1 1; q 3 2; q 2 1; q 5 2; q 3 1]
  /\ downbeat_flags [q 0 1; q 1 2; q 1 1; q 3 2; q 2 1; q 5 2; q 3 1]
       scenario_downbeats1 scenario_downbeats2
     = [1; 0; 1; 0; 0; 0; 0]%Z
  /\ merge_beats scenario_beat1 scenario_beat2 scenario_positions1
       scenario_downbeats1 scenario_downbeats2 scenario_tolerance
     = Ok (RTuple [q 0 1; q 1 2; q 1 1; q 3 2; q 2 1; q 5 2; q 3 1]
                  [1; 2; 3; 1; 2; 3; 1]%Z
                  [q 0 1; q 3 2; q 3 1]).
Proof. repeat split; vm_compute; reflexivity. Qed.

(** C4, as stated, fails: merging the scenario's primary with an empty
    secondary returns the positions [1, 2, 2], not the original
    [1, 2, 3]. *)
Lemma merge_empty_secondary_changes_positions :
  exists r,
    merge_beats scenario_beat1 [] scenario_positions1 scenario_downbeats1 []
      scenario_tolerance = Ok r
    /\ result_beats r = scenario_beat1
    /\ result_positions r = [1; 2; 2]%Z
    /\ result_positions r <> scenario_positions1.
Proof.
  eexists. split; [vm_compute; reflexivity|].
  repeat split; try (vm_compute; reflexivity).
  simpl. discriminate.
Qed.

(** C4, amended: for every non-empty primary timeline, merging it with an
    empty secondary returns (as a dictionary) the primary beats and the
    primary downbeats verbatim; the positions are regenerated, 1 for a
    beat that equals a primary downbeat and 2 for every other beat. *)
Theorem merge_empty_secondary (beat1 : list Q) (p1 : list Z)
  (d1 d2 : list Q) (tol : Q) :
  beat1 <> [] ->
  exists ps,
    merge_beats beat1 [] p1 d1 d2 tol = Ok (RDict beat1 ps d1)
    /\ length ps = length beat1
    /\ forall i b, beat1 !! i = Some b ->
         ps !! i = Some (if Qmem b d1 then 1%Z else 2%Z).
Proof.
  intros H. exists (fallback_positions beat1 d1).
  split; [apply merge_beats_empty_secondary; exact H|].
  unfold fallback_positions. split; [apply length_map|].
  intros i b Hb. change (map ?f ?l) with (f <$> l).
  rewrite list_lookup_fmap, Hb. reflexivity.
Qed.

(** The empty-secondary theorem at the scenario's primary timeline. *)
Lemma merge_empty_secondary_witness :
  exists ps,
    merge_beats scenario_beat1 [] scenario_positions1 scenario_downbeats1 []
      scenario_tolerance = Ok (RDict scenario_beat1 ps scenario_downbeats1)
    /\ length ps = length scenario_beat1
    /\ forall i b, scenario_beat1 !! i = Some b ->
         ps !! i = Some (if Qmem b scenario_downbeats1 then 1%Z else 2%Z).
Proof.
  apply (merge_empty_secondary scenario_beat1 scenario_positions1
           scenario_downbeats1 [] scenario_tolerance).
  discriminate.
Defined.

(** C5, a defect of the code: both inputs below are well formed and
    non-empty, yet no surviving beat equals a listed downbeat, and the
    unguarded search for the first downbeat, [final_positions.index(1)],
    raises ValueError where the function is documented to return the
    merged result. *)
Lemma merge_raises_on_well_formed_inputs :
  well_formed_primary partial_bar_beat1 partial_bar_positions1
    partial_bar_downbeats1 = true
  /\ well_formed_secondary partial_bar_beat2 partial_bar_downbeats2 = true
  /\ merge_final_beats partial_bar_beat1 partial_bar_beat2
       partial_bar_positions1 scenario_tolerance
     = Ok [q 0 1; q 1 2; q 1 1; q 3 2; q 2 1; q 51 20]
  /\ merge_beats partial_bar_beat1 partial_bar_beat2 partial_bar_positions1
       partial_bar_downbeats1 partial_bar_downbeats2 scenario_tolerance
     = Raise ValueError.
Proof. repeat split; vm_compute; reflexivity. Qed.

(** X26: what decides the outcome of the main path. For non-empty inputs
    with at least one primary position, the sorting and the greedy pass
    always succeed; the merge then returns a tuple exactly when some
    surviving beat equals a listed downbeat of either source and the
    maximum primary position is not 0. With no such beat the search for
    the first downbeat raises ValueError, with a maximum of 0 the
    renumbering raises ZeroDivisionError. *)
Theorem merge_returns (beat1 beat2 : list Q) (p1 : list Z)
  (d1 d2 : list Q) (tol : Q) :
  beat1 <> [] -> beat2 <> [] -> p1 <> [] ->
  exists fb B,
    merge_final_beats beat1 beat2 p1 tol = Ok fb
    /\ py_max_int p1 = Ok B
    /\ match merge_beats beat1 beat2 p1 d1 d2 tol with
       | Ok (RTuple fb' fp md) =>
           fb' = fb /\ length fp = length fb
           /\ some_downbeat_survives fb d1 d2 = true /\ B <> 0%Z
       | Ok (RDict _ _ _) => False
       | Raise ValueError => some_downbeat_survives fb d1 d2 = false
       | Raise ZeroDivisionError =>
           some_downbeat_survives fb d1 d2 = true /\ B = 0%Z
       | Raise _ => False
       end.
Proof.
  intros H1 H2 Hp.
  destruct (merge_final_beats_returns beat1 beat2 p1 tol H1 Hp) as (fb & Hfb & Hne).
  destruct (py_max_int_nonempty p1 Hp) as (B & HB).
  exists fb, B. split; [exact Hfb|]. split; [exact HB|].
  rewrite merge_beats_main by assumption. rewrite Hfb, HB.
  cbn [mbind result_bind]. cbv zeta.
  destruct (some_downbeat_survives fb d1 d2) eqn:Hs.
  - apply flags_contain_one in Hs.
    destruct (index_from_found 1%Z _ 0 Hs) as (k & Hk).
    unfold py_index at 1. rewrite Hk. cbn [mbind result_bind].
    destruct (Z.eq_dec B 0%Z) as [->|HB0].
    + rewrite downbeat_flags_length.
      destruct fb as [|b r]; [congruence|]. simpl. auto.
    + destruct (renumber_loop_seq B
                  (B - Z.of_nat (py_count 0 (take k (downbeat_flags fb d1 d2))) + 1)
                  (length (downbeat_flags fb d1 d2)) 0
                  (downbeat_flags fb d1 d2) HB0) as (fp & Hrun & Hlen & _).
      rewrite Hrun. cbn [mbind result_bind].
      rewrite Hlen, downbeat_flags_length. auto.
  - unfold py_index. rewrite index_from_absent; [reflexivity|].
    intros Hin. apply flags_contain_one in Hin. congruence.
Qed.

(** The characterisation of the outcomes at the scenario. *)
Lemma merge_returns_witness :
  exists fb B,
    merge_final_beats scenario_beat1 scenario_beat2 scenario_positions1
      scenario_tolerance = Ok fb
    /\ py_max_int scenario_positions1 = Ok B
    /\ match merge_beats scenario_beat1 scenario_beat2 scenario_positions1
               scenario_downbeats1 scenario_downbeats2 scenario_tolerance with
       | Ok (RTuple fb' fp md) =>
           fb' = fb /\ length fp = length fb
           /\ some_downbeat_survives fb scenario_downbeats1
                scenario_downbeats2 = true
           /\ B <> 0%Z
       | Ok (RDict _ _ _) => False
       | Raise ValueError =>
           some_downbeat_survives fb scenario_downbeats1 scenario_downbeats2
           = false
       | Raise ZeroDivisionError =>
           some_downbeat_survives fb scenario_downbeats1 scenario_downbeats2
           = true /\ B = 0%Z
       | Raise _ => False
       end.
Proof.
  apply (merge_returns scenario_beat1 scenario_beat2 scenario_positions1
           scenario_downbeats1 scenario_downbeats2 scenario_tolerance);
    discriminate.
Defined.

(** C10: whenever either input beat list is empty the merge returns a
    dictionary, and unpacking it into three targets binds the key
    strings "beats", "beat_positions", "downbeats"; whenever both are
    non-empty, anything it returns is a 3-tuple, whose unpacking binds
    the three lists. *)
Theorem merge_result_shape (beat1 beat2 : list Q) (p1 : list Z)
  (d1 d2 : list Q) (tol : Q) :
  (beat1 = [] \/ beat2 = [] ->
   exists b p d,
     merge_beats beat1 beat2 p1 d1 d2 tol = Ok (RDict b p d)
     /\ unpack3 (RDict b p d)
        = Ok (PStr "beats", PStr "beat_positions", PStr "downbeats"))
  /\ (beat1 <> [] -> beat2 <> [] ->
      forall r, merge_beats beat1 beat2 p1 d1 d2 tol = Ok r ->
      exists fb fp md,
        r = RTuple fb fp md
        /\ unpack3 r = Ok (PFloats fb, PInts fp, PFloats md)).
Proof.
  split.
  - intros [-> | ->].
    + rewrite merge_beats_empty_primary. eauto.
    + destruct beat1 as [|x r].
      * rewrite merge_beats_empty_primary. eauto.
      * rewrite merge_beats_empty_secondary by discriminate. eauto.
  - intros H1 H2 r H. rewrite merge_beats_main in H by assumption.
    apply bind_Ok in H as (fb & _ & H). cbv zeta in H.
    apply bind_Ok in H as (B & _ & H).
    apply bind_Ok in H as (k & _ & H).
    apply bind_Ok in H as (fp & _ & H).
    injection H as <-. eauto.
Qed.

(** Both shapes, at the scenario with and without its primary beats. *)
Lemma merge_result_shape_witness :
  (exists b p d,
     merge_beats [] scenario_beat2 scenario_positions1 scenario_downbeats1
       scenario_downbeats2 scenario_tolerance = Ok (RDict b p d)
     /\ unpack3 (RDict b p d)
        = Ok (PStr "beats", PStr "beat_positions", PStr "downbeats"))
  /\ (exists fb fp md,
        RTuple scenario_beat2 [1; 2; 3; 1; 2; 3; 1]%Z [q 0 1; q 3 2; q 3 1]
        = RTuple fb fp md
        /\ unpack3 (RTuple scenario_beat2 [1; 2; 3; 1; 2; 3; 1]%Z
                      [q 0 1; q 3 2; q 3 1])
           = Ok (PFloats fb, PInts fp, PFloats md)).
Proof.
  split.
  - apply (merge_result_shape [] scenario_beat2 scenario_positions1
             scenario_downbeats1 scenario_downbeats2 scenario_tolerance).
    left. reflexivity.
  - apply (merge_result_shape scenario_beat1 scenario_beat2
             scenario_positions1 scenario_downbeats1 scenario_downbeats2
             scenario_tolerance).
    + discriminate.
    + discriminate.
    + vm_compute. reflexivity.
Defined.

(** In the empty-input cases the caller then fails on the string bound
    to [beat_positions]. *)
Lemma generate_midi_merge_empty_input (beats1 beats2 : list Q)
  (p1 : list Z) (d1 d2 : list Q) (tol : Q) :
  beats1 = [] \/ beats2 = [] ->
  generate_midi_merge beats1 beats2 p1 d1 d2 tol = Raise TypeError.
Proof.
  intros H. unfold generate_midi_merge.
  destruct beats1 as [|x r]; [reflexivity|].
  destruct H as [H | ->]; [discriminate|reflexivity].
Qed.

(** ** Sorting and the greedy pass *)

Lemma insert_by_time_perm (x : Q * Z) (l : list (Q * Z)) :
  insert_by_time x l ≡ₚ x :: l.
Proof.
  induction l as [|y r IH]; simpl; [reflexivity|].
  destruct (Qle_bool (fst x) (fst y)); [reflexivity|].
  rewrite IH. apply Permutation_swap.
Qed.

Lemma sort_by_time_perm (l : list (Q * Z)) : sort_by_time l ≡ₚ l.
Proof.
  induction l as [|x r IH]; simpl; [reflexivity|].
  rewrite insert_by_time_perm, IH. reflexivity.
Qed.

Lemma insert_by_time_sorted (x : Q * Z) (l : list (Q * Z)) :
  StronglySorted time_le l -> StronglySorted time_le (insert_by_time x l).
Proof.
  induction l as [|y r IH]; intros Hs; simpl.
  - repeat constructor.
  - apply StronglySorted_inv in Hs as [Hr Hy].
    destruct (Qle_bool (fst x) (fst y)) eqn:E.
    + apply Qle_bool_iff in E. constructor.
      * constructor; assumption.
      * constructor; [exact E|].
        eapply Forall_impl; [exact Hy|].
        intros z Hz. unfold time_le in *. lra.
    + apply Qle_bool_gt in E. constructor; [apply IH; exact Hr|].
      rewrite insert_by_time_perm. constructor; [|exact Hy].
      unfold time_le. lra.
Qed.

Lemma sort_by_time_sorted (l : list (Q * Z)) :
  StronglySorted time_le (sort_by_time l).
Proof.
  induction l as [|x r IH]; simpl; [constructor|].
  apply insert_by_time_sorted. exact IH.
Qed.

(** On a sorted input whose items are not earlier than [last], the
    greedy pass keeps items that are more than the tolerance after
    [last] and after each other. *)
Lemma filter_close_apart (tol last : Q) (rest : list (Q * Z)) :
  StronglySorted time_le rest ->
  Forall (fun b => (last <= fst b)%Q) rest ->
  Forall (fun b => apart tol last (fst b)) (filter_close tol last rest)
  /\ StronglySorted (fun a b => apart tol (fst a) (fst b))
       (filter_close tol last rest).
Proof.
  revert last. induction rest as [|[beat position] r IH]; intros last Hs Hlast.
  - simpl. split; constructor.
  - apply StronglySorted_inv in Hs as [Hr Hhead].
    apply Forall_cons in Hlast as [Hb Hlast]. cbn [fst] in Hb.
    cbn [filter_close]. destruct (Qltb tol (Qabs (beat - last))) eqn:E.
    + apply Qltb_lt in E. rewrite Qabs_pos in E by lra.
      destruct (IH beat Hr Hhead) as [IH1 IH2].
      split.
      * constructor; [exact E|].
        eapply Forall_impl; [exact IH1|].
        unfold apart. intros z Hz. lra.
      * constructor; assumption.
    + apply IH; assumption.
Qed.

Lemma filtered_beats_apart (tol : Q) (merged filtered : list (Q * Z)) :
  StronglySorted time_le merged ->
  filtered_beats tol merged = Ok filtered ->
  StronglySorted (apart tol) (map fst filtered).
Proof.
  intros Hs H. destruct merged as [|m0 rest]; [discriminate|].
  injection H as <-.
  apply StronglySorted_inv in Hs as [Hr Hhead].
  destruct (filter_close_apart tol (fst m0) rest Hr Hhead) as [H1 H2].
  simpl. constructor.
  - change (map ?f ?l) with (f <$> l).
    eapply StronglySorted_fmap; [|exact H2]. auto.
  - apply Forall_fmap. exact H1.
Qed.

Lemma merge_final_beats_apart (beat1 beat2 : list Q) (p1 : list Z)
  (tol : Q) (fb : list Q) :
  merge_final_beats beat1 beat2 p1 tol = Ok fb ->
  StronglySorted (apart tol) fb.
Proof.
  unfold merge_final_beats. intros H.
  apply bind_Ok in H as (s & _ & H).
  apply bind_Ok in H as (e & _ & H). cbv zeta in H.
  apply bind_Ok in H as (filtered & Hf & H).
  injection H as <-.
  eapply filtered_beats_apart; [|exact Hf].
  apply sort_by_time_sorted.
Qed.

Lemma StronglySorted_lookup {A : Type} (R : relation A) (l : list A)
  (i j : nat) (x y : A) :
  StronglySorted R l -> (i < j)%nat ->
  l !! i = Some x -> l !! j = Some y -> R x y.
Proof.
  intros Hs. revert i j x y.
  induction Hs as [|a l Hs IH Ha]; intros i j x y Hij Hi Hj.
  - discriminate.
  - destruct j as [|j]; [lia|]. simpl in Hj.
    destruct i as [|i]; simpl in Hi.
    + injection Hi as <-. rewrite Forall_forall in Ha.
      apply Ha. apply list_elem_of_lookup. eauto.
    + apply (IH i j); [lia|assumption..].
Qed.

(** C6: in the result of a merge of two non-empty timelines with
    tolerance t, any two beat times at distinct indices are more than t
    apart, and the later one is strictly larger unless t is negative. *)
Theorem merged_beats_apart (beat1 beat2 : list Q) (p1 : list Z)
  (d1 d2 : list Q) (tol : Q) (fb : list Q) (fp : list Z) (md : list Q)
  (i j : nat) (x y : Q) :
  merge_beats beat1 beat2 p1 d1 d2 tol = Ok (RTuple fb fp md) ->
  (i < j)%nat -> fb !! i = Some x -> fb !! j = Some y ->
  (tol < Qabs (y - x))%Q /\ (tol < Qabs (x - y))%Q
  /\ (x < y \/ tol < 0)%Q.
Proof.
  intros H Hij Hi Hj.
  apply merge_beats_tuple_steps in H as (B & k & Hfb & _).
  apply merge_final_beats_apart in Hfb.
  pose proof (StronglySorted_lookup _ _ _ _ _ _ Hfb Hij Hi Hj) as Hgap.
  unfold apart in Hgap.
  assert (H1 : (y - x <= Qabs (y - x))%Q) by apply Qle_Qabs.
  assert (H2 : (Qabs (x - y) == Qabs (y - x))%Q).
  { rewrite <- Qabs_opp. apply Qabs_wd. ring. }
  split; [lra|]. split; [lra|].
  destruct (Qlt_le_dec tol 0); [right; assumption|left; lra].
Qed.

(** The first two merged beats of the scenario are 0.5 s apart. *)
Lemma merged_beats_apart_witness :
  (scenario_tolerance < Qabs (q 1 2 - q 0 1))%Q
  /\ (scenario_tolerance < Qabs (q 0 1 - q 1 2))%Q
  /\ (q 0 1 < q 1 2 \/ scenario_tolerance < 0)%Q.
Proof.
  apply (merged_beats_apart scenario_beat1 scenario_beat2 scenario_positions1
           scenario_downbeats1 scenario_downbeats2 scenario_tolerance
           scenario_beat2 [1; 2; 3; 1; 2; 3; 1]%Z [q 0 1; q 3 2; q 3 1]
           0%nat 1%nat (q 0 1) (q 1 2)).
  - vm_compute. reflexivity.
  - lia.
  - reflexivity.
  - reflexivity.
Defined.

(** ** [time_to_beat_position] *)

Lemma increasingb_sorted (l : list Q) :
  increasingb l = true -> StronglySorted Qlt l.
Proof.
  induction l as [|x [|y r] IH]; intros H.
  - constructor.
  - repeat constructor.
  - cbn [increasingb] in H. apply andb_true_iff in H as [Hxy Hr].
    apply Qltb_lt in Hxy. specialize (IH Hr).
    constructor; [exact IH|].
    apply StronglySorted_inv in IH as [_ Hy].
    constructor; [exact Hxy|].
    eapply Forall_impl; [exact Hy|]. intros z Hz. simpl in Hz. lra.
Qed.

Lemma increasingb_lookup (l : list Q) (i j : nat) (x y : Q) :
  increasingb l = true -> (i < j)%nat ->
  l !! i = Some x -> l !! j = Some y -> (x < y)%Q.
Proof.
  intros H. apply (StronglySorted_lookup Qlt). apply increasingb_sorted, H.
Qed.

(** The scan steps over every beat that is earlier than the time. *)
Lemma scan_beats_skip (t : Q) (beats : list Q) (m : nat) :
  forall (i : nat) (rest : list Q),
    Forall (fun b => (b < t)%Q) (take m rest) ->
    scan_beats t beats i rest = scan_beats t beats (i + m) (drop m rest).
Proof.
  induction m as [|m IH]; intros i rest H.
  - rewrite Nat.add_0_r, drop_0. reflexivity.
  - destruct rest as [|b r]; [reflexivity|].
    cbn [take] in H. apply Forall_cons in H as [Hb Hr].
    cbn [scan_beats drop]. apply Qle_bool_gt in Hb. rewrite Hb.
    rewrite (IH (S i) r Hr). f_equal. lia.
Qed.

Lemma scan_beats_all_earlier (t : Q) (beats : list Q) (i : nat)
  (rest : list Q) :
  Forall (fun b => (b < t)%Q) rest -> scan_beats t beats i rest = None.
Proof.
  intros H. rewrite (scan_beats_skip t beats (length rest)).
  - rewrite drop_all. reflexivity.
  - rewrite firstn_all. exact H.
Qed.

Lemma time_to_beat_position_scan (t : Q) (beats : list Q) (pos : Q) :
  scan_beats t beats 0 beats = Some pos ->
  time_to_beat_position t beats = pos.
Proof.
  intros H. unfold time_to_beat_position.
  destruct beats as [|b r]; [discriminate|]. rewrite H. reflexivity.
Qed.

(** Between two consecutive beats, on any list in which the beats up to
    the earlier one precede the time. *)
Lemma time_to_beat_position_between (beats : list Q) (i : nat) (x y t : Q) :
  increasingb beats = true ->
  beats !! i = Some x -> beats !! S i = Some y ->
  (x < t)%Q -> (t <= y)%Q ->
  time_to_beat_position t beats
  = (inject_Z (Z.of_nat (S i)) + (t - x) / (y - x))%Q.
Proof.
  intros Hinc Hx Hy Hxt Hty.
  apply time_to_beat_position_scan.
  rewrite (scan_beats_skip t beats (S i)).
  - rewrite (drop_S _ _ _ Hy). cbn [scan_beats Nat.add].
    apply Qle_bool_iff in Hty. rewrite Hty. rewrite Hx. cbn [default from_option]. unfold id.
    pose proof (increasingb_lookup beats i (S i) x y Hinc
                  (Nat.lt_succ_diag_r i) Hx Hy) as Hxy.
    assert (Hiv : Qltb 0 (y - x) = true) by (apply Qltb_lt; lra).
    rewrite Hiv. reflexivity.
  - apply Forall_lookup. intros j z Hj.
    apply lookup_take_Some in Hj as [Hj Hlt].
    destruct (decide (j = i)) as [->|Hne].
    + rewrite Hx in Hj. injection Hj as <-. exact Hxt.
    + assert (Hji : (j < i)%nat) by lia.
      pose proof (increasingb_lookup beats j i z x Hinc Hji Hj Hx). lra.
Qed.

Lemma time_to_beat_position_early (beats : list Q) (b0 t : Q) :
  beats !! 0%nat = Some b0 -> (t <= b0)%Q ->
  time_to_beat_position t beats = 0%Q.
Proof.
  intros H0 Ht. apply time_to_beat_position_scan.
  destruct beats as [|b r]; [discriminate|]. injection H0 as ->.
  cbn [scan_beats]. apply Qle_bool_iff in Ht. rewrite Ht. reflexivity.
Qed.

Lemma time_to_beat_position_past (beats : list Q) (t : Q) :
  beats <> [] -> Forall (fun b => (b < t)%Q) beats ->
  time_to_beat_position t beats
  = let n := length beats in
    let last_beat := default 0%Q (beats !! (n - 1)%nat) in
    let last_interval :=
      (last_beat - default 0%Q (beats !! (n - 2)%nat))%Q in
    if (2 <=? n)%nat && Qltb 0 last_interval
    then (inject_Z (Z.of_nat n) + (t - last_beat) / last_interval)%Q
    else inject_Z (Z.of_nat n).
Proof.
  intros Hne Hall. unfold time_to_beat_position.
  destruct beats as [|b r]; [congruence|].
  rewrite (scan_beats_all_earlier t _ 0 _ Hall). cbv zeta.
  destruct (2 <=? length (b :: r))%nat; [|reflexivity].
  cbn [andb]. reflexivity.
Qed.

(** C3, as stated, fails: on the increasing list [0.0, 1.0] the time of
    the beat at index 1 is mapped to 2, not to 1. *)
Lemma time_to_beat_position_of_beat_is_not_index :
  increasingb [q 0 1; q 1 1] = true
  /\ [q 0 1; q 1 1] !! 1%nat = Some (q 1 1)
  /\ (time_to_beat_position (q 1 1) [q 0 1; q 1 1] == 2)%Q
  /\ ~ (time_to_beat_position (q 1 1) [q 0 1; q 1 1] == inject_Z 1)%Q.
Proof.
  repeat split; try reflexivity.
  vm_compute. discriminate.
Qed.

(** C3, amended: for every non-empty, strictly increasing beat list,
    a time at or before beats[0] is mapped to 0; a time after beats[i]
    and at or before beats[i+1] is mapped to
    (i + 1) + (time - beats[i]) / (beats[i+1] - beats[i]), so that the
    time of beats[i] itself, for i >= 1, is mapped to i + 1; a time past
    the last beat is mapped to
    len(beats) + (time - last) / (final inter-beat interval), and to
    len(beats) = 1 on a one-beat list. On any list of two or more beats
    that are all earlier than the time and whose final interval is
    non-positive, the result is len(beats). *)
Theorem time_to_beat_position_increasing (beats : list Q) :
  beats <> [] -> increasingb beats = true ->
  (forall b0 t, beats !! 0%nat = Some b0 -> (t <= b0)%Q ->
     time_to_beat_position t beats = 0%Q)
  /\ (forall i x y t,
        beats !! i = Some x -> beats !! S i = Some y ->
        (x < t)%Q -> (t <= y)%Q ->
        time_to_beat_position t beats
        = (inject_Z (Z.of_nat (S i)) + (t - x) / (y - x))%Q)
  /\ (forall i y, beats !! S i = Some y ->
        (time_to_beat_position y beats == inject_Z (Z.of_nat (S i)) + 1)%Q)
  /\ (forall n x y t,
        length beats = S (S n) ->
        beats !! n = Some x -> beats !! S n = Some y -> (y < t)%Q ->
        time_to_beat_position t beats
        = (inject_Z (Z.of_nat (length beats)) + (t - y) / (y - x))%Q)
  /\ (forall b0 t, beats = [b0] -> (b0 < t)%Q ->
        time_to_beat_position t beats = inject_Z 1)
  /\ (forall l n x y t,
        length l = S (S n) ->
        l !! n = Some x -> l !! S n = Some y ->
        Forall (fun b => (b < t)%Q) l -> (y - x <= 0)%Q ->
        time_to_beat_position t l = inject_Z (Z.of_nat (length l))).
Proof.
  intros Hne Hinc.
  split; [|split; [|split; [|split; [|split]]]].
  - intros b0 t. apply time_to_beat_position_early.
  - intros i x y t. apply time_to_beat_position_between. exact Hinc.
  - intros i y Hy.
    destruct (lookup_lt_is_Some_2 beats i) as [x Hx].
    { apply lookup_lt_Some in Hy. lia. }
    pose proof (increasingb_lookup beats i (S i) x y Hinc
                  (Nat.lt_succ_diag_r i) Hx Hy) as Hxy.
    rewrite (time_to_beat_position_between beats i x y y Hinc Hx Hy Hxy)
      by lra.
    field. lra.
  - intros n x y t Hlen Hx Hy Hyt.
    rewrite time_to_beat_position_past.
    + rewrite Hlen. cbv zeta.
      replace (S (S n) - 1)%nat with (S n) by lia.
      replace (S (S n) - 2)%nat with n by lia.
      rewrite Hx, Hy. cbn [default from_option]. unfold id.
      pose proof (increasingb_lookup beats n (S n) x y Hinc
                    (Nat.lt_succ_diag_r n) Hx Hy) as Hxy.
      assert (Hiv : Qltb 0 (y - x) = true) by (apply Qltb_lt; lra).
      rewrite Hiv. reflexivity.
    + exact Hne.
    + apply Forall_lookup. intros j z Hj.
      destruct (decide (j = S n)) as [->|Hjn].
      * rewrite Hy in Hj. injection Hj as <-. exact Hyt.
      * assert (Hlt : (j < S n)%nat).
        { apply lookup_lt_Some in Hj. lia. }
        pose proof (increasingb_lookup beats j (S n) z y Hinc Hlt Hj Hy). lra.
  - intros b0 t -> Hb.
    rewrite time_to_beat_position_past.
    + reflexivity.
    + discriminate.
    + repeat constructor. exact Hb.
  - intros l n x y t Hlen Hx Hy Hall Hiv.
    rewrite time_to_beat_position_past.
    + rewrite Hlen. cbv zeta.
      replace (S (S n) - 1)%nat with (S n) by lia.
      replace (S (S n) - 2)%nat with n by lia.
      rewrite Hx, Hy. cbn [default from_option]. unfold id.
      assert (Hiv' : Qltb 0 (y - x) = false) by (apply Qltb_ge; exact Hiv).
      rewrite Hiv'. rewrite andb_false_r. reflexivity.
    + intros ->. discriminate.
    + exact Hall.
Qed.

(** The theorem on the beat list [0.0, 1.0, 2.0]. *)
Lemma time_to_beat_position_increasing_witness :
  let beats := [q 0 1; q 1 1; q 2 1] in
  (forall b0 t, beats !! 0%nat = Some b0 -> (t <= b0)%Q ->
     time_to_beat_position t beats = 0%Q)
  /\ (forall i x y t,
        beats !! i = Some x -> beats !! S i = Some y ->
        (x < t)%Q -> (t <= y)%Q ->
        time_to_beat_position t beats
        = (inject_Z (Z.of_nat (S i)) + (t - x) / (y - x))%Q)
  /\ (forall i y, beats !! S i = Some y ->
        (time_to_beat_position y beats == inject_Z (Z.of_nat (S i)) + 1)%Q)
  /\ (forall n x y t,
        length beats = S (S n) ->
        beats !! n = Some x -> beats !! S n = Some y -> (y < t)%Q ->
        time_to_beat_position t beats
        = (inject_Z (Z.of_nat (length beats)) + (t - y) / (y - x))%Q)
  /\ (forall b0 t, beats = [b0] -> (b0 < t)%Q ->
        time_to_beat_position t beats = inject_Z 1)
  /\ (forall l n x y t,
        length l = S (S n) ->
        l !! n = Some x -> l !! S n = Some y ->
        Forall (fun b => (b < t)%Q) l -> (y - x <= 0)%Q ->
        time_to_beat_position t l = inject_Z (Z.of_nat (length l))).
Proof.
  apply (time_to_beat_position_increasing [q 0 1; q 1 1; q 2 1]).
  - discriminate.
  - reflexivity.
Defined.

(** ** [create_tempo_track] *)

Lemma sum_times_app (l1 l2 : list message) :
  sum_times (l1 ++ l2) = (sum_times l1 + sum_times l2)%Z.
Proof.
  unfold sum_times. induction l1 as [|m r IH]; simpl; [reflexivity|].
  rewrite IH. lia.
Qed.

Lemma tempo_events_from_app (tick : Z) (l1 l2 : list message) :
  tempo_events_from tick (l1 ++ l2)
  = tempo_events_from tick l1
    ++ tempo_events_from (tick + sum_times l1) l2.
Proof.
  revert tick. induction l1 as [|m r IH]; intros tick.
  - simpl. f_equal. unfold sum_times. simpl. lia.
  - cbn [app tempo_events_from]. cbv zeta.
    replace (tick + sum_times (m :: r))%Z
      with (tick + msg_time m + sum_times r)%Z
      by (unfold sum_times; simpl; lia).
    destruct m; rewrite IH; reflexivity.
Qed.

Lemma meta_set_tempo_Ok (tempo time : Z) (msg : message) :
  meta_set_tempo tempo time = Ok msg ->
  msg = set_tempo tempo time /\ (0 <= tempo <= max_tempo)%Z.
Proof.
  unfold meta_set_tempo.
  destruct (0 <=? tempo)%Z eqn:E1; [|discriminate].
  destruct (tempo <=? max_tempo)%Z eqn:E2; [|discriminate].
  cbn [andb]. intros H. injection H as <-. split; [reflexivity|lia].
Qed.

Lemma meta_set_tempo_Raise (tempo time : Z) (e : exn) :
  meta_set_tempo tempo time = Raise e ->
  e = ValueError /\ ~ (0 <= tempo <= max_tempo)%Z.
Proof.
  unfold meta_set_tempo.
  destruct (0 <=? tempo)%Z eqn:E1; destruct (tempo <=? max_tempo)%Z eqn:E2;
    cbn [andb]; intros H; [discriminate|..]; injection H as <-;
    (split; [reflexivity|lia]).
Qed.

Lemma interval_events_cons (tpb : Z) (beats : list Q) (cur : Z) (i : nat)
  (r : list nat) :
  interval_events tpb beats cur (i :: r)
  = match interval_event tpb beats cur i with
    | Some e => e :: interval_events tpb beats cur r
    | None => interval_events tpb beats cur r
    end.
Proof. reflexivity. Qed.

(** Whatever was skipped before, an emitted tempo lands on its own tick:
    the delta is computed against the running sum of the track. Every
    tempo of a loop that ends is one the MIDI library accepts. *)
Lemma tempo_loop_events (tpb : Z) (beats : list Q) (cur : Z)
  (idxs : list nat) (track track' : list message) :
  tempo_loop tpb beats cur idxs track = Ok track' ->
  tempo_events track'
  = tempo_events track ++ interval_events tpb beats cur idxs
  /\ Forall (fun e => (0 <= snd e <= max_tempo)%Z)
        (interval_events tpb beats cur idxs).
Proof.
  revert track. induction idxs as [|i r IH]; intros track.
  - simpl. intros H. injection H as <-. rewrite app_nil_r.
    split; [reflexivity|constructor].
  - cbn [tempo_loop]. cbv zeta. rewrite interval_events_cons.
    unfold interval_event. cbv zeta.
    destruct (Qle_bool _ 0) eqn:E.
    + apply IH.
    + destruct (meta_set_tempo _ _) as [msg|e] eqn:Hmsg; [|discriminate].
      cbn [mbind result_bind]. intros H.
      apply meta_set_tempo_Ok in Hmsg as [-> Hrange].
      apply IH in H as [-> Hall]. split.
      * unfold tempo_events at 1.
        rewrite tempo_events_from_app. cbn [tempo_events_from msg_time].
        cbv zeta. rewrite <- app_assoc. f_equal. cbn [app]. f_equal.
        f_equal. lia.
      * constructor; [exact Hrange|exact Hall].
Qed.

(** The loop stops only on a tempo that the MIDI library refuses. *)
Lemma tempo_loop_raises (tpb : Z) (beats : list Q) (cur : Z)
  (idxs : list nat) (track : list message) (e : exn) :
  tempo_loop tpb beats cur idxs track = Raise e ->
  e = ValueError
  /\ exists i tick tempo,
       i ∈ idxs /\ interval_event tpb beats cur i = Some (tick, tempo)
       /\ ~ (0 <= tempo <= max_tempo)%Z.
Proof.
  revert track. induction idxs as [|i r IH]; intros track; [discriminate|].
  cbn [tempo_loop]. cbv zeta.
  destruct (Qle_bool _ 0) eqn:E.
  - intros H. apply IH in H as (-> & j & tick & tempo & Hj & Hev & Hout).
    split; [reflexivity|]. exists j, tick, tempo.
    split; [right; exact Hj|]. auto.
  - destruct (meta_set_tempo _ _) as [msg|e'] eqn:Hmsg.
    + cbn [mbind result_bind]. intros H.
      apply IH in H as (-> & j & tick & tempo & Hj & Hev & Hout).
      split; [reflexivity|]. exists j, tick, tempo.
      split; [right; exact Hj|]. auto.
    + cbn [mbind result_bind]. intros H. injection H as <-.
      apply meta_set_tempo_Raise in Hmsg as [-> Hout].
      split; [reflexivity|]. eexists i, _, _.
      split; [left|]. split; [|exact Hout].
      unfold interval_event. cbv zeta. rewrite E. reflexivity.
Qed.

Lemma create_tempo_track_events (tpb : Z) (beats : list Q)
  (track : list message) :
  create_tempo_track tpb beats = Ok track ->
  exists b0,
    beats !! 0%nat = Some b0
    /\ tempo_events track
       = (if Qltb 0 b0 then [(0%Z, interval_to_tempo b0)] else [])
         ++ interval_events tpb beats (if Qltb 0 b0 then tpb else 0%Z)
              (seq 1 (length beats - 1))
    /\ Forall (fun e => (0 <= snd e <= max_tempo)%Z) (tempo_events track).
Proof.
  unfold create_tempo_track. destruct beats as [|b0 r]; [discriminate|].
  intros H. exists b0. split; [reflexivity|].
  destruct (Qltb 0 b0).
  - destruct (meta_set_tempo (interval_to_tempo b0) 0) as [msg|e] eqn:Hmsg;
      [|discriminate].
    apply meta_set_tempo_Ok in Hmsg as [-> Hrange].
    cbn [mbind result_bind] in H.
    destruct (tempo_loop tpb (b0 :: r) tpb _ _) as [track'|e] eqn:Hloop;
      [|discriminate].
    cbn [mbind result_bind] in H. injection H as <-.
    apply tempo_loop_events in Hloop as [Hev Hall].
    unfold tempo_events at 1 2. rewrite tempo_events_from_app.
    fold (tempo_events track'). rewrite Hev.
    cbn [tempo_events_from]. rewrite app_nil_r.
    split; [reflexivity|].
    change (tempo_events ([track_name "Tempo Track" 0]
                          ++ [set_tempo (interval_to_tempo b0) 0]))
      with [(0%Z, interval_to_tempo b0)].
    constructor; [exact Hrange|exact Hall].
  - cbn [mbind result_bind] in H.
    destruct (tempo_loop tpb (b0 :: r) 0 _ _) as [track'|e] eqn:Hloop;
      [|discriminate].
    cbn [mbind result_bind] in H. injection H as <-.
    apply tempo_loop_events in Hloop as [Hev Hall].
    unfold tempo_events at 1 2. rewrite tempo_events_from_app.
    fold (tempo_events track'). rewrite Hev.
    cbn [tempo_events_from]. rewrite app_nil_r.
    split; [reflexivity|exact Hall].
Qed.

Lemma interval_events_ticks (tpb : Z) (beats : list Q) (cur : Z) (n a : nat) :
  (0 <= tpb)%Z ->
  StronglySorted Z.le (map fst (interval_events tpb beats cur (seq a n)))
  /\ Forall (fun t => (cur + (Z.of_nat a - 1) * tpb <= t)%Z)
       (map fst (interval_events tpb beats cur (seq a n))).
Proof.
  intros Htpb. revert a. induction n as [|n IH]; intros a.
  - simpl. split; constructor.
  - destruct (IH (S a)) as [IH1 IH2].
    assert (Hmono : Forall (fun t => (cur + (Z.of_nat a - 1) * tpb <= t)%Z)
              (map fst (interval_events tpb beats cur (seq (S a) n)))).
    { eapply Forall_impl; [exact IH2|]. intros t Ht. simpl in Ht. nia. }
    cbn [seq]. unfold interval_events. cbn [omap list_omap].
    fold (interval_events tpb beats cur (seq (S a) n)).
    destruct (interval_event tpb beats cur a) as [[t v]|] eqn:E.
    + assert (Ht : t = (cur + (Z.of_nat a - 1) * tpb)%Z).
      { unfold interval_event in E. cbv zeta in E.
        destruct (Qle_bool _ 0); [discriminate|]. injection E as <- _.
        reflexivity. }
      subst t. cbn [map fst]. split.
      * constructor; assumption.
      * constructor; [lia|assumption].
    + split; assumption.
Qed.

Lemma Qtrunc_floor (x : Q) : (0 <= x)%Q -> Qtrunc x = Qfloor x.
Proof.
  destruct x as [n d]. unfold Qle, Qtrunc, Qfloor. simpl.
  intros H. apply Z.quot_div_nonneg; lia.
Qed.

Lemma interval_to_tempo_floor (d : Q) :
  (0 < d)%Q -> interval_to_tempo d = Qfloor (d * 1000000).
Proof.
  intros Hd. unfold interval_to_tempo. cbv zeta.
  assert (Heq : (60000000 / (60 / d) == d * 1000000)%Q) by (field; lra).
  rewrite Qtrunc_floor.
  - apply Qfloor_comp. exact Heq.
  - rewrite Heq. nra.
Qed.

Lemma interval_to_tempo_bounds (d : Q) :
  (0 < d)%Q ->
  (d * 1000000 - 2 < inject_Z (interval_to_tempo d))%Q
  /\ (inject_Z (interval_to_tempo d) < d * 1000000 + 1)%Q.
Proof.
  intros Hd. rewrite (interval_to_tempo_floor d Hd).
  pose proof (Qfloor_le (d * 1000000)) as Hle.
  pose proof (Qlt_floor (d * 1000000)) as Hlt.
  rewrite inject_Z_plus in Hlt. change (inject_Z 1) with 1%Q in Hlt.
  split; lra.
Qed.

Lemma interval_events_durations (tpb : Z) (beats : list Q) (cur : Z)
  (idxs : list nat) :
  Forall (fun i => (1 <= i < length beats)%nat) idxs ->
  Forall (fun e => exists d, encoded_duration beats d /\ (0 < d)%Q
                             /\ snd e = interval_to_tempo d)
    (interval_events tpb beats cur idxs).
Proof.
  intros Hidx. apply Forall_forall. intros e He.
  unfold interval_events in He. apply list_elem_of_omap in He as (i & Hi & He).
  rewrite Forall_forall in Hidx. specialize (Hidx i Hi).
  unfold interval_event in He. cbv zeta in He.
  destruct i as [|i]; [lia|].
  replace (S i - 1)%nat with i in He by lia.
  destruct (lookup_lt_is_Some_2 beats (S i)) as [y Hy]; [lia|].
  destruct (lookup_lt_is_Some_2 beats i) as [x Hx]; [lia|].
  rewrite Hx, Hy in He. cbn [default from_option] in He. unfold id in He.
  destruct (Qle_bool (y - x) 0) eqn:E; [discriminate|].
  injection He as <-. apply Qle_bool_gt in E. cbn [snd].
  exists (y - x)%Q. split; [|split; [exact E|reflexivity]].
  right. exists i, x, y. auto.
Qed.

(** C7, as stated, fails in its second part: two beats half a
    microsecond apart are accepted and yield one tempo event whose
    microsecondsPerBeat is 0. *)
Lemma tempo_can_be_zero :
  create_tempo_track 480 [q 0 1; q 1 2000000]
  = Ok [track_name "Tempo Track" 0; set_tempo 0 0; end_of_track 0]
  /\ tempo_events [track_name "Tempo Track" 0; set_tempo 0 0; end_of_track 0]
     = [(0%Z, 0%Z)]
  /\ ~ Forall (fun e => (0 < snd e)%Z)
         (tempo_events
            [track_name "Tempo Track" 0; set_tempo 0 0; end_of_track 0]).
Proof.
  split; [vm_compute; reflexivity|]. split; [reflexivity|].
  intros H. apply Forall_cons in H as [H _]. simpl in H. lia.
Qed.

(** C7, amended: for every beat list accepted by the tempo-track builder
    (with a non-negative tick resolution), the emitted tempo events are
    non-decreasing in absolute tick, and every emitted
    microsecondsPerBeat (the lead-in tempo included) is a non-negative
    integer, at most 16777215: the length in microseconds of the
    positive lead-in time or inter-beat interval that it encodes, cut to
    a whole number. It can be 0. *)
Theorem tempo_track_events (tpb : Z) (beats : list Q) (track : list message) :
  (0 <= tpb)%Z ->
  create_tempo_track tpb beats = Ok track ->
  StronglySorted Z.le (map fst (tempo_events track))
  /\ Forall (tempo_value_ok beats) (tempo_events track).
Proof.
  intros Htpb H.
  apply create_tempo_track_events in H as (b0 & Hb0 & Hev & Hrange).
  rewrite Hev in Hrange |- *.
  destruct (interval_events_ticks tpb beats (if Qltb 0 b0 then tpb else 0%Z)
              (length beats - 1) 1 Htpb) as [Hsorted Hlow].
  assert (Hvals : Forall (fun e => exists d,
                            encoded_duration beats d /\ (0 < d)%Q
                            /\ (d * 1000000 - 2 < inject_Z (snd e))%Q
                            /\ (inject_Z (snd e) < d * 1000000 + 1)%Q)
            (interval_events tpb beats (if Qltb 0 b0 then tpb else 0%Z)
               (seq 1 (length beats - 1)))).
  { eapply Forall_impl.
    - apply interval_events_durations. apply Forall_forall. intros i Hi.
      apply list_elem_of_In, in_seq in Hi. lia.
    - intros e (d & Henc & Hd & ->). exists d.
      pose proof (interval_to_tempo_bounds d Hd) as [Hlo Hhi]. auto. }
  split.
  - destruct (Qltb 0 b0); cbn [app map fst]; [|exact Hsorted].
    constructor; [exact Hsorted|].
    eapply Forall_impl; [exact Hlow|]. intros t Ht. simpl in Ht. lia.
  - unfold tempo_value_ok. apply Forall_and. split; [exact Hrange|].
    destruct (Qltb 0 b0) eqn:E; cbn [app]; [|exact Hvals].
    apply Qltb_lt in E. constructor; [|exact Hvals].
    exists b0. cbn [snd].
    pose proof (interval_to_tempo_bounds b0 E) as [Hlo Hhi].
    split; [left; exact Hb0|]. auto.
Qed.

(** A track with a lead-in and one skipped interval. *)
Lemma tempo_track_events_witness :
  StronglySorted Z.le
    (map fst
       (tempo_events
          [track_name "Tempo Track" 0; set_tempo 500000 0;
           set_tempo 500000 480; set_tempo 2000000 960; end_of_track 0]))
  /\ Forall (tempo_value_ok [q 1 2; q 1 1; q 1 1; q 3 1])
       (tempo_events
          [track_name "Tempo Track" 0; set_tempo 500000 0;
           set_tempo 500000 480; set_tempo 2000000 960; end_of_track 0]).
Proof.
  apply (tempo_track_events 480 [q 1 2; q 1 1; q 1 1; q 3 1]).
  - lia.
  - vm_compute. reflexivity.
Defined.

(** ** [sample_drum_loops]: which steps touch the library *)

Lemma keeps_library_ret {A : Type} (a : A) : keeps_library (mret a : M A).
Proof. intros s. reflexivity. Qed.

Lemma keeps_library_bind {A B : Type} (m : M A) (f : A -> M B) :
  keeps_library m -> (forall a, keeps_library (f a)) ->
  keeps_library (m ≫= f).
Proof.
  intros Hm Hf s. specialize (Hm s).
  unfold mbind, M_bind. destruct (m s) as [[a| e|] s']; simpl in *.
  - rewrite Hf. exact Hm.
  - exact Hm.
  - exact Hm.
Qed.

Lemma keeps_library_get_state : keeps_library get_state.
Proof. intros s. reflexivity. Qed.

Lemma keeps_library_track_append (msg : message) :
  keeps_library (track_append msg).
Proof. intros s. reflexivity. Qed.

Lemma keeps_library_random_choice (rand : nat -> nat) (len : nat) :
  keeps_library (random_choice rand len).
Proof. intros s. unfold random_choice. destruct len; reflexivity. Qed.

Lemma keeps_library_append_events (events : list event) :
  keeps_library (append_events events).
Proof.
  induction events as [|ev r IH]; [apply keeps_library_ret|].
  cbn [append_events]. apply keeps_library_bind.
  - apply keeps_library_track_append.
  - intros _. exact IH.
Qed.

Lemma keeps_library_choose_fragment (rand : nat -> nat)
  (category : drum_library -> list fragment) :
  keeps_library (choose_fragment rand category).
Proof.
  unfold choose_fragment. apply keeps_library_bind.
  - apply keeps_library_get_state.
  - intros s. apply keeps_library_bind.
    + apply keeps_library_random_choice.
    + intros j. apply keeps_library_ret.
Qed.

Lemma keeps_library_mid_loop (fuel : nat) (rand : nat -> nat)
  (total_beats end_loop_length mid_loop_length current_beat_idx : Z)
  (mid_order_index : nat) :
  keeps_library (mid_loop fuel rand total_beats end_loop_length
                   mid_loop_length current_beat_idx mid_order_index).
Proof.
  revert current_beat_idx mid_order_index.
  induction fuel as [|fuel IH]; intros cur idx; cbn [mid_loop];
    destruct (cur <? total_beats - end_loop_length)%Z;
    try apply keeps_library_ret.
  - intros s. reflexivity.
  - apply keeps_library_bind.
    + apply keeps_library_choose_fragment.
    + intros evs. apply keeps_library_bind.
      * apply keeps_library_append_events.
      * intros _. apply IH.
Qed.

Lemma keeps_library_end_region (rand : nat -> nat)
  (total_beats end_loop_length current_beat_idx : Z) :
  keeps_library (end_region rand total_beats end_loop_length current_beat_idx).
Proof.
  unfold end_region. destruct (current_beat_idx <? total_beats)%Z.
  - apply keeps_library_bind; [apply keeps_library_choose_fragment|].
    intros evs. apply keeps_library_bind; [apply keeps_library_append_events|].
    intros _. apply keeps_library_ret.
  - apply keeps_library_ret.
Qed.

(** What the appends do to the track. *)
Lemma append_events_run (events : list event) (s : state) :
  append_events events s
  = (Returns tt,
     mkState (all_drum_events s) (track s ++ map to_message events) (draws s)).
Proof.
  revert s. induction events as [|ev r IH]; intros s.
  - simpl. rewrite app_nil_r. destruct s; reflexivity.
  - cbn [append_events]. unfold mbind, M_bind, track_append.
    rewrite IH. cbn [all_drum_events track draws map].
    rewrite <- app_assoc. reflexivity.
Qed.

(** Once the track holds a message, the start loop only appends. *)
Lemma start_events_nonempty_track (prefix_beat : Z) (j e : nat)
  (events : list event) (s : state) :
  track s <> [] ->
  start_events prefix_beat j e events s
  = (Returns tt,
     mkState (all_drum_events s) (track s ++ map to_message events) (draws s)).
Proof.
  revert e s. induction events as [|ev r IH]; intros e s Hne.
  - simpl. rewrite app_nil_r. destruct s; reflexivity.
  - cbn [start_events]. unfold mbind at 1, M_bind at 1, get_state at 1.
    destruct (track s) as [|m0 tr] eqn:Htr; [congruence|].
    cbn [length Nat.eqb].
    unfold mbind, M_bind, mret, M_ret, track_append.
    rewrite IH.
    + cbn [all_drum_events track draws map]. rewrite Htr.
      rewrite <- app_assoc. reflexivity.
    + cbn [track]. rewrite Htr. discriminate.
Qed.

(** On an empty track the first event is shifted, in the library and in
    the message built from it. *)
Lemma start_events_empty_track (prefix_beat : Z) (j e : nat)
  (ev : event) (r : list event) (s : state) :
  track s = [] ->
  start_events prefix_beat j e (ev :: r) s
  = (Returns tt,
     mkState
       (bump_library j e (480 * (prefix_beat + 1)) (all_drum_events s))
       (to_message (add_time (480 * (prefix_beat + 1)) ev)
        :: map to_message r)
       (draws s)).
Proof.
  intros Htr. cbn [start_events].
  unfold mbind at 1, M_bind at 1, get_state at 1. rewrite Htr.
  cbn [length Nat.eqb].
  unfold mbind, M_bind, mret, M_ret, track_append, bump_start_event.
  rewrite start_events_nonempty_track.
  - cbn [all_drum_events track draws]. rewrite Htr. reflexivity.
  - cbn [track]. rewrite Htr. discriminate.
Qed.

Lemma bind_library {A B : Type} (m : M A) (f : A -> M B) (s : state) :
  (forall a, keeps_library (f a)) ->
  all_drum_events (snd ((m ≫= f) s)) = all_drum_events (snd (m s)).
Proof.
  intros Hf. unfold mbind, M_bind.
  destruct (m s) as [[a| e|] s']; simpl; [apply Hf|reflexivity..].
Qed.

Lemma alter_unchanged {A : Type} (f : A -> A) (i : nat) (l : list A) :
  (forall x, l !! i = Some x -> f x = x) -> alter f i l = l.
Proof.
  intros H. apply list_eq. intros k.
  destruct (decide (k = i)) as [->|Hne].
  - rewrite list_lookup_alter_eq.
    destruct (l !! i) as [x|] eqn:E; [|reflexivity].
    simpl. rewrite (H x); reflexivity.
  - rewrite list_lookup_alter_ne by congruence. reflexivity.
Qed.

(** Shifting the first event of an absent or empty fragment changes
    nothing. *)
Lemma bump_library_noop (j : nat) (d : Z) (lib : drum_library) :
  default [] (start lib !! j) = [] -> bump_library j 0 d lib = lib.
Proof.
  intros H. unfold bump_library. rewrite alter_unchanged.
  - destruct lib; reflexivity.
  - intros frag Hfrag. rewrite Hfrag in H. simpl in H. subst frag.
    reflexivity.
Qed.

(** The start region, run on the initial state. *)
Lemma start_region_run (rand : nat -> nat) (prefix_beat start_loop_length : Z)
  (lib : drum_library) :
  start_region rand prefix_beat start_loop_length 0 (mkState lib [] 0)
  = if (0 <? start_loop_length)%Z then
      match start lib with
      | [] => (Raises IndexError, mkState lib [] 0)
      | _ :: _ =>
          let j := (rand 0%nat mod length (start lib))%nat in
          let d := (480 * (prefix_beat + 1))%Z in
          (Returns start_loop_length,
           mkState (bump_library j 0 d lib)
             (map to_message
                (alter (add_time d) 0%nat (default [] (start lib !! j))))
             1)
      end
    else (Returns 0%Z, mkState lib [] 0).
Proof.
  unfold start_region. destruct (0 <? start_loop_length)%Z; [|reflexivity].
  unfold mbind at 1, M_bind at 1, get_state at 1.
  cbn [all_drum_events].
  destruct (start lib) as [|f0 fr] eqn:Hstart; [reflexivity|].
  unfold mbind at 1, M_bind at 1, random_choice at 1.
  cbn [length draws all_drum_events track]. cbv zeta.
  set (j := (rand 0%nat mod S (length fr))%nat).
  unfold mbind, M_bind, mret, M_ret.
  destruct (default [] ((f0 :: fr) !! j)) as [|ev r] eqn:Hfrag.
  - cbn [start_events mret M_ret alter list_alter map].
    rewrite bump_library_noop; [reflexivity|].
    rewrite Hstart. exact Hfrag.
  - rewrite start_events_empty_track by reflexivity.
    cbn [all_drum_events draws alter list_alter map]. reflexivity.
Qed.

(** C8, as stated, fails: assembling a track from the one-fragment
    library with prefix beat 0 leaves the stored start fragment with its
    first offset raised from 0 to 480. *)
Lemma start_fragment_is_modified :
  start demo_library = [[kick; kick_off]]
  /\ start (snd (sample_drum_loops 4 (fun _ => 0%nat) [[set_tempo 500000 0]]
                   demo_library 0))
     = [[mkEvent 480 36 100 note_on; kick_off]]
  /\ snd (sample_drum_loops 4 (fun _ => 0%nat) [[set_tempo 500000 0]]
            demo_library 0) <> demo_library.
Proof.
  split; [reflexivity|]. split; [vm_compute; reflexivity|].
  vm_compute. discriminate.
Qed.

(** C8, amended: assembling a drum track leaves every mid and end
    fragment of the library unchanged, and every start fragment except
    the drawn one, whose first event has its offset increased in place
    by 480 * (prefix_beat + 1) when the start region runs. *)
Theorem library_after_sampling (beats_per_bar : Z) (rand : nat -> nat)
  (target_midi : list (list message)) (library : drum_library)
  (prefix_beat : Z) :
  let library' :=
    snd (sample_drum_loops beats_per_bar rand target_midi library
           prefix_beat) in
  mid_regular library' = mid_regular library
  /\ mid_transition_small library' = mid_transition_small library
  /\ mid_transition_big library' = mid_transition_big library
  /\ end_ library' = end_ library
  /\ start library'
     = if (0 <? beats_per_bar * 4 + prefix_beat + 1)%Z
       then alter (alter (add_time (480 * (prefix_beat + 1))) 0%nat)
              (rand 0%nat mod length (start library))%nat (start library)
       else start library.
Proof.
  cbv zeta. unfold sample_drum_loops.
  destruct (assemble beats_per_bar rand target_midi prefix_beat
              (mkState library [] 0)) as [out s] eqn:Hrun.
  cbn [snd].
  assert (Hlib : all_drum_events s
                 = all_drum_events
                     (snd (start_region rand prefix_beat
                             (beats_per_bar * 4 + prefix_beat + 1) 0
                             (mkState library [] 0)))).
  { change s with (snd (out, s)). rewrite <- Hrun.
    unfold assemble. cbv zeta. apply bind_library.
    intros cur. apply keeps_library_bind; [apply keeps_library_mid_loop|].
    intros cur'. apply keeps_library_bind; [apply keeps_library_end_region|].
    intros cur''. apply keeps_library_bind; [apply keeps_library_get_state|].
    intros s'. apply keeps_library_ret. }
  rewrite Hlib, start_region_run.
  destruct (0 <? beats_per_bar * 4 + prefix_beat + 1)%Z;
    [|cbn [snd all_drum_events]; auto].
  destruct (start library) as [|f0 fr] eqn:Hstart.
  - cbn [snd all_drum_events]. rewrite Hstart. auto.
  - cbv zeta. cbn [snd all_drum_events bump_library start mid_regular
                   mid_transition_small mid_transition_big end_].
    rewrite Hstart. auto.
Qed.

(** ** [sample_drum_loops]: the middle region and its fuel *)

Lemma mid_loop_done (fuel : nat) (rand : nat -> nat)
  (total_beats end_loop_length mid_loop_length current_beat_idx : Z)
  (mid_order_index : nat) :
  (current_beat_idx <? total_beats - end_loop_length)%Z = false ->
  mid_loop fuel rand total_beats end_loop_length mid_loop_length
    current_beat_idx mid_order_index
  = mret current_beat_idx.
Proof. intros H. destruct fuel; cbn [mid_loop]; rewrite H; reflexivity. Qed.

Lemma never_out_of_fuel_ret {A : Type} (a : A) :
  never_out_of_fuel (mret a : M A).
Proof. intros s. discriminate. Qed.

Lemma never_out_of_fuel_bind {A B : Type} (m : M A) (f : A -> M B) :
  never_out_of_fuel m -> (forall a, never_out_of_fuel (f a)) ->
  never_out_of_fuel (m ≫= f).
Proof.
  intros Hm Hf s. specialize (Hm s). unfold mbind, M_bind.
  destruct (m s) as [[a| e|] s']; simpl in *.
  - apply Hf.
  - discriminate.
  - congruence.
Qed.

Lemma never_out_of_fuel_choose_fragment (rand : nat -> nat)
  (category : drum_library -> list fragment) :
  never_out_of_fuel (choose_fragment rand category).
Proof.
  intros s. unfold choose_fragment, mbind, M_bind, get_state, random_choice.
  destruct (length (category (all_drum_events s))); discriminate.
Qed.

Lemma never_out_of_fuel_append_events (events : list event) :
  never_out_of_fuel (append_events events).
Proof. intros s. rewrite append_events_run. discriminate. Qed.

Lemma never_out_of_fuel_start_events (prefix_beat : Z) (j e : nat)
  (events : list event) :
  never_out_of_fuel (start_events prefix_beat j e events).
Proof.
  intros s. destruct events as [|ev r]; [discriminate|].
  destruct (track s) as [|m0 tr] eqn:Htr.
  - rewrite start_events_empty_track by exact Htr. discriminate.
  - rewrite start_events_nonempty_track by congruence. discriminate.
Qed.

(** With a positive slot width, one unit of fuel per beat still to cover
    is enough. *)
Lemma never_out_of_fuel_mid_loop (fuel : nat) (rand : nat -> nat)
  (total_beats end_loop_length mid_loop_length current_beat_idx : Z)
  (mid_order_index : nat) :
  (1 <= mid_loop_length)%Z ->
  (Z.to_nat (total_beats - end_loop_length - current_beat_idx) <= fuel)%nat ->
  never_out_of_fuel (mid_loop fuel rand total_beats end_loop_length
                       mid_loop_length current_beat_idx mid_order_index).
Proof.
  intros Hmid. revert current_beat_idx mid_order_index.
  induction fuel as [|fuel IH]; intros cur idx Hfuel; cbn [mid_loop];
    destruct (Z.ltb_spec cur (total_beats - end_loop_length)) as [Hlt|Hge];
    try apply never_out_of_fuel_ret.
  - lia.
  - apply never_out_of_fuel_bind; [apply never_out_of_fuel_choose_fragment|].
    intros evs.
    apply never_out_of_fuel_bind; [apply never_out_of_fuel_append_events|].
    intros _. apply IH. lia.
Qed.

(** With a slot width of zero or less the cursor never reaches the end
    region: when every category of the rotation has a fragment, no
    amount of fuel lets the loop finish. *)
Lemma mid_loop_never_finishes (fuel : nat) (rand : nat -> nat)
  (total_beats end_loop_length mid_loop_length current_beat_idx : Z)
  (mid_order_index : nat) (s : state) :
  (mid_loop_length <= 0)%Z ->
  (current_beat_idx < total_beats - end_loop_length)%Z ->
  mid_regular (all_drum_events s) <> [] ->
  mid_transition_small (all_drum_events s) <> [] ->
  mid_transition_big (all_drum_events s) <> [] ->
  fst (mid_loop fuel rand total_beats end_loop_length mid_loop_length
         current_beat_idx mid_order_index s) = OutOfFuel.
Proof.
  intros Hmid. revert current_beat_idx mid_order_index s.
  induction fuel as [|fuel IH]; intros cur idx s Hlt Hr Hs Hb;
    cbn [mid_loop];
    destruct (Z.ltb_spec cur (total_beats - end_loop_length)) as [_|Hge];
    try lia.
  - reflexivity.
  - set (t := default transition_big _).
    assert (Hcat : mid_category t (all_drum_events s) <> [])
      by (destruct t; assumption).
    unfold mbind at 1, M_bind at 1, choose_fragment at 1.
    unfold mbind at 1, M_bind at 1, get_state at 1.
    unfold mbind at 1, M_bind at 1, random_choice at 1.
    destruct (mid_category t (all_drum_events s)) as [|f0 fr] eqn:Hc;
      [congruence|].
    cbn [length]. unfold mret at 1, M_ret at 1.
    unfold mbind at 1, M_bind at 1. rewrite append_events_run.
    apply IH; cbn [all_drum_events]; try assumption. lia.
Qed.

Lemma never_out_of_fuel_start_region (rand : nat -> nat)
  (prefix_beat start_loop_length current_beat_idx : Z) :
  never_out_of_fuel (start_region rand prefix_beat start_loop_length
                       current_beat_idx).
Proof.
  unfold start_region. destruct (current_beat_idx <? start_loop_length)%Z;
    [|apply never_out_of_fuel_ret].
  apply never_out_of_fuel_bind; [intros s; discriminate|]. intros s.
  apply never_out_of_fuel_bind.
  - intros s'. unfold random_choice. destruct (length _); discriminate.
  - intros j. apply never_out_of_fuel_bind;
      [apply never_out_of_fuel_start_events|].
    intros _. apply never_out_of_fuel_ret.
Qed.

Lemma never_out_of_fuel_end_region (rand : nat -> nat)
  (total_beats end_loop_length current_beat_idx : Z) :
  never_out_of_fuel (end_region rand total_beats end_loop_length
                       current_beat_idx).
Proof.
  unfold end_region. destruct (current_beat_idx <? total_beats)%Z;
    [|apply never_out_of_fuel_ret].
  apply never_out_of_fuel_bind; [apply never_out_of_fuel_choose_fragment|].
  intros evs.
  apply never_out_of_fuel_bind; [apply never_out_of_fuel_append_events|].
  intros _. apply never_out_of_fuel_ret.
Qed.

(** With at least one beat per bar the run ends: it returns the tracks
    to save or raises. *)
Lemma sample_drum_loops_ends (beats_per_bar : Z) (rand : nat -> nat)
  (target_midi : list (list message)) (library : drum_library)
  (prefix_beat : Z) :
  (1 <= beats_per_bar)%Z ->
  fst (sample_drum_loops beats_per_bar rand target_midi library prefix_beat)
  <> OutOfFuel.
Proof.
  intros Hbpb. unfold sample_drum_loops.
  assert (H : never_out_of_fuel
                (assemble beats_per_bar rand target_midi prefix_beat)).
  { unfold assemble. cbv zeta.
    apply never_out_of_fuel_bind; [apply never_out_of_fuel_start_region|].
    intros cur. apply never_out_of_fuel_bind.
    - apply never_out_of_fuel_mid_loop; lia.
    - intros cur'.
      apply never_out_of_fuel_bind; [apply never_out_of_fuel_end_region|].
      intros cur''. apply never_out_of_fuel_bind; [intros s; discriminate|].
      intros s. apply never_out_of_fuel_ret. }
  specialize (H (mkState library [] 0)).
  destruct (assemble _ _ _ _ _) as [out s]. exact H.
Qed.

(** C9, as stated, fails: on a target without any tempo message the grid
    is empty, and the run still returns the tracks to save, the new
    track holding the start fragment. *)
Lemma empty_grid_is_not_fatal :
  get_target_beats (silent_target ++ [[]]) = []
  /\ fst (sample_drum_loops 4 (fun _ => 0%nat) silent_target demo_library 0)
     = Returns (silent_target
                ++ [[note_message note_on 0 36 100 480;
                     note_message note_off 0 36 0 240]]).
Proof. split; vm_compute; reflexivity. Qed.

(** C9, amended: if the target beat grid contains fewer than one beat,
    assembly (with at least one beat per bar, a non-negative prefix beat
    and a non-empty start category) does not abort: it emits the drawn
    start fragment with its first offset shifted by
    480 * (prefix_beat + 1), skips the middle and end regions, and hands
    the tracks to be written. *)
Theorem empty_grid_sampling (beats_per_bar : Z) (rand : nat -> nat)
  (target_midi : list (list message)) (library : drum_library)
  (prefix_beat : Z) (drum_event : list event) :
  get_target_beats (target_midi ++ [[]]) = [] ->
  (1 <= beats_per_bar)%Z -> (0 <= prefix_beat)%Z ->
  start library !! (rand 0%nat mod length (start library))%nat
  = Some drum_event ->
  fst (sample_drum_loops beats_per_bar rand target_midi library prefix_beat)
  = Returns
      (target_midi
       ++ [map to_message
             (alter (add_time (480 * (prefix_beat + 1))) 0%nat drum_event)]).
Proof.
  intros Hgrid Hbpb Hprefix Hfrag. unfold sample_drum_loops, assemble.
  cbv zeta. rewrite Hgrid. cbn [length].
  unfold mbind at 1, M_bind at 1. rewrite start_region_run.
  destruct (Z.ltb_spec 0 (beats_per_bar * 4 + prefix_beat + 1)) as [_|Hbad];
    [|lia].
  destruct (start library) as [|f0 fr] eqn:Hstart; [discriminate|].
  cbv zeta. rewrite Hfrag. cbn [default from_option]. unfold id.
  rewrite mid_loop_done by (apply Z.ltb_ge; lia).
  unfold mbind at 1, M_bind at 1, mret at 1, M_ret at 1.
  unfold end_region.
  destruct (Z.ltb_spec (beats_per_bar * 4 + prefix_beat + 1) (Z.of_nat 0))
    as [Hbad|_]; [lia|].
  reflexivity.
Qed.

(** The run on the silent target with the one-fragment library. *)
Lemma empty_grid_sampling_witness :
  fst (sample_drum_loops 4 (fun _ => 0%nat) silent_target demo_library 0)
  = Returns
      (silent_target
       ++ [map to_message
             (alter (add_time (480 * (0 + 1))) 0%nat [kick; kick_off])]).
Proof.
  apply (empty_grid_sampling 4 (fun _ => 0%nat) silent_target demo_library 0
           [kick; kick_off]).
  - reflexivity.
  - lia.
  - lia.
  - reflexivity.
Defined.

(** One round of the middle region. *)
Lemma mid_loop_step (fuel : nat) (rand : nat -> nat)
  (total_beats end_loop_length mid_loop_length current_beat_idx : Z)
  (mid_order_index : nat) (s : state) :
  (current_beat_idx < total_beats - end_loop_length)%Z ->
  let t := default transition_big
             (mid_sampling_order
                !! (mid_order_index mod length mid_sampling_order)%nat) in
  let category := mid_category t (all_drum_events s) in
  mid_loop (S fuel) rand total_beats end_loop_length mid_loop_length
    current_beat_idx mid_order_index s
  = match category with
    | [] => (Raises IndexError, s)
    | _ :: _ =>
        mid_loop fuel rand total_beats end_loop_length mid_loop_length
          (current_beat_idx + mid_loop_length) (S mid_order_index)
          (mkState (all_drum_events s)
             (track s
              ++ map to_message
                   (default []
                      (category !! (rand (draws s) mod length category)%nat)))
             (S (draws s)))
    end.
Proof.
  intros Hlt t category. cbn [mid_loop].
  destruct (Z.ltb_spec current_beat_idx (total_beats - end_loop_length));
    [|lia].
  fold t.
  unfold mbind at 1, M_bind at 1, choose_fragment at 1.
  unfold mbind at 1, M_bind at 1, get_state at 1.
  unfold mbind at 1, M_bind at 1, random_choice at 1.
  subst category.
  destruct (mid_category t (all_drum_events s)) as [|f0 fr] eqn:Hc;
    [reflexivity|].
  cbn [length]. unfold mret at 1, M_ret at 1.
  unfold mbind at 1, M_bind at 1. rewrite append_events_run.
  reflexivity.
Qed.

(** With a slot width of zero or less and an empty category in the
    rotation, the loop raises within its first four rounds, which the
    fuel of [assemble] always covers. *)
Lemma mid_loop_raises_within_rotation (fuel : nat) (rand : nat -> nat)
  (total_beats end_loop_length mid_loop_length current_beat_idx : Z)
  (s : state) :
  (mid_loop_length <= 0)%Z ->
  (current_beat_idx < total_beats - end_loop_length)%Z ->
  mid_regular (all_drum_events s) = []
  \/ mid_transition_small (all_drum_events s) = []
  \/ mid_transition_big (all_drum_events s) = [] ->
  fst (mid_loop (fuel + 4) rand total_beats end_loop_length mid_loop_length
         current_beat_idx 0 s) = Raises IndexError.
Proof.
  intros Hmid Hlt Hempty.
  replace (fuel + 4)%nat with (S (S (S (S fuel)))) by lia.
  rewrite mid_loop_step by exact Hlt. cbv zeta.
  cbn [mid_sampling_order length Nat.modulo Nat.divmod lookup list_lookup
       default from_option id fst snd Nat.sub mid_category].
  destruct (mid_regular (all_drum_events s)) as [|r0 rr] eqn:Hr;
    [reflexivity|].
  rewrite mid_loop_step by lia. cbv zeta.
  cbn [mid_sampling_order length Nat.modulo Nat.divmod lookup list_lookup
       default from_option id fst snd Nat.sub mid_category all_drum_events].
  destruct (mid_transition_small (all_drum_events s)) as [|s0 sr] eqn:Hs;
    [reflexivity|].
  rewrite mid_loop_step by lia. cbv zeta.
  cbn [mid_sampling_order length Nat.modulo Nat.divmod lookup list_lookup
       default from_option id fst snd Nat.sub mid_category all_drum_events].
  rewrite Hr.
  rewrite mid_loop_step by lia. cbv zeta.
  cbn [mid_sampling_order length Nat.modulo Nat.divmod lookup list_lookup
       default from_option id fst snd Nat.sub mid_category all_drum_events].
  destruct Hempty as [H|[H|H]]; try discriminate.
  rewrite H. reflexivity.
Qed.

(** * Further properties of the code *)

(** ** [merge_beats]: the renumbered positions *)

Lemma merge_positions_lookup (beat1 beat2 : list Q) (p1 : list Z)
  (d1 d2 : list Q) (tol : Q) (fb : list Q) (fp : list Z) (md : list Q) :
  merge_beats beat1 beat2 p1 d1 d2 tol = Ok (RTuple fb fp md) ->
  exists B k,
    py_max_int p1 = Ok B
    /\ py_index 1 (downbeat_flags fb d1 d2) = Ok k
    /\ (k < length fb)%nat /\ B <> 0%Z /\ length fp = length fb
    /\ (forall i, (i < length fb)%nat ->
          fp !! i = Some (code_position B (Z.of_nat k) (Z.of_nat i)))
    /\ md = map fst (List.filter (fun bp => Z.eqb (snd bp) 1) (zip fb fp)).
Proof.
  intros H.
  apply merge_beats_tuple_steps in H as (B & k & Hfb & HB & Hk & Hloop & Hmd).
  destruct (count_before_first_downbeat _ _ _ _ Hk) as [Hcount Hlt].
  rewrite Hcount in Hloop.
  assert (HB0 : B <> 0%Z).
  { intros ->. rewrite downbeat_flags_length in Hloop.
    destruct (length fb) as [|n]; [lia|]. simpl in Hloop. discriminate. }
  destruct (renumber_loop_seq B (B - Z.of_nat k + 1)
              (length (downbeat_flags fb d1 d2)) 0
              (downbeat_flags fb d1 d2) HB0) as (fp' & Hrun & Hlen & Hat).
  rewrite Hrun in Hloop. injection Hloop as ->.
  rewrite downbeat_flags_length in Hlen, Hat.
  exists B, k. repeat split; try assumption.
  intros i Hi. rewrite Hat. case_decide; [|lia]. reflexivity.
Qed.

Lemma code_position_range (B k i : Z) :
  (1 <= B)%Z -> (1 <= code_position B k i <= B)%Z.
Proof.
  intros HB. unfold code_position.
  pose proof (Z.mod_pos_bound (B - k + 1 + i) B ltac:(lia)) as Hr.
  destruct (Z.eqb_spec ((B - k + 1 + i) mod B) 0); lia.
Qed.

Lemma code_position_next (B k i : Z) :
  (1 <= B)%Z ->
  code_position B k (i + 1)
  = if Z.eqb (code_position B k i) B then 1%Z
    else (code_position B k i + 1)%Z.
Proof.
  intros HB. unfold code_position.
  replace (B - k + 1 + (i + 1))%Z with ((B - k + 1 + i) + 1)%Z by lia.
  set (x := (B - k + 1 + i)%Z).
  pose proof (Z.mod_pos_bound x B ltac:(lia)) as Hr.
  rewrite <- (Zplus_mod_idemp_l x 1 B).
  set (r := (x mod B)%Z) in *.
  destruct (Z.eqb_spec r 0) as [Hr0|Hr0].
  - rewrite Z.eqb_refl, Hr0.
    destruct (Z.eq_dec B 1%Z) as [->|HB1]; [reflexivity|].
    rewrite Z.mod_small by lia. reflexivity.
  - destruct (Z.eq_dec (r + 1)%Z B) as [Hrb|Hrb].
    + rewrite Hrb, Z.mod_same by lia. simpl.
      destruct (Z.eqb_spec r B); lia.
    + rewrite Z.mod_small by lia.
      destruct (Z.eqb_spec (r + 1)%Z 0%Z); [lia|].
      destruct (Z.eqb_spec r B); lia.
Qed.

Lemma code_position_one (B k i : Z) :
  (1 <= B)%Z ->
  code_position B k i = 1%Z <-> ((i - k) mod B = 0)%Z.
Proof.
  intros HB. unfold code_position.
  replace (B - k + 1 + i)%Z with ((i - k) + 1 + 1 * B)%Z by lia.
  rewrite Z.mod_add by lia.
  rewrite <- (Zplus_mod_idemp_l (i - k) 1 B).
  pose proof (Z.mod_pos_bound (i - k) B ltac:(lia)) as Hr.
  set (r := ((i - k) mod B)%Z) in *.
  destruct (Z.eq_dec B 1%Z) as [->|HB1].
  - rewrite Z.mod_1_r. simpl. split; intros; lia.
  - destruct (Z.eq_dec (r + 1)%Z B) as [Hrb|Hrb].
    + rewrite Hrb, Z.mod_same by lia. simpl. split; intros; lia.
    + rewrite Z.mod_small by lia.
      destruct (Z.eqb_spec (r + 1)%Z 0%Z); split; intros; lia.
Qed.

(** X1: in a merge result with beatsPerBar >= 1, every position lies in
    1..beatsPerBar. *)
Theorem merge_positions_in_range (beat1 beat2 : list Q) (p1 : list Z)
  (d1 d2 : list Q) (tol : Q) (fb : list Q) (fp : list Z) (md : list Q)
  (B : Z) (i : nat) (p : Z) :
  merge_beats beat1 beat2 p1 d1 d2 tol = Ok (RTuple fb fp md) ->
  py_max_int p1 = Ok B -> (1 <= B)%Z ->
  fp !! i = Some p ->
  (1 <= p <= B)%Z.
Proof.
  intros H HB HB1 Hp.
  apply merge_positions_lookup in H
    as (B' & k & HB' & _ & _ & _ & Hlen & Hpos & _).
  rewrite HB in HB'. injection HB' as <-.
  assert (Hi : (i < length fb)%nat).
  { rewrite <- Hlen. apply lookup_lt_Some in Hp. exact Hp. }
  rewrite (Hpos i Hi) in Hp. injection Hp as <-.
  apply code_position_range. exact HB1.
Qed.

(** X2: consecutive positions of a merge result step cyclically: after
    beatsPerBar comes 1, after any other position p comes p + 1. *)
Theorem merge_positions_cycle (beat1 beat2 : list Q) (p1 : list Z)
  (d1 d2 : list Q) (tol : Q) (fb : list Q) (fp : list Z) (md : list Q)
  (B : Z) (i : nat) (p p' : Z) :
  merge_beats beat1 beat2 p1 d1 d2 tol = Ok (RTuple fb fp md) ->
  py_max_int p1 = Ok B -> (1 <= B)%Z ->
  fp !! i = Some p -> fp !! S i = Some p' ->
  p' = if Z.eqb p B then 1%Z else (p + 1)%Z.
Proof.
  intros H HB HB1 Hp Hp'.
  apply merge_positions_lookup in H
    as (B' & k & HB' & _ & _ & _ & Hlen & Hpos & _).
  rewrite HB in HB'. injection HB' as <-.
  assert (Hi' : (S i < length fb)%nat).
  { rewrite <- Hlen. apply lookup_lt_Some in Hp'. exact Hp'. }
  rewrite (Hpos i) in Hp by lia. rewrite (Hpos (S i) Hi') in Hp'.
  injection Hp as <-. injection Hp' as <-.
  rewrite Nat2Z.inj_succ, <- Z.add_1_r.
  apply code_position_next. exact HB1.
Qed.

Lemma merged_downbeats_elem (fb : list Q) (fp : list Z) (b : Q) :
  b ∈ map fst (List.filter (fun bp => Z.eqb (snd bp) 1) (zip fb fp))
  <-> exists i, fb !! i = Some b /\ fp !! i = Some 1%Z.
Proof.
  change (map ?f ?l) with (f <$> l). rewrite list_elem_of_fmap. split.
  - intros ([b' p] & -> & Hin).
    apply list_elem_of_In, filter_In in Hin as [Hin Hp].
    apply list_elem_of_In, list_elem_of_lookup in Hin as [i Hi].
    apply lookup_zip_Some in Hi as [Hb Hpi].
    simpl in Hp. apply Z.eqb_eq in Hp. subst p. eauto.
  - intros (i & Hb & Hp). exists (b, 1%Z). split; [reflexivity|].
    apply list_elem_of_In, filter_In. split; [|reflexivity].
    apply list_elem_of_In, list_elem_of_lookup. exists i.
    apply lookup_zip_Some. auto.
Qed.

(** X3: the merged downbeats are exactly the surviving beats whose index
    differs from the index of the first flagged downbeat by a multiple
    of beatsPerBar. *)
Theorem merge_downbeats_periodic (beat1 beat2 : list Q) (p1 : list Z)
  (d1 d2 : list Q) (tol : Q) (fb : list Q) (fp : list Z) (md : list Q)
  (B : Z) (k : nat) (b : Q) :
  merge_beats beat1 beat2 p1 d1 d2 tol = Ok (RTuple fb fp md) ->
  py_max_int p1 = Ok B -> (1 <= B)%Z ->
  py_index 1 (downbeat_flags fb d1 d2) = Ok k ->
  b ∈ md
  <-> exists i, fb !! i = Some b
                /\ ((Z.of_nat i - Z.of_nat k) mod B = 0)%Z.
Proof.
  intros H HB HB1 Hk.
  apply merge_positions_lookup in H
    as (B' & k' & HB' & Hk' & _ & _ & Hlen & Hpos & ->).
  rewrite HB in HB'. injection HB' as <-.
  rewrite Hk in Hk'. injection Hk' as <-.
  rewrite merged_downbeats_elem. split.
  - intros (i & Hb & Hp). exists i. split; [exact Hb|].
    rewrite (Hpos i) in Hp by (apply lookup_lt_Some in Hb; exact Hb).
    injection Hp as Hp. apply code_position_one in Hp; assumption.
  - intros (i & Hb & Hmod). exists i. split; [exact Hb|].
    rewrite (Hpos i) by (apply lookup_lt_Some in Hb; exact Hb).
    f_equal. apply code_position_one; assumption.
Qed.

(** ** [merge_beats]: where the surviving beats come from *)

Lemma filter_close_elem (tol last : Q) (rest : list (Q * Z)) (x : Q * Z) :
  x ∈ filter_close tol last rest -> x ∈ rest.
Proof.
  revert last. induction rest as [|[beat position] r IH]; intros last H.
  - inversion H.
  - cbn [filter_close] in H. destruct (Qltb tol _).
    + apply elem_of_cons in H as [->|H]; [left|right; eapply IH; exact H].
    + right. eapply IH. exact H.
Qed.

Lemma enumerate1_elem (beat2 : list Q) (bp : Q * Z) :
  bp ∈ enumerate1 beat2 -> fst bp ∈ beat2.
Proof.
  destruct bp as [b p]. unfold enumerate1. intros H.
  apply elem_of_zip_l in H. exact H.
Qed.

(** X4: every beat of a merge result is a primary beat, or a secondary
    beat that lies more than the tolerance before the earliest primary
    beat or more than the tolerance after the latest one. *)
Theorem merged_beat_origin (beat1 beat2 : list Q) (p1 : list Z)
  (d1 d2 : list Q) (tol : Q) (fb : list Q) (fp : list Z) (md : list Q)
  (beat1_start beat1_end b : Q) :
  merge_beats beat1 beat2 p1 d1 d2 tol = Ok (RTuple fb fp md) ->
  py_min beat1 = Ok beat1_start -> py_max beat1 = Ok beat1_end ->
  b ∈ fb ->
  b ∈ beat1
  \/ (b ∈ beat2
      /\ ((b < beat1_start - tol)%Q \/ (beat1_end + tol < b)%Q)).
Proof.
  intros H Hmin Hmax Hb.
  apply merge_beats_tuple_steps in H as (B & k & Hfb & _).
  unfold merge_final_beats in Hfb. rewrite Hmin, Hmax in Hfb.
  cbn [mbind result_bind] in Hfb. cbv zeta in Hfb.
  apply bind_Ok in Hfb as (filtered & Hf & Hfb). injection Hfb as <-.
  change (map ?f ?l) with (f <$> l) in Hb.
  apply list_elem_of_fmap in Hb as ([b' p] & -> & Hin). cbn [fst].
  assert (Hm : (b', p) ∈ beat2_before beat2 beat1_start tol
                         ++ zip beat1 p1
                         ++ beat2_after beat2 beat1_end tol).
  { rewrite <- sort_by_time_perm.
    unfold filtered_beats in Hf.
    destruct (sort_by_time _) as [|m0 rest]; [discriminate|].
    injection Hf as <-.
    apply elem_of_cons in Hin as [->|Hin]; [left|right].
    eapply filter_close_elem. exact Hin. }
  apply elem_of_app in Hm as [Hm|Hm]; [|apply elem_of_app in Hm as [Hm|Hm]].
  - right. apply list_elem_of_In, filter_In in Hm as [Hm Hlt].
    apply list_elem_of_In, enumerate1_elem in Hm. cbn [fst] in *.
    apply Qltb_lt in Hlt. auto.
  - left. apply elem_of_zip_l in Hm. exact Hm.
  - right. apply list_elem_of_In, filter_In in Hm as [Hm Hlt].
    apply list_elem_of_In, enumerate1_elem in Hm. cbn [fst] in *.
    apply Qltb_lt in Hlt. auto.
Qed.

(** ** [time_to_beat_position] on arbitrary beat lists *)

Lemma Qdiv_pos (a b : Q) : (0 < a)%Q -> (0 < b)%Q -> (0 < a / b)%Q.
Proof.
  intros Ha Hb. apply Qlt_shift_div_l; [exact Hb|]. rewrite Qmult_0_l. exact Ha.
Qed.

Lemma inject_nat_ge_1 (i : nat) : (1 <= inject_Z (Z.of_nat (S i)))%Q.
Proof.
  change 1%Q with (inject_Z 1). rewrite <- Zle_Qle. lia.
Qed.

(** What the scan can return when every beat before index [i] is earlier
    than the time. *)
Lemma scan_beats_result (t : Q) (beats : list Q) (rest : list Q) (i : nat) :
  rest = drop i beats ->
  Forall (fun b => (b < t)%Q) (take i beats) ->
  match scan_beats t beats i rest with
  | Some pos =>
      (pos = 0%Q /\ exists b0, beats !! 0%nat = Some b0 /\ (t <= b0)%Q)
      \/ (1 <= pos)%Q
  | None => Forall (fun b => (b < t)%Q) beats
  end.
Proof.
  revert i. induction rest as [|bt r IH]; intros i Hrest Htake.
  - cbn [scan_beats].
    assert (Hlen : (length beats <= i)%nat).
    { destruct (decide (length beats <= i)%nat) as [H|H]; [exact H|].
      exfalso. assert (Hd : length (drop i beats) = 0%nat)
        by (rewrite <- Hrest; reflexivity).
      rewrite length_drop in Hd. lia. }
    rewrite take_ge in Htake by exact Hlen. exact Htake.
  - assert (Hbt : beats !! i = Some bt).
    { rewrite <- (Nat.add_0_r i), <- lookup_drop, <- Hrest. reflexivity. }
    cbn [scan_beats]. destruct (Qle_bool t bt) eqn:E.
    + apply Qle_bool_iff in E. destruct i as [|j]; cbv beta iota.
      * left. eauto.
      * assert (Hj : exists x, beats !! j = Some x /\ (x < t)%Q).
        { destruct (lookup_lt_is_Some_2 beats j) as [x Hx].
          { apply lookup_lt_Some in Hbt. lia. }
          exists x. split; [exact Hx|].
          rewrite Forall_lookup in Htake. apply (Htake j).
          rewrite lookup_take_lt by lia. exact Hx. }
        destruct Hj as (x & Hx & Hxt). rewrite Hx.
        cbn [default from_option]. unfold id. cbv zeta.
        pose proof (inject_nat_ge_1 j) as H1.
        destruct (Qltb 0 (bt - x)) eqn:Eiv; right; [|exact H1].
        apply Qltb_lt in Eiv.
        pose proof (Qdiv_pos (t - x) (bt - x) ltac:(lra) Eiv). lra.
    + apply Qle_bool_gt in E. cbv beta iota. apply (IH (S i)).
      * rewrite (drop_S _ _ _ Hbt) in Hrest. injection Hrest as ->.
        reflexivity.
      * rewrite (take_S_r _ _ _ Hbt). apply Forall_app. split; [exact Htake|].
        repeat constructor. exact E.
Qed.

Lemma time_to_beat_position_late (beats : list Q) (b0 t : Q) :
  beats !! 0%nat = Some b0 -> (b0 < t)%Q ->
  (1 <= time_to_beat_position t beats)%Q.
Proof.
  intros H0 Hlt. unfold time_to_beat_position.
  destruct beats as [|b r] eqn:Hbeats; [discriminate|]. rewrite <- Hbeats in *.
  pose proof (scan_beats_result t beats beats 0 eq_refl ltac:(constructor))
    as Hscan.
  destruct (scan_beats t beats 0 beats) as [pos|].
  - destruct Hscan as [(_ & b0' & H0' & Hle)|H1]; [|exact H1].
    rewrite H0 in H0'. injection H0' as <-. lra.
  - cbv zeta.
    assert (Hn : (1 <= inject_Z (Z.of_nat (length beats)))%Q).
    { rewrite Hbeats. apply inject_nat_ge_1. }
    destruct (2 <=? length beats)%nat eqn:E2; [|exact Hn].
    apply Nat.leb_le in E2.
    destruct (lookup_lt_is_Some_2 beats (length beats - 1)) as [y Hy]; [lia|].
    rewrite Hy. cbn [default from_option]. unfold id.
    destruct (Qltb 0 _) eqn:Eiv; [|exact Hn].
    apply Qltb_lt in Eiv.
    assert (Hyt : (y < t)%Q).
    { rewrite Forall_lookup in Hscan. exact (Hscan _ _ Hy). }
    pose proof (Qdiv_pos (t - y) _ ltac:(lra) Eiv). lra.
Qed.

Lemma time_to_beat_position_nonneg (beats : list Q) (t : Q) :
  (0 <= time_to_beat_position t beats)%Q.
Proof.
  destruct beats as [|b0 r] eqn:Hb; [simpl; lra|]. rewrite <- Hb.
  assert (H0 : beats !! 0%nat = Some b0) by (rewrite Hb; reflexivity).
  destruct (Qlt_le_dec b0 t) as [H|H].
  - pose proof (time_to_beat_position_late beats b0 t H0 H). lra.
  - rewrite (time_to_beat_position_early beats b0 t H0 H). lra.
Qed.

(** X6: on any non-empty beat list, sorted or not, a time at or before
    the first beat is mapped to 0 and any later time to at least 1; the
    result is never negative and never strictly between 0 and 1. *)
Theorem time_to_beat_position_jump (beats : list Q) (b0 t : Q) :
  beats !! 0%nat = Some b0 ->
  ((t <= b0)%Q -> time_to_beat_position t beats = 0%Q)
  /\ ((b0 < t)%Q -> (1 <= time_to_beat_position t beats)%Q).
Proof.
  intros H0. split.
  - apply time_to_beat_position_early. exact H0.
  - apply time_to_beat_position_late. exact H0.
Qed.

(** ** [time_to_beat_position] is monotone on increasing beats *)

(** Where a time falls in an increasing beat list. *)
Lemma locate_time (beats : list Q) (t : Q) :
  beats <> [] -> increasingb beats = true ->
  (exists b0, beats !! 0%nat = Some b0 /\ (t <= b0)%Q)
  \/ (exists i x y, beats !! i = Some x /\ beats !! S i = Some y
                    /\ (x < t)%Q /\ (t <= y)%Q)
  \/ Forall (fun b => (b < t)%Q) beats.
Proof.
  induction beats as [|x [|y r] IH]; intros Hne Hinc; [congruence| |].
  - destruct (Qlt_le_dec x t) as [H|H].
    + right. right. repeat constructor. exact H.
    + left. eauto.
  - cbn [increasingb] in Hinc. apply andb_true_iff in Hinc as [Hxy Hr].
    apply Qltb_lt in Hxy.
    destruct (IH ltac:(discriminate) Hr) as [(b0 & H0 & Hle)|[Hpair|Hall]].
    + injection H0 as <-. destruct (Qlt_le_dec x t) as [H|H].
      * right. left. exists 0%nat, x, y. auto.
      * left. eauto.
    + destruct Hpair as (i & a & b & Ha & Hb & Hat & Htb).
      right. left. exists (S i), a, b. auto.
    + right. right. constructor; [|exact Hall].
      apply Forall_cons in Hall as [Hy _]. lra.
Qed.

Lemma between_bounds (i : nat) (x y t : Q) :
  (x < t)%Q -> (t <= y)%Q ->
  (inject_Z (Z.of_nat (S i))
   < inject_Z (Z.of_nat (S i)) + (t - x) / (y - x)
   <= inject_Z (Z.of_nat (S (S i))))%Q.
Proof.
  intros Hxt Hty.
  pose proof (Qdiv_pos (t - x) (y - x) ltac:(lra) ltac:(lra)) as Hpos.
  assert (Hle : ((t - x) / (y - x) <= 1)%Q).
  { apply Qle_shift_div_r; lra. }
  assert (Hs : (inject_Z (Z.of_nat (S (S i)))
                == inject_Z (Z.of_nat (S i)) + 1)%Q).
  { rewrite (Nat2Z.inj_succ (S i)), <- Z.add_1_r, inject_Z_plus. reflexivity. }
  split; [lra|]. rewrite Hs. lra.
Qed.

Lemma Qdiv_le_mono (a b c : Q) :
  (0 < c)%Q -> (a <= b)%Q -> (a / c <= b / c)%Q.
Proof.
  intros Hc Hab. unfold Qdiv. apply Qmult_le_compat_r; [exact Hab|].
  apply Qlt_le_weak, Qinv_lt_0_compat. exact Hc.
Qed.

Lemma inject_nat_le (i j : nat) :
  (i <= j)%nat -> (inject_Z (Z.of_nat i) <= inject_Z (Z.of_nat j))%Q.
Proof. intros H. rewrite <- Zle_Qle. lia. Qed.

(** X7: on a non-empty, strictly increasing beat list the beat position
    never decreases when the time increases, so markers keep the order
    of their segment times. *)
Theorem time_to_beat_position_monotone (beats : list Q) (t1 t2 : Q) :
  beats <> [] -> increasingb beats = true -> (t1 <= t2)%Q ->
  (time_to_beat_position t1 beats <= time_to_beat_position t2 beats)%Q.
Proof.
  intros Hne Hinc Ht.
  destruct (locate_time beats t1 Hne Hinc)
    as [(b0 & H0 & Hle1)|[(i & x & y & Hx & Hy & Hxt & Hty)|Hall1]].
  - rewrite (time_to_beat_position_early beats b0 t1 H0 Hle1).
    destruct (Qlt_le_dec b0 t2) as [H|H].
    + pose proof (time_to_beat_position_late beats b0 t2 H0 H). lra.
    + rewrite (time_to_beat_position_early beats b0 t2 H0 H). lra.
  - rewrite (time_to_beat_position_between beats i x y t1 Hinc Hx Hy Hxt Hty).
    pose proof (between_bounds i x y t1 Hxt Hty) as [_ Hup1].
    destruct (locate_time beats t2 Hne Hinc)
      as [(b0 & H0 & Hle2)|[(j & a & b & Ha & Hb & Hat & Htb)|Hall2]].
    + exfalso. destruct i as [|i].
      * rewrite H0 in Hx. injection Hx as <-. lra.
      * pose proof (increasingb_lookup beats 0 (S i) b0 x Hinc ltac:(lia)
                      H0 Hx). lra.
    + rewrite (time_to_beat_position_between beats j a b t2 Hinc Ha Hb
                 Hat Htb).
      pose proof (between_bounds j a b t2 Hat Htb) as [Hlow2 _].
      destruct (Nat.lt_trichotomy i j) as [Hij|[->|Hij]].
      * pose proof (inject_nat_le (S (S i)) (S j) ltac:(lia)). lra.
      * rewrite Hx in Ha. injection Ha as <-.
        rewrite Hy in Hb. injection Hb as <-.
        pose proof (Qdiv_le_mono (t1 - x) (t2 - x) (y - x) ltac:(lra)
                      ltac:(lra)). lra.
      * exfalso.
        assert (Hbx : (b <= x)%Q).
        { destruct (decide (S j = i)) as [<-|Hne'].
          - rewrite Hb in Hx. injection Hx as <-. lra.
          - pose proof (increasingb_lookup beats (S j) i b x Hinc ltac:(lia)
                          Hb Hx). lra. }
        lra.
    + rewrite time_to_beat_position_past by assumption. cbv zeta.
      assert (Hn : (S (S i) <= length beats)%nat).
      { apply lookup_lt_Some in Hy. lia. }
      pose proof (inject_nat_le _ _ Hn) as Hnq.
      destruct (lookup_lt_is_Some_2 beats (length beats - 1)) as [l Hl];
        [lia|].
      rewrite Hl. cbn [default from_option]. unfold id.
      destruct ((2 <=? length beats)%nat && Qltb 0 _) eqn:E; [|lra].
      apply andb_true_iff in E as [_ Eiv]. apply Qltb_lt in Eiv.
      assert (Hlt : (l < t2)%Q).
      { rewrite Forall_lookup in Hall2. exact (Hall2 _ _ Hl). }
      pose proof (Qdiv_pos (t2 - l) _ ltac:(lra) Eiv). lra.
  - assert (Hall2 : Forall (fun b => (b < t2)%Q) beats).
    { eapply Forall_impl; [exact Hall1|]. intros b Hb. simpl in Hb. lra. }
    rewrite !time_to_beat_position_past by assumption. cbv zeta.
    destruct ((2 <=? length beats)%nat && Qltb 0 _) eqn:E; [|lra].
    apply andb_true_iff in E as [_ Eiv]. apply Qltb_lt in Eiv.
    set (l := default 0%Q (beats !! (length beats - 1)%nat)) in *.
    assert (H12 : (t1 - l <= t2 - l)%Q) by lra.
    pose proof (Qdiv_le_mono (t1 - l) (t2 - l) _ Eiv H12).
    lra.
Qed.

(** ** [calculate_tempo_from_beats] *)

Lemma tempo_changes_loop_elem (beats : list Q) (idxs : list nat) (e : Q * Q) :
  e ∈ tempo_changes_loop beats idxs
  <-> exists i, i ∈ idxs
        /\ let interval :=
             (default 0 (beats !! S i) - default 0 (beats !! i))%Q in
           (0 < interval)%Q
           /\ e = (inject_Z (Z.of_nat i), (60 / interval)%Q).
Proof.
  induction idxs as [|i r IH].
  - cbn [tempo_changes_loop]. split.
    + intros H. inversion H.
    + intros (i & Hi & _). inversion Hi.
  - cbn [tempo_changes_loop]. cbv zeta.
    destruct (Qltb 0 _) eqn:E.
    + apply Qltb_lt in E. rewrite elem_of_cons, IH. split.
      * intros [->|(j & Hj & H)].
        -- exists i. split; [left|]. cbv zeta. auto.
        -- exists j. split; [right; exact Hj|exact H].
      * intros (j & Hj & H). apply elem_of_cons in Hj as [->|Hj].
        -- left. cbv zeta in H. apply H.
        -- right. eauto.
    + apply Qltb_ge in E. rewrite IH. split.
      * intros (j & Hj & H). exists j. split; [right; exact Hj|exact H].
      * intros (j & Hj & H). apply elem_of_cons in Hj as [->|Hj].
        -- exfalso. cbv zeta in H. destruct H as [H _]. lra.
        -- eauto.
Qed.

(** X8: for two or more beats, [calculate_tempo_from_beats] holds exactly
    one entry (i, 60 / (beats[i+1] - beats[i])) for every index i whose
    interval to the next beat is positive, and nothing else; a list
    without any positive interval gives the empty list, not the default
    tempo. *)
Theorem calculate_tempo_entries (beats : list Q) (e : Q * Q) :
  (2 <= length beats)%nat ->
  e ∈ calculate_tempo_from_beats beats
  <-> exists i x y,
        beats !! i = Some x /\ beats !! S i = Some y /\ (x < y)%Q
        /\ e = (inject_Z (Z.of_nat i), (60 / (y - x))%Q).
Proof.
  intros Hlen. unfold calculate_tempo_from_beats.
  destruct (Nat.ltb_spec (length beats) 2) as [Hbad|_]; [lia|].
  rewrite tempo_changes_loop_elem. split.
  - intros (i & Hi & H). apply list_elem_of_In, in_seq in Hi.
    destruct (lookup_lt_is_Some_2 beats i) as [x Hx]; [lia|].
    destruct (lookup_lt_is_Some_2 beats (S i)) as [y Hy]; [lia|].
    cbv zeta in H. rewrite Hx, Hy in H.
    cbn [default from_option] in H. unfold id in H. destruct H as [Hpos ->].
    exists i, x, y. repeat split; try assumption. lra.
  - intros (i & x & y & Hx & Hy & Hxy & ->). exists i. split.
    + apply list_elem_of_In, in_seq. apply lookup_lt_Some in Hy. lia.
    + cbv zeta. rewrite Hx, Hy. cbn [default from_option]. unfold id.
      split; [lra|reflexivity].
Qed.

(** ** Stable sorting by position *)

Lemma insert_by_key_perm {A : Type} (x : Q * A) (l : list (Q * A)) :
  insert_by_key x l ≡ₚ x :: l.
Proof.
  induction l as [|y r IH]; simpl; [reflexivity|].
  destruct (Qle_bool (fst x) (fst y)); [reflexivity|].
  rewrite IH. apply Permutation_swap.
Qed.

Lemma sort_by_key_perm {A : Type} (l : list (Q * A)) : sort_by_key l ≡ₚ l.
Proof.
  induction l as [|x r IH]; simpl; [reflexivity|].
  rewrite insert_by_key_perm, IH. reflexivity.
Qed.

Lemma insert_by_key_sorted {A : Type} (x : Q * A) (l : list (Q * A)) :
  StronglySorted (fun a b => (fst a <= fst b)%Q) l ->
  StronglySorted (fun a b => (fst a <= fst b)%Q) (insert_by_key x l).
Proof.
  induction l as [|y r IH]; intros Hs; simpl.
  - repeat constructor.
  - apply StronglySorted_inv in Hs as [Hr Hy].
    destruct (Qle_bool (fst x) (fst y)) eqn:E.
    + apply Qle_bool_iff in E. constructor.
      * constructor; assumption.
      * constructor; [exact E|].
        eapply Forall_impl; [exact Hy|].
        intros z Hz. simpl in Hz. lra.
    + apply Qle_bool_gt in E. constructor; [apply IH; exact Hr|].
      rewrite insert_by_key_perm. constructor; [|exact Hy]. lra.
Qed.

Lemma sort_by_key_sorted {A : Type} (l : list (Q * A)) :
  StronglySorted (fun a b => (fst a <= fst b)%Q) (sort_by_key l).
Proof.
  induction l as [|x r IH]; simpl; [constructor|].
  apply insert_by_key_sorted. exact IH.
Qed.

(** Items with equal keys keep their order: the sort is stable. *)
Lemma insert_by_key_stable {A : Type} (x : Q * A) (l : list (Q * A)) (k : Q) :
  List.filter (fun a => Qeq_bool (fst a) k) (insert_by_key x l)
  = List.filter (fun a => Qeq_bool (fst a) k) (x :: l).
Proof.
  induction l as [|y r IH]; [reflexivity|].
  cbn [insert_by_key]. destruct (Qle_bool (fst x) (fst y)) eqn:E;
    [reflexivity|].
  apply Qle_bool_gt in E.
  cbn [List.filter] in *. rewrite IH.
  destruct (Qeq_bool (fst x) k) eqn:Ex; [|reflexivity].
  destruct (Qeq_bool (fst y) k) eqn:Ey; [|reflexivity].
  apply Qeq_bool_iff in Ex, Ey. exfalso.
  rewrite Ex, Ey in E. apply (Qlt_irrefl k). exact E.
Qed.

Lemma sort_by_key_stable {A : Type} (l : list (Q * A)) (k : Q) :
  List.filter (fun a => Qeq_bool (fst a) k) (sort_by_key l)
  = List.filter (fun a => Qeq_bool (fst a) k) l.
Proof.
  induction l as [|x r IH]; [reflexivity|].
  cbn [sort_by_key]. rewrite insert_by_key_stable.
  cbn [List.filter]. rewrite IH. reflexivity.
Qed.

(** X9: for a non-empty beat list, [create_segment_markers] returns one
    marker per segment (the segment's label, or "unknown", at the beat
    position of its start, or of 0.0), in ascending order of position,
    markers at the same position keeping the order of their segments. *)
Theorem create_segment_markers_sorted (beats : list Q)
  (segments : list segment) (k : Q) :
  beats <> [] ->
  create_segment_markers beats segments
    ≡ₚ map (segment_marker beats) segments
  /\ StronglySorted position_le (create_segment_markers beats segments)
  /\ List.filter (fun m => Qeq_bool (fst m) k)
       (create_segment_markers beats segments)
     = List.filter (fun m => Qeq_bool (fst m) k)
         (map (segment_marker beats) segments).
Proof.
  intros Hne. unfold create_segment_markers.
  destruct beats as [|b r]; [congruence|].
  destruct segments as [|sg sr].
  - repeat split; constructor.
  - split; [apply sort_by_key_perm|]. split.
    + apply sort_by_key_sorted.
    + apply sort_by_key_stable.
Qed.

(** ** [create_marker_track] *)

Lemma marker_events_from_app (tick : Z) (l1 l2 : list message) :
  marker_events_from tick (l1 ++ l2)
  = marker_events_from tick l1
    ++ marker_events_from (tick + sum_times l1) l2.
Proof.
  revert tick. induction l1 as [|m r IH]; intros tick.
  - simpl. f_equal. unfold sum_times. simpl. lia.
  - cbn [app marker_events_from]. cbv zeta.
    replace (tick + sum_times (m :: r))%Z
      with (tick + msg_time m + sum_times r)%Z
      by (unfold sum_times; simpl; lia).
    destruct m; rewrite IH; reflexivity.
Qed.

Lemma marker_loop_times (tpb cur : Z) (markers : list (Q * string))
  (track : list message) :
  Forall (fun m => (0 <= msg_time m)%Z) track ->
  Forall (fun m => (0 <= msg_time m)%Z) (marker_loop tpb cur markers track).
Proof.
  revert cur track. induction markers as [|[pos label] r IH];
    intros cur track H; [exact H|].
  cbn [marker_loop]. cbv zeta. apply IH. apply Forall_app. split; [exact H|].
  repeat constructor. cbn [msg_time]. lia.
Qed.

(** The markers that the loop adds: labels in order, none before its
    target tick, each on its target tick when the targets ascend from
    the running tick. *)
Lemma marker_loop_events (tpb : Z) (markers : list (Q * string)) :
  forall (cur : Z) (track : list message),
  exists added,
    marker_events (marker_loop tpb cur markers track)
    = marker_events track ++ added
    /\ map snd added = map snd markers
    /\ ((cur <= sum_times track)%Z ->
        Forall2 (fun e m => (beats_to_ticks tpb (fst m) <= fst e)%Z)
          added markers)
    /\ (cur = sum_times track ->
        StronglySorted Z.le
          (cur :: map (fun m => beats_to_ticks tpb (fst m)) markers) ->
        added = map (fun m => (beats_to_ticks tpb (fst m), snd m)) markers).
Proof.
  induction markers as [|[pos label] r IH]; intros cur track.
  - exists []. cbn [marker_loop map]. rewrite app_nil_r.
    repeat split; auto.
  - cbn [marker_loop]. cbv zeta.
    set (target := beats_to_ticks tpb pos).
    set (delta := Z.max 0 (target - cur)).
    destruct (IH target (track ++ [marker label delta]))
      as (added & Hev & Hlabels & Hlate & Hexact).
    exists (((sum_times track + delta)%Z, label) :: added).
    assert (Hsum : sum_times (track ++ [marker label delta])
                   = (sum_times track + delta)%Z).
    { rewrite sum_times_app. unfold sum_times. simpl. lia. }
    split; [|split; [|split]].
    + rewrite Hev. unfold marker_events. rewrite marker_events_from_app.
      cbn [marker_events_from msg_time]. cbv zeta.
      rewrite <- app_assoc. reflexivity.
    + cbn [map snd]. rewrite Hlabels. reflexivity.
    + intros Hcur. constructor.
      * cbn [fst]. fold target. lia.
      * apply Hlate. rewrite Hsum. lia.
    + intros Hcur Hs. cbn [map fst snd] in *. fold target in Hs |- *.
      apply StronglySorted_inv in Hs as [Hs Hhead].
      apply Forall_cons in Hhead as [Hct _].
      assert (Hd : (sum_times track + delta)%Z = target) by lia.
      rewrite Hd. f_equal. apply Hexact; [lia|exact Hs].
Qed.

(** X10: in a marker track every delta time is non-negative, the markers
    carry the labels in the given order, and no marker sits before the
    tick [int(position * ticks_per_beat)] of its own position. *)
Theorem marker_track_never_early (tpb : Z) (markers : list (Q * string)) :
  Forall (fun m => (0 <= msg_time m)%Z) (create_marker_track tpb markers)
  /\ map snd (marker_events (create_marker_track tpb markers))
     = map snd markers
  /\ Forall2 (fun e m => (beats_to_ticks tpb (fst m) <= fst e)%Z)
       (marker_events (create_marker_track tpb markers)) markers.
Proof.
  unfold create_marker_track.
  destruct (marker_loop_events tpb markers 0 [track_name "Markers" 0])
    as (added & Hev & Hlabels & Hlate & _).
  split; [|split].
  - apply Forall_app. split.
    + apply marker_loop_times. repeat constructor. simpl. lia.
    + repeat constructor. simpl. lia.
  - unfold marker_events in *. rewrite marker_events_from_app, Hev.
    cbn [marker_events_from app]. rewrite app_nil_r. exact Hlabels.
  - unfold marker_events in *. rewrite marker_events_from_app, Hev.
    cbn [marker_events_from app]. rewrite app_nil_r.
    apply Hlate. reflexivity.
Qed.

Lemma beats_to_ticks_mono (tpb : Z) (a b : Q) :
  (0 <= tpb)%Z -> (0 <= a)%Q -> (a <= b)%Q ->
  (0 <= beats_to_ticks tpb a <= beats_to_ticks tpb b)%Z.
Proof.
  intros Htpb Ha Hab. unfold beats_to_ticks.
  assert (Ht : (0 <= inject_Z tpb)%Q).
  { change 0%Q with (inject_Z 0). rewrite <- Zle_Qle. exact Htpb. }
  assert (H0 : (0 <= a * inject_Z tpb)%Q) by (apply Qmult_le_0_compat; lra).
  assert (H1 : (a * inject_Z tpb <= b * inject_Z tpb)%Q)
    by (apply Qmult_le_compat_r; assumption).
  rewrite !Qtrunc_floor by lra.
  split.
  - apply Qfloor_resp_le in H0. change 0%Q with (inject_Z 0) in H0 at 1.
    rewrite Qfloor_Z in H0. exact H0.
  - apply Qfloor_resp_le. exact H1.
Qed.

Lemma sorted_targets (tpb : Z) (markers : list (Q * string)) :
  (0 <= tpb)%Z ->
  Forall (fun m => (0 <= fst m)%Q) markers ->
  StronglySorted position_le markers ->
  StronglySorted Z.le
    (0%Z :: map (fun m => beats_to_ticks tpb (fst m)) markers).
Proof.
  intros Htpb Hpos Hs. constructor.
  - induction Hs as [|m r Hs IH Hm]; [constructor|].
    apply Forall_cons in Hpos as [Hm0 Hr]. cbn [map]. constructor; [auto|].
    apply Forall_fmap. rewrite Forall_forall in Hm, Hr |- *.
    intros y Hy. simpl.
    pose proof (beats_to_ticks_mono tpb (fst m) (fst y) Htpb Hm0 (Hm y Hy)).
    lia.
  - apply Forall_fmap. eapply Forall_impl; [exact Hpos|].
    intros m Hm. simpl.
    pose proof (beats_to_ticks_mono tpb (fst m) (fst m) Htpb Hm
                  ltac:(lra)).
    lia.
Qed.

(** X11: with a non-negative tick resolution, the marker track built from
    the markers of [create_segment_markers] puts every marker exactly on
    the tick [int(position * ticks_per_beat)] of its position. *)
Theorem segment_markers_on_their_ticks (tpb : Z) (beats : list Q)
  (segments : list segment) :
  (0 <= tpb)%Z ->
  marker_events
    (create_marker_track tpb (create_segment_markers beats segments))
  = map (fun m => (beats_to_ticks tpb (fst m), snd m))
        (create_segment_markers beats segments).
Proof.
  intros Htpb. set (markers := create_segment_markers beats segments).
  assert (Hsorted : StronglySorted position_le markers).
  { unfold markers, create_segment_markers.
    destruct beats; [constructor|]. destruct segments; [constructor|].
    apply sort_by_key_sorted. }
  assert (Hpos : Forall (fun m => (0 <= fst m)%Q) markers).
  { unfold markers, create_segment_markers.
    destruct beats as [|b r] eqn:Hb; [constructor|].
    destruct segments as [|sg sr] eqn:Hsg; [constructor|].
    rewrite <- Hb, <- Hsg. rewrite sort_by_key_perm.
    apply Forall_fmap, Forall_forall. intros seg _. simpl.
    apply time_to_beat_position_nonneg. }
  unfold create_marker_track.
  destruct (marker_loop_events tpb markers 0 [track_name "Markers" 0])
    as (added & Hev & _ & _ & Hexact).
  unfold marker_events in *. rewrite marker_events_from_app, Hev.
  cbn [marker_events_from app]. rewrite app_nil_r.
  apply Hexact; [reflexivity|].
  apply sorted_targets; assumption.
Qed.

(** ** [create_tempo_track]: where each tempo lands *)

Lemma interval_events_elem (tpb : Z) (beats : list Q) (cur : Z)
  (n : nat) (e : Z * Z) :
  (n < length beats)%nat \/ n = 0%nat ->
  e ∈ interval_events tpb beats cur (seq 1 n)
  <-> exists i x y,
        (i < n)%nat /\ beats !! i = Some x /\ beats !! S i = Some y
        /\ (x < y)%Q
        /\ e = ((cur + Z.of_nat i * tpb)%Z, interval_to_tempo (y - x)).
Proof.
  intros Hn. unfold interval_events. rewrite list_elem_of_omap. split.
  - intros (j & Hj & He). apply list_elem_of_In, in_seq in Hj.
    destruct j as [|i]; [lia|].
    unfold interval_event in He. cbv zeta in He.
    replace (S i - 1)%nat with i in He by lia.
    destruct (lookup_lt_is_Some_2 beats (S i)) as [y Hy]; [lia|].
    destruct (lookup_lt_is_Some_2 beats i) as [x Hx]; [lia|].
    rewrite Hx, Hy in He. cbn [default from_option] in He. unfold id in He.
    destruct (Qle_bool (y - x) 0) eqn:E; [discriminate|].
    apply Qle_bool_gt in E. injection He as <-.
    exists i, x, y. repeat split; try assumption; try lia; try lra.
    f_equal. f_equal. lia.
  - intros (i & x & y & Hi & Hx & Hy & Hxy & ->). exists (S i). split.
    + apply list_elem_of_In, in_seq. lia.
    + unfold interval_event. cbv zeta.
      replace (S i - 1)%nat with i by lia.
      rewrite Hx, Hy. cbn [default from_option]. unfold id.
      assert (E : Qle_bool (y - x) 0 = false) by (apply Qle_bool_gt; lra).
      rewrite E. f_equal. f_equal. lia.
Qed.

(** X12: the tempo track holds exactly the lead-in tempo at tick 0, when
    the first beat is positive, and for every pair of consecutive beats
    beats[i] < beats[i+1] one tempo at tick
    start + i * ticks_per_beat, where start is ticks_per_beat after a
    lead-in and 0 otherwise: a skipped pair leaves a gap and does not
    shift the later tempos. *)
Theorem tempo_track_alignment (tpb : Z) (beats : list Q)
  (track : list message) (b0 : Q) (e : Z * Z) :
  create_tempo_track tpb beats = Ok track ->
  beats !! 0%nat = Some b0 ->
  e ∈ tempo_events track
  <-> ((0 < b0)%Q /\ e = (0%Z, interval_to_tempo b0))
      \/ exists i x y,
           beats !! i = Some x /\ beats !! S i = Some y /\ (x < y)%Q
           /\ e = (((if Qltb 0 b0 then tpb else 0) + Z.of_nat i * tpb)%Z,
                   interval_to_tempo (y - x)).
Proof.
  intros H H0.
  apply create_tempo_track_events in H as (b0' & H0' & -> & _).
  rewrite H0 in H0'. injection H0' as <-.
  assert (Hn : (length beats - 1 < length beats)%nat \/ (length beats - 1 = 0)%nat).
  { apply lookup_lt_Some in H0. lia. }
  rewrite elem_of_app, (interval_events_elem _ _ _ _ _ Hn).
  split.
  - intros [Hlead|(i & x & y & _ & Hrest)].
    + left. destruct (Qltb 0 b0) eqn:E; [|inversion Hlead].
      apply Qltb_lt in E. apply list_elem_of_singleton in Hlead. auto.
    + right. exists i, x, y. exact Hrest.
  - intros [[Hb0 ->]|(i & x & y & Hx & Hy & Hxy & ->)].
    + left. apply Qltb_lt in Hb0. rewrite Hb0. left.
    + right. exists i, x, y. repeat split; try assumption.
      apply lookup_lt_Some in Hy. lia.
Qed.

(** ** [get_target_beats] *)

Lemma get_target_beats_grid (midi : list (list message)) :
  get_target_beats midi = grid_from 480 (concat midi).
Proof.
  unfold get_target_beats.
  assert (H : forall msgs cur acc,
             snd (foldl (fun '(current_time, beats) msg =>
                          match msg with
                          | set_tempo _ time =>
                              ((current_time + time)%Z,
                               beats ++ [(current_time + time)%Z])
                          | _ => (current_time, beats)
                          end) (cur, acc) msgs)
             = acc ++ grid_from cur msgs).
  { induction msgs as [|m r IH]; intros cur acc.
    - simpl. rewrite app_nil_r. reflexivity.
    - cbn [foldl grid_from].
      destruct m; rewrite IH; try reflexivity.
      rewrite <- app_assoc. reflexivity. }
  rewrite H. reflexivity.
Qed.

Lemma grid_from_app (cur : Z) (l1 l2 : list message) :
  grid_from cur (l1 ++ l2)
  = grid_from cur l1
    ++ grid_from (cur + sum_times (List.filter is_tempo l1)) l2.
Proof.
  revert cur. induction l1 as [|m r IH]; intros cur.
  - simpl. f_equal. unfold sum_times. simpl. lia.
  - destruct m; cbn [app grid_from List.filter is_tempo]; rewrite IH;
      try reflexivity.
    cbn [app]. f_equal. f_equal. f_equal. unfold sum_times. simpl. lia.
Qed.

Lemma grid_from_no_tempo (cur : Z) (l : list message) :
  Forall (fun m => is_tempo m = false) l -> grid_from cur l = [].
Proof.
  induction 1 as [|m r Hm _ IH]; [reflexivity|].
  destruct m; try exact IH. discriminate.
Qed.

(** When only tempo messages carry a delta time, the grid is the list of
    the tempo ticks, moved by the running time. *)
Lemma grid_from_tempo_events (cur tick : Z) (l : list message) :
  Forall (fun m => is_tempo m = true \/ msg_time m = 0%Z) l ->
  grid_from cur l
  = map (fun e => (cur - tick + fst e)%Z) (tempo_events_from tick l).
Proof.
  intros H. revert cur tick. induction H as [|m r Hm _ IH]; intros cur tick;
    [reflexivity|].
  destruct m; cbn [grid_from tempo_events_from msg_time map fst];
    cbv zeta;
    try (destruct Hm as [Hm|Hm]; [discriminate|];
         cbn [msg_time] in Hm; subst; rewrite (IH cur (tick + 0)%Z);
         apply map_ext; intros; lia).
  rewrite (IH (cur + time)%Z (tick + time)%Z). f_equal; [lia|].
  apply map_ext. intros. lia.
Qed.

Lemma marker_loop_no_tempo (tpb cur : Z) (markers : list (Q * string))
  (track : list message) :
  Forall (fun m => is_tempo m = false) track ->
  Forall (fun m => is_tempo m = false) (marker_loop tpb cur markers track).
Proof.
  revert cur track. induction markers as [|[pos label] r IH];
    intros cur track H; [exact H|].
  cbn [marker_loop]. cbv zeta. apply IH. apply Forall_app. split; [exact H|].
  repeat constructor.
Qed.

Lemma tempo_loop_times (tpb : Z) (beats : list Q) (cur : Z) (idxs : list nat)
  (track track' : list message) :
  tempo_loop tpb beats cur idxs track = Ok track' ->
  Forall (fun m => is_tempo m = true \/ msg_time m = 0%Z) track ->
  Forall (fun m => is_tempo m = true \/ msg_time m = 0%Z) track'.
Proof.
  revert track. induction idxs as [|i r IH]; intros track Hrun H.
  - injection Hrun as <-. exact H.
  - cbn [tempo_loop] in Hrun. cbv zeta in Hrun.
    destruct (Qle_bool _ 0); [eapply IH; eassumption|].
    destruct (meta_set_tempo _ _) as [msg|e] eqn:Hmsg; [|discriminate].
    apply meta_set_tempo_Ok in Hmsg as [-> _].
    cbn [mbind result_bind] in Hrun.
    eapply IH; [exact Hrun|]. apply Forall_app. split; [exact H|].
    constructor; [left; reflexivity|constructor].
Qed.

Lemma create_tempo_track_times (tpb : Z) (beats : list Q)
  (track : list message) :
  create_tempo_track tpb beats = Ok track ->
  Forall (fun m => is_tempo m = true \/ msg_time m = 0%Z) track.
Proof.
  unfold create_tempo_track. destruct beats as [|b0 r]; [discriminate|].
  intros H.
  destruct (Qltb 0 b0).
  - destruct (meta_set_tempo (interval_to_tempo b0) 0) as [msg|e] eqn:Hmsg;
      [|discriminate].
    apply meta_set_tempo_Ok in Hmsg as [-> _].
    cbn [mbind result_bind] in H.
    destruct (tempo_loop tpb (b0 :: r) tpb _ _) as [track'|e] eqn:Hloop;
      [|discriminate].
    cbn [mbind result_bind] in H. injection H as <-.
    apply Forall_app. split;
      [|constructor; [right; reflexivity|constructor]].
    eapply tempo_loop_times; [exact Hloop|].
    constructor; [right; reflexivity|].
    constructor; [left; reflexivity|constructor].
  - cbn [mbind result_bind] in H.
    destruct (tempo_loop tpb (b0 :: r) 0 _ _) as [track'|e] eqn:Hloop;
      [|discriminate].
    cbn [mbind result_bind] in H. injection H as <-.
    apply Forall_app. split;
      [|constructor; [right; reflexivity|constructor]].
    eapply tempo_loop_times; [exact Hloop|].
    constructor; [right; reflexivity|constructor].
Qed.

Lemma grid_from_filter (cur : Z) (l : list message) :
  grid_from cur l = grid_from cur (List.filter is_tempo l).
Proof.
  revert cur. induction l as [|m r IH]; intros cur; [reflexivity|].
  destruct m; cbn [grid_from List.filter is_tempo]; rewrite IH; reflexivity.
Qed.

Lemma filter_is_tempo_all (l : list message) :
  Forall (fun m => is_tempo m = true \/ msg_time m = 0%Z)
    (List.filter is_tempo l).
Proof.
  apply Forall_forall. intros m Hm.
  apply list_elem_of_In, filter_In in Hm as [_ Hm]. left. exact Hm.
Qed.

(** X13: [get_target_beats] returns one grid point per tempo message, at
    480 plus the sum of the delta times of the tempo messages up to it;
    the delta times of all other messages are not counted. *)
Theorem target_grid_counts_tempo_deltas (midi : list (list message)) :
  get_target_beats midi
  = map (fun e => (480 + fst e)%Z)
        (tempo_events (List.filter is_tempo (concat midi))).
Proof.
  rewrite get_target_beats_grid, grid_from_filter.
  unfold tempo_events.
  rewrite (grid_from_tempo_events 480 0) by apply filter_is_tempo_all.
  apply map_ext. intros e. lia.
Qed.

(** X14: for the file that [generate_midi] builds (time signature, tempo
    track, optional marker track), with the drum track appended, the
    target grid is the list of the tempo ticks of the tempo track moved
    by 480; the markers do not disturb it. *)
Theorem target_grid_of_generated_file (tpb : Z) (beats : list Q)
  (segments : list segment) (tracks : list (list message))
  (tempo_track : list message) :
  build_tracks tpb beats segments = Ok tracks ->
  create_tempo_track tpb beats = Ok tempo_track ->
  get_target_beats (tracks ++ [[]])
  = map (fun e => (480 + fst e)%Z) (tempo_events tempo_track).
Proof.
  intros Hb Ht. unfold build_tracks in Hb. rewrite Ht in Hb.
  cbn [mbind result_bind] in Hb. cbv zeta in Hb. injection Hb as <-.
  rewrite get_target_beats_grid.
  assert (Hrest : forall rest,
            Forall (fun m => is_tempo m = false) rest ->
            grid_from 480 ([time_signature 4 4 0] ++ tempo_track ++ rest)
            = map (fun e => (480 + fst e)%Z) (tempo_events tempo_track)).
  { intros rest Hr. cbn [app grid_from]. rewrite grid_from_app.
    rewrite (grid_from_no_tempo _ rest Hr), app_nil_r.
    unfold tempo_events.
    rewrite (grid_from_tempo_events 480 0)
      by (eapply create_tempo_track_times; exact Ht).
    apply map_ext. intros e. lia. }
  destruct (create_segment_markers beats segments) as [|m0 mr].
  - cbn [app concat]. rewrite !app_nil_r.
    rewrite <- (app_nil_r tempo_track) at 1.
    apply (Hrest []). constructor.
  - cbn [app concat]. rewrite !app_nil_r.
    apply (Hrest (create_marker_track tpb (m0 :: mr))).
    unfold create_marker_track. apply Forall_app. split.
    + apply marker_loop_no_tempo. repeat constructor.
    + repeat constructor.
Qed.

(** ** [extract_drum_events] *)

Lemma on_channel_0_fixed (l : list message) :
  Forall (fun m => is_note m = true) l ->
  map on_channel_0 l = l <-> Forall (fun m => msg_channel m = Some 0%Z) l.
Proof.
  induction 1 as [|m r Hm _ IH]; [split; [constructor|reflexivity]|].
  destruct m; try discriminate. cbn [map on_channel_0]. split.
  - intros H. injection H as <- Hr. constructor; [reflexivity|].
    apply IH. exact Hr.
  - intros H. apply Forall_cons in H as [Hc Hr].
    cbn [msg_channel] in Hc. injection Hc as ->. f_equal. apply IH. exact Hr.
Qed.

(** X15: extracting the drum events of a file and turning them back into
    messages gives the note messages of all its tracks, in order, each
    with its type, note, velocity and delta time but on channel 0: the
    channel of the file is lost. The result is the file's own note
    messages exactly when they are all on channel 0. A fragment written
    out as one track is read back unchanged. *)
Theorem extract_drum_events_round_trip (midi : list (list message))
  (events : list event) :
  map to_message (extract_drum_events midi)
  = map on_channel_0 (List.filter is_note (concat midi))
  /\ (map to_message (extract_drum_events midi)
      = List.filter is_note (concat midi)
      <-> Forall (fun m => msg_channel m = Some 0%Z)
            (List.filter is_note (concat midi)))
  /\ extract_drum_events [map to_message events] = events.
Proof.
  assert (H1 : map to_message (extract_drum_events midi)
               = map on_channel_0 (List.filter is_note (concat midi))).
  { unfold extract_drum_events. induction (concat midi) as [|m r IH];
      [reflexivity|].
    destruct m; cbn [omap list_omap List.filter is_note]; try exact IH.
    cbn [map to_message on_channel_0 ev_type ev_note ev_velocity ev_time].
    f_equal. exact IH. }
  split; [exact H1|]. split.
  - rewrite H1. apply on_channel_0_fixed.
    apply Forall_forall. intros m Hm.
    apply list_elem_of_In, filter_In in Hm as [_ Hm]. exact Hm.
  - unfold extract_drum_events. cbn [concat]. rewrite app_nil_r.
    induction events as [|[t n v ty] r IH]; [reflexivity|].
    cbn [map to_message omap list_omap ev_type ev_note ev_velocity ev_time].
    f_equal. exact IH.
Qed.

(** A kick on the drum channel is handed back on channel 0. *)
Lemma extract_drum_events_drops_channel :
  map to_message
    (extract_drum_events
       [[track_name "Drums" 0; note_message note_on 9 36 100 0;
         note_message note_off 9 36 0 240]])
  = [note_message note_on 0 36 100 0; note_message note_off 0 36 0 240].
Proof. reflexivity. Qed.

(** ** [sample_drum_loops] with a stocked library *)

Lemma returns_stocked_ret {A : Type} (a : A) : returns_stocked (mret a : M A).
Proof. intros s Hs. exists a, s. auto. Qed.

Lemma returns_stocked_bind {A B : Type} (m : M A) (f : A -> M B) :
  returns_stocked m -> (forall a, returns_stocked (f a)) ->
  returns_stocked (m ≫= f).
Proof.
  intros Hm Hf s Hs. destruct (Hm s Hs) as (a & s1 & Hrun & Hs1).
  destruct (Hf a s1 Hs1) as (b & s2 & Hrun2 & Hs2).
  exists b, s2. split; [|exact Hs2].
  unfold mbind, M_bind. rewrite Hrun. exact Hrun2.
Qed.

Lemma returns_stocked_append_events (events : list event) :
  returns_stocked (append_events events).
Proof.
  intros s Hs. rewrite append_events_run. eexists _, _. split; [reflexivity|].
  exact Hs.
Qed.

Lemma returns_stocked_choose_fragment (rand : nat -> nat)
  (category : drum_library -> list fragment) :
  (forall lib, stocked lib -> category lib <> []) ->
  returns_stocked (choose_fragment rand category).
Proof.
  intros Hcat s Hs. specialize (Hcat _ Hs).
  unfold choose_fragment, mbind, M_bind, get_state, random_choice, mret, M_ret.
  destruct (category (all_drum_events s)) as [|f0 fr]; [congruence|].
  cbn [length]. eexists _, _. split; [reflexivity|]. exact Hs.
Qed.

Lemma stocked_bump_library (j e : nat) (d : Z) (lib : drum_library) :
  stocked lib -> stocked (bump_library j e d lib).
Proof.
  unfold stocked, bump_library. cbn [start mid_regular mid_transition_small
                                     mid_transition_big end_].
  intros (H1 & H2). split; [|exact H2].
  intros Hnil. apply H1. apply (f_equal length) in Hnil.
  rewrite length_alter in Hnil. destruct (start lib); [reflexivity|].
  discriminate.
Qed.

Lemma returns_stocked_start_events (prefix_beat : Z) (j e : nat)
  (events : list event) :
  returns_stocked (start_events prefix_beat j e events).
Proof.
  intros s Hs. destruct events as [|ev r].
  - exists tt, s. auto.
  - destruct (track s) as [|m0 tr] eqn:Htr.
    + rewrite start_events_empty_track by exact Htr.
      eexists _, _. split; [reflexivity|]. cbn [all_drum_events].
      apply stocked_bump_library. exact Hs.
    + rewrite start_events_nonempty_track by congruence.
      eexists _, _. split; [reflexivity|]. exact Hs.
Qed.

Lemma returns_stocked_start_region (rand : nat -> nat)
  (prefix_beat start_loop_length current_beat_idx : Z) :
  returns_stocked (start_region rand prefix_beat start_loop_length
                     current_beat_idx).
Proof.
  unfold start_region. destruct (current_beat_idx <? start_loop_length)%Z;
    [|apply returns_stocked_ret].
  intros s Hs.
  unfold mbind at 1, M_bind at 1, get_state at 1.
  unfold mbind at 1, M_bind at 1, random_choice at 1.
  destruct (start (all_drum_events s)) as [|f0 fr] eqn:Hstart;
    [destruct Hs as [Hs _]; congruence|].
  cbn [length].
  set (s1 := mkState (all_drum_events s) (track s) (S (draws s))).
  assert (Hs1 : stocked (all_drum_events s1)) by exact Hs.
  destruct (returns_stocked_start_events prefix_beat
              (rand (draws s) mod S (length fr))%nat 0
              (default [] ((f0 :: fr) !! (rand (draws s) mod S (length fr))%nat))
              s1 Hs1) as ([] & s2 & Hrun & Hs2).
  unfold mbind, M_bind. rewrite Hrun.
  eexists _, _. split; [reflexivity|]. exact Hs2.
Qed.

Lemma returns_stocked_mid_loop (fuel : nat) (rand : nat -> nat)
  (total_beats end_loop_length mid_loop_length current_beat_idx : Z)
  (mid_order_index : nat) :
  (1 <= mid_loop_length)%Z ->
  (Z.to_nat (total_beats - end_loop_length - current_beat_idx) <= fuel)%nat ->
  returns_stocked (mid_loop fuel rand total_beats end_loop_length
                     mid_loop_length current_beat_idx mid_order_index).
Proof.
  intros Hmid. revert current_beat_idx mid_order_index.
  induction fuel as [|fuel IH]; intros cur idx Hfuel; cbn [mid_loop];
    destruct (Z.ltb_spec cur (total_beats - end_loop_length)) as [Hlt|Hge];
    try apply returns_stocked_ret.
  - lia.
  - apply returns_stocked_bind.
    + apply returns_stocked_choose_fragment. intros lib (H1 & H2 & H3 & H4 & H5).
      destruct (default transition_big _); assumption.
    + intros evs. apply returns_stocked_bind;
        [apply returns_stocked_append_events|].
      intros _. apply IH. lia.
Qed.

Lemma returns_stocked_end_region (rand : nat -> nat)
  (total_beats end_loop_length current_beat_idx : Z) :
  returns_stocked (end_region rand total_beats end_loop_length
                     current_beat_idx).
Proof.
  unfold end_region. destruct (current_beat_idx <? total_beats)%Z;
    [|apply returns_stocked_ret].
  apply returns_stocked_bind.
  - apply returns_stocked_choose_fragment. intros lib Hs. apply Hs.
  - intros evs. apply returns_stocked_bind;
      [apply returns_stocked_append_events|].
    intros _. apply returns_stocked_ret.
Qed.

(** X16: when every category of the library holds a fragment and there
    is at least one beat per bar, the sequencing never raises and always
    ends: it returns the target's tracks, unchanged and in order,
    followed by one new drum track. The fragments are those read from
    loop files, whose events always make a message. *)
Theorem stocked_library_returns (beats_per_bar : Z) (rand : nat -> nat)
  (target_midi : list (list message)) (library : drum_library)
  (prefix_beat : Z) :
  stocked library -> (1 <= beats_per_bar)%Z ->
  exists drum_track,
    fst (sample_drum_loops beats_per_bar rand target_midi library prefix_beat)
    = Returns (target_midi ++ [drum_track]).
Proof.
  intros Hs Hbpb. unfold sample_drum_loops, assemble. cbv zeta.
  set (s0 := mkState library [] 0).
  destruct (returns_stocked_start_region rand prefix_beat
              (beats_per_bar * 4 + prefix_beat + 1) 0 s0 Hs)
    as (cur1 & s1 & Hrun1 & Hs1).
  unfold mbind at 1, M_bind at 1. rewrite Hrun1.
  destruct (returns_stocked_mid_loop
              (Z.to_nat
                 (Z.of_nat (length (get_target_beats (target_midi ++ [[]])))
                  - beats_per_bar * 5 - cur1) + 4)
              rand
              (Z.of_nat (length (get_target_beats (target_midi ++ [[]]))))
              (beats_per_bar * 5) (beats_per_bar * 2) cur1 0
              ltac:(lia) ltac:(lia) s1 Hs1)
    as (cur2 & s2 & Hrun2 & Hs2).
  unfold mbind at 1, M_bind at 1. rewrite Hrun2.
  destruct (returns_stocked_end_region rand
              (Z.of_nat (length (get_target_beats (target_midi ++ [[]]))))
              (beats_per_bar * 5) cur2 s2 Hs2)
    as (cur3 & s3 & Hrun3 & Hs3).
  unfold mbind at 1, M_bind at 1. rewrite Hrun3.
  exists (track s3). reflexivity.
Qed.

(** ** [sample_drum_loops] with one fragment per category *)

Lemma bind_eq_on {A B : Type} (m1 m2 : M A) (f1 f2 : A -> M B) (s : state) :
  m1 s = m2 s ->
  (forall a s', m1 s = (Returns a, s') -> f1 a s' = f2 a s') ->
  (m1 ≫= f1) s = (m2 ≫= f2) s.
Proof.
  intros Hm Hf. unfold mbind, M_bind. rewrite <- Hm.
  destruct (m1 s) as [[a| e|] s'] eqn:E; [|reflexivity..].
  apply Hf. reflexivity.
Qed.

Lemma random_choice_single (rand1 rand2 : nat -> nat) (s : state) :
  random_choice rand1 1 s = random_choice rand2 1 s.
Proof. unfold random_choice. rewrite !Nat.mod_1_r. reflexivity. Qed.

Lemma choose_fragment_single (rand1 rand2 : nat -> nat)
  (category : drum_library -> list fragment) (s : state) :
  length (category (all_drum_events s)) = 1%nat ->
  choose_fragment rand1 category s = choose_fragment rand2 category s.
Proof.
  intros Hlen. unfold choose_fragment.
  unfold mbind at 1 3, M_bind at 1 3, get_state. rewrite Hlen.
  apply bind_eq_on; [apply random_choice_single|]. reflexivity.
Qed.

Lemma run_keeps_library {A : Type} (m : M A) (s s' : state) (o : outcome A) :
  keeps_library m -> m s = (o, s') -> all_drum_events s' = all_drum_events s.
Proof. intros Hm Hrun. specialize (Hm s). rewrite Hrun in Hm. exact Hm. Qed.

Lemma mid_loop_single (fuel : nat) (rand1 rand2 : nat -> nat)
  (total_beats end_loop_length mid_loop_length current_beat_idx : Z)
  (mid_order_index : nat) (s : state) :
  one_per_category (all_drum_events s) ->
  mid_loop fuel rand1 total_beats end_loop_length mid_loop_length
    current_beat_idx mid_order_index s
  = mid_loop fuel rand2 total_beats end_loop_length mid_loop_length
      current_beat_idx mid_order_index s.
Proof.
  revert current_beat_idx mid_order_index s.
  induction fuel as [|fuel IH]; intros cur idx s Hone; cbn [mid_loop];
    destruct (cur <? total_beats - end_loop_length)%Z; try reflexivity.
  apply bind_eq_on.
  - apply choose_fragment_single.
    destruct Hone as (H1 & H2 & H3 & H4 & H5).
    destruct (default transition_big _); assumption.
  - intros evs s1 Hrun1. apply bind_eq_on; [reflexivity|].
    intros [] s2 Hrun2. apply IH.
    rewrite (run_keeps_library _ _ _ _ (keeps_library_append_events evs) Hrun2).
    rewrite (run_keeps_library _ _ _ _
               (keeps_library_choose_fragment rand1 _) Hrun1).
    exact Hone.
Qed.

Lemma one_per_category_bump (j e : nat) (d : Z) (lib : drum_library) :
  one_per_category lib -> one_per_category (bump_library j e d lib).
Proof.
  unfold one_per_category, bump_library.
  cbn [start mid_regular mid_transition_small mid_transition_big end_].
  rewrite length_alter. auto.
Qed.

(** X17: when every category of the library holds exactly one fragment,
    the outcome of [sample_drum_loops] and the library it leaves do not
    depend on the random source. *)
Theorem single_fragment_library_is_deterministic (beats_per_bar : Z)
  (rand1 rand2 : nat -> nat) (target_midi : list (list message))
  (library : drum_library) (prefix_beat : Z) :
  one_per_category library ->
  sample_drum_loops beats_per_bar rand1 target_midi library prefix_beat
  = sample_drum_loops beats_per_bar rand2 target_midi library prefix_beat.
Proof.
  intros Hone. unfold sample_drum_loops.
  assert (Heq : assemble beats_per_bar rand1 target_midi prefix_beat
                  (mkState library [] 0)
                = assemble beats_per_bar rand2 target_midi prefix_beat
                    (mkState library [] 0)).
  { unfold assemble. cbv zeta. apply bind_eq_on.
    - rewrite !start_region_run.
      destruct (0 <? _)%Z; [|reflexivity].
      destruct Hone as (H1 & _).
      destruct (start library) as [|f0 [|f1 fr]]; try discriminate.
      cbn [length]. rewrite !Nat.mod_1_r. reflexivity.
    - intros cur1 s1 Hrun1.
      assert (Hone1 : one_per_category (all_drum_events s1)).
      { rewrite start_region_run in Hrun1.
        destruct (0 <? _)%Z.
        - destruct (start library); [discriminate|].
          cbv zeta in Hrun1. injection Hrun1 as _ <-.
          apply one_per_category_bump. exact Hone.
        - injection Hrun1 as _ <-. exact Hone. }
      apply bind_eq_on; [apply mid_loop_single; exact Hone1|].
      intros cur2 s2 Hrun2.
      assert (Hone2 : one_per_category (all_drum_events s2)).
      { rewrite (run_keeps_library _ _ _ _
                   (keeps_library_mid_loop _ _ _ _ _ _ _) Hrun2).
        exact Hone1. }
      apply bind_eq_on; [|reflexivity].
      unfold end_region. destruct (cur2 <? _)%Z; [|reflexivity].
      apply bind_eq_on; [|reflexivity].
      apply choose_fragment_single. apply Hone2. }
  rewrite Heq. reflexivity.
Qed.

(** X18: when the start region runs and the start category is empty, the
    draw raises IndexError at once: no message has been appended and the
    library is as it was loaded. *)
Theorem empty_start_category_raises (beats_per_bar : Z) (rand : nat -> nat)
  (target_midi : list (list message)) (library : drum_library)
  (prefix_beat : Z) :
  start library = [] -> (0 < beats_per_bar * 4 + prefix_beat + 1)%Z ->
  assemble beats_per_bar rand target_midi prefix_beat (mkState library [] 0)
  = (Raises IndexError, mkState library [] 0)
  /\ sample_drum_loops beats_per_bar rand target_midi library prefix_beat
     = (Raises IndexError, library).
Proof.
  intros Hstart Hlen.
  assert (H : assemble beats_per_bar rand target_midi prefix_beat
                (mkState library [] 0)
              = (Raises IndexError, mkState library [] 0)).
  { unfold assemble. cbv zeta. unfold mbind at 1, M_bind at 1.
    rewrite start_region_run, Hstart.
    destruct (Z.ltb_spec 0 (beats_per_bar * 4 + prefix_beat + 1)); [|lia].
    reflexivity. }
  split; [exact H|]. unfold sample_drum_loops. rewrite H. reflexivity.
Qed.

(** ** [convert_midi_to_fixed_tempo]: the notes *)

(** With non-negative delta times and tempos, the time stamps of the
    note events never decrease. *)
Lemma note_events_times (t2s : Z -> Z -> Z -> Q) (tpb : Z)
  (msgs : list message) :
  (forall tick tempo, (0 <= tick)%Z -> (0 <= tempo)%Z ->
                      (0 <= t2s tick tpb tempo)%Q) ->
  Forall (fun m => (0 <= msg_time m)%Z) msgs ->
  Forall (fun m => match m with
                   | set_tempo tempo _ => (0 <= tempo)%Z
                   | _ => True
                   end) msgs ->
  forall (tempo : Z) (acc : Q),
    (0 <= tempo)%Z ->
    StronglySorted Qle (map fst (note_events t2s tpb tempo acc msgs))
    /\ Forall (fun t => (acc <= t)%Q)
         (map fst (note_events t2s tpb tempo acc msgs)).
Proof.
  intros Ht2s Htimes Htempos.
  induction msgs as [|m r IH]; intros tempo acc Htempo.
  - simpl. split; constructor.
  - apply Forall_cons in Htimes as [Hm Hr].
    apply Forall_cons in Htempos as [Htm Htr].
    specialize (IH Hr Htr).
    pose proof (Ht2s (msg_time m) tempo Hm Htempo) as Hdelta.
    assert (Hstep : forall tempo',
              (0 <= tempo')%Z ->
              StronglySorted Qle
                (map fst (note_events t2s tpb tempo'
                            (acc + t2s (msg_time m) tpb tempo) r))
              /\ Forall (fun t => (acc <= t)%Q)
                   (map fst (note_events t2s tpb tempo'
                               (acc + t2s (msg_time m) tpb tempo) r))
              /\ Forall (fun t => (acc + t2s (msg_time m) tpb tempo <= t)%Q)
                   (map fst (note_events t2s tpb tempo'
                               (acc + t2s (msg_time m) tpb tempo) r))).
    { intros tempo' Htempo'.
      destruct (IH tempo' (acc + t2s (msg_time m) tpb tempo)%Q Htempo')
        as [IH1 IH2].
      repeat split; try assumption.
      eapply Forall_impl; [exact IH2|]. intros t Ht. simpl in Ht. lra. }
    cbn [note_events]. cbv zeta.
    destruct m as [| |tempo' time| | |ty ch n v time];
      try (destruct (Hstep tempo Htempo) as (H1 & H2 & _); split; assumption).
    + destruct (Hstep tempo' Htm) as (H1 & H2 & _). split; assumption.
    + destruct (Hstep tempo Htempo) as (H1 & H2 & H3).
      cbn [map fst]. split.
      * constructor; assumption.
      * constructor; [lra|exact H2].
Qed.

(** On time-ordered events, with every sounding note started no later
    than the events to come, a note never ends before it starts and the
    notes come out in the order of their ends. *)
Lemma pair_notes_ordered (events : list (Q * message)) :
  StronglySorted Qle (map fst events) ->
  forall (active : gmap Z (Q * Z)) (low : Q),
    (forall p st v, active !! p = Some (st, v) -> (st <= low)%Q) ->
    Forall (fun t => (low <= t)%Q) (map fst events) ->
    Forall (fun n => (note_start n <= note_end n)%Q)
      (pair_notes active events)
    /\ StronglySorted Qle (map note_end (pair_notes active events))
    /\ Forall (fun n => (low <= note_end n)%Q) (pair_notes active events).
Proof.
  induction events as [|[t msg] r IH]; intros Hs active low Hact Hlow.
  - simpl. repeat split; constructor.
  - cbn [map fst] in Hs, Hlow.
    apply StronglySorted_inv in Hs as [Hs Hhead].
    apply Forall_cons in Hlow as [Ht Hrest].
    assert (Hkeep : forall act,
              (forall p st v, act !! p = Some (st, v) -> (st <= t)%Q) ->
              Forall (fun n => (note_start n <= note_end n)%Q)
                (pair_notes act r)
              /\ StronglySorted Qle (map note_end (pair_notes act r))
              /\ Forall (fun n => (low <= note_end n)%Q) (pair_notes act r)).
    { intros act Hact'.
      destruct (IH Hs act t Hact' Hhead) as (H1 & H2 & H3).
      repeat split; try assumption.
      eapply Forall_impl; [exact H3|]. intros n Hn. simpl in Hn. lra. }
    assert (Hsame : forall p st v,
              active !! p = Some (st, v) -> (st <= t)%Q).
    { intros p st v Hp. specialize (Hact p st v Hp). lra. }
    cbn [pair_notes].
    destruct msg as [| | | | |ty ch n v time]; try (apply Hkeep; exact Hsame).
    destruct (match ty with note_on => (0 <? v)%Z | note_off => false end).
    + apply Hkeep. intros p st v' Hp.
      destruct (decide (p = n)) as [->|Hne].
      * rewrite lookup_insert_eq in Hp. injection Hp as <- _. lra.
      * rewrite lookup_insert_ne in Hp by congruence. eapply Hsame. exact Hp.
    + destruct (match ty with note_off => true | note_on => (v =? 0)%Z end);
        [|apply Hkeep; exact Hsame].
      destruct (active !! n) as [[st v']|] eqn:Hn; [|apply Hkeep; exact Hsame].
      destruct (IH Hs (delete n active) t) as (H1 & H2 & H3).
      * intros p st' v'' Hp. apply lookup_delete_Some in Hp as [_ Hp].
        eapply Hsame. exact Hp.
      * exact Hhead.
      * cbn [map note_end]. repeat split.
        -- constructor; [|exact H1].
           cbn [note_start note_end]. eapply Hsame. exact Hn.
        -- constructor; [exact H2|]. apply Forall_fmap. exact H3.
        -- constructor; [cbn [note_end]; exact Ht|].
           eapply Forall_impl; [exact H3|]. intros m Hm. simpl in Hm. lra.
Qed.

(** X19: when all delta times and tempos of the merged track are
    non-negative and the conversion from ticks to seconds is non-negative
    on them, no converted note ends before it starts, and the notes are
    listed in the order in which they end. *)
Theorem converted_notes_ordered (t2s : Z -> Z -> Z -> Q) (tpb : Z)
  (merged_track : list message) :
  (forall tick tempo, (0 <= tick)%Z -> (0 <= tempo)%Z ->
                      (0 <= t2s tick tpb tempo)%Q) ->
  Forall (fun m => (0 <= msg_time m)%Z) merged_track ->
  Forall (fun m => match m with
                   | set_tempo tempo _ => (0 <= tempo)%Z
                   | _ => True
                   end) merged_track ->
  Forall (fun n => (note_start n <= note_end n)%Q)
    (convert_notes t2s tpb merged_track)
  /\ StronglySorted Qle (map note_end (convert_notes t2s tpb merged_track)).
Proof.
  intros Ht2s Htimes Htempos. unfold convert_notes.
  destruct (note_events_times t2s tpb merged_track Ht2s Htimes Htempos
              500000 0 ltac:(lia)) as [Hs Hlow].
  destruct (pair_notes_ordered _ Hs ∅ 0) as (H1 & H2 & _).
  - intros p st v Hp. rewrite lookup_empty in Hp. discriminate.
  - exact Hlow.
  - split; assumption.
Qed.

Lemma pair_notes_origin (all : list (Q * message))
  (events : list (Q * message)) :
  forall (active : gmap Z (Q * Z)),
    (forall p st v, active !! p = Some (st, v) ->
       (0 < v)%Z /\ exists ch tm, (st, note_message note_on ch p v tm) ∈ all) ->
    (forall x, x ∈ events -> x ∈ all) ->
    Forall (fun n =>
              (0 < velocity n)%Z
              /\ (exists ch tm,
                    (note_start n,
                     note_message note_on ch (pitch n) (velocity n) tm) ∈ all)
              /\ exists msg, (note_end n, msg) ∈ all /\ closes (pitch n) msg)
      (pair_notes active events).
Proof.
  induction events as [|[t msg] r IH]; intros active Hact Hin; [constructor|].
  assert (Hr : forall x, x ∈ r -> x ∈ all) by (intros x Hx; apply Hin; right; exact Hx).
  assert (Hhere : (t, msg) ∈ all) by (apply Hin; left).
  cbn [pair_notes].
  destruct msg as [| | | | |ty ch n v time]; try (apply IH; assumption).
  destruct ty.
  - destruct (Z.ltb_spec 0 v) as [Hv|Hv].
    + apply IH; [|exact Hr]. intros p st v' Hp.
      destruct (decide (p = n)) as [->|Hne].
      * rewrite lookup_insert_eq in Hp. injection Hp as <- <-. eauto.
      * rewrite lookup_insert_ne in Hp by congruence. eapply Hact. exact Hp.
    + destruct (Z.eqb_spec v 0) as [Hv0|Hv0]; [|apply IH; assumption].
      destruct (active !! n) as [[st v']|] eqn:Hn; [|apply IH; assumption].
      constructor.
      * cbn [velocity note_start note_end pitch].
        destruct (Hact n st v' Hn) as [Hpos Hon].
        split; [exact Hpos|]. split; [exact Hon|].
        exists (note_message note_on ch n v time). split; [exact Hhere|].
        simpl. auto.
      * apply IH; [|exact Hr]. intros p st' v'' Hp.
        apply lookup_delete_Some in Hp as [_ Hp]. eapply Hact. exact Hp.
  - destruct (active !! n) as [[st v']|] eqn:Hn; [|apply IH; assumption].
    constructor.
    + cbn [velocity note_start note_end pitch].
      destruct (Hact n st v' Hn) as [Hpos Hon].
      split; [exact Hpos|]. split; [exact Hon|].
      exists (note_message note_off ch n v time). split; [exact Hhere|].
      reflexivity.
    + apply IH; [|exact Hr]. intros p st' v'' Hp.
      apply lookup_delete_Some in Hp as [_ Hp]. eapply Hact. exact Hp.
Qed.

(** X20: every converted note has the pitch, the positive velocity and
    the start time of a note-on message of the track, on whatever
    channel, and ends at the time of a message of the same pitch that is
    a note-off or a note-on with velocity 0; a closing message for a
    pitch that is not sounding yields no note. *)
Theorem converted_notes_origin (t2s : Z -> Z -> Z -> Q) (tpb : Z)
  (merged_track : list message) :
  let events := note_events t2s tpb 500000 0 merged_track in
  Forall (fun n =>
            (0 < velocity n)%Z
            /\ (exists ch tm,
                  (note_start n,
                   note_message note_on ch (pitch n) (velocity n) tm) ∈ events)
            /\ exists msg, (note_end n, msg) ∈ events /\ closes (pitch n) msg)
    (convert_notes t2s tpb merged_track).
Proof.
  cbv zeta. unfold convert_notes. apply pair_notes_origin.
  - intros p st v Hp. rewrite lookup_empty in Hp. discriminate.
  - auto.
Qed.

(** ** [bpm_to_tempo] and the tempo of an interval *)

Lemma bpm_to_tempo_of_interval (interval : Q) :
  (0 < interval)%Q ->
  bpm_to_tempo (60 / interval) = Ok (interval_to_tempo interval).
Proof.
  intros H. unfold bpm_to_tempo, interval_to_tempo.
  destruct (Qeq_bool (60 / interval) 0) eqn:E; [|reflexivity].
  apply Qeq_bool_iff in E. exfalso.
  pose proof (Qdiv_pos 60 interval ltac:(lra) H). lra.
Qed.

(** X21: the two tempo computations agree: for two or more beats, every
    (index, bpm) entry of [calculate_tempo_from_beats] is converted by
    [bpm_to_tempo] without error into the tempo that
    [create_tempo_track] emits for the same pair of beats. *)
Theorem tempo_changes_match_tempo_track (tpb : Z) (beats : list Q)
  (track : list message) (idx bpm : Q) :
  (2 <= length beats)%nat ->
  create_tempo_track tpb beats = Ok track ->
  (idx, bpm) ∈ calculate_tempo_from_beats beats ->
  exists tick tempo,
    bpm_to_tempo bpm = Ok tempo /\ (tick, tempo) ∈ tempo_events track.
Proof.
  intros Hlen Htrack Hin. unfold calculate_tempo_from_beats in Hin.
  destruct (Nat.ltb_spec (length beats) 2) as [Hbad|_]; [lia|].
  apply tempo_changes_loop_elem in Hin as (i & Hi & Hin).
  apply list_elem_of_In, in_seq in Hi.
  destruct (lookup_lt_is_Some_2 beats i) as [x Hx]; [lia|].
  destruct (lookup_lt_is_Some_2 beats (S i)) as [y Hy]; [lia|].
  cbv zeta in Hin. rewrite Hx, Hy in Hin.
  cbn [default from_option] in Hin. unfold id in Hin.
  destruct Hin as [Hpos Heq]. injection Heq as _ ->.
  apply create_tempo_track_events in Htrack as (b0 & Hb0 & -> & _).
  eexists _, (interval_to_tempo (y - x)).
  split; [apply bpm_to_tempo_of_interval; exact Hpos|].
  apply elem_of_app. right.
  apply (interval_events_elem tpb beats _ (length beats - 1)); [lia|].
  exists i, x, y. repeat split; try assumption; try lia. lra.
Qed.

(** ** [generate_midi] *)

Lemma interval_to_tempo_nonneg (d : Q) :
  (0 < d)%Q -> (0 <= interval_to_tempo d)%Z.
Proof.
  intros Hd. unfold interval_to_tempo. cbv zeta.
  pose proof (Qdiv_pos 60 d ltac:(lra) Hd) as Hbpm.
  pose proof (Qdiv_pos 60000000 (60 / d) ltac:(lra) Hbpm) as Hpos.
  rewrite Qtrunc_floor by lra.
  assert (H0 : (Qfloor 0 <= Qfloor (60000000 / (60 / d)))%Z)
    by (apply Qfloor_resp_le; lra).
  change 0%Q with (inject_Z 0) in H0 at 1. rewrite Qfloor_Z in H0. exact H0.
Qed.

(** [create_tempo_track] raises on an empty list, and otherwise only when
    the tempo of the lead-in or of a positive interval is more than the
    MIDI library stores. *)
Lemma create_tempo_track_raises (tpb : Z) (beats : list Q) (e : exn) :
  create_tempo_track tpb beats = Raise e ->
  (beats = [] /\ e = IndexError)
  \/ (beats <> [] /\ e = ValueError
      /\ exists d, encoded_duration beats d /\ (0 < d)%Q
                   /\ (max_tempo < interval_to_tempo d)%Z).
Proof.
  unfold create_tempo_track. destruct beats as [|b0 r].
  - intros H. injection H as <-. left. auto.
  - intros H. right. split; [discriminate|].
    assert (Hloop : forall cur track,
              tempo_loop tpb (b0 :: r) cur (seq 1 (length (b0 :: r) - 1)) track
              = Raise e ->
              e = ValueError
              /\ exists d, encoded_duration (b0 :: r) d /\ (0 < d)%Q
                           /\ (max_tempo < interval_to_tempo d)%Z).
    { intros cur track Hrun.
      apply tempo_loop_raises in Hrun as (-> & i & tick & tempo & Hi & Hev & Hout).
      split; [reflexivity|].
      apply list_elem_of_In, in_seq in Hi.
      unfold interval_event in Hev. cbv zeta in Hev.
      destruct i as [|i]; [lia|].
      replace (S i - 1)%nat with i in Hev by lia.
      destruct (lookup_lt_is_Some_2 (b0 :: r) (S i)) as [y Hy]; [lia|].
      destruct (lookup_lt_is_Some_2 (b0 :: r) i) as [x Hx]; [lia|].
      rewrite Hx, Hy in Hev. cbn [default from_option] in Hev.
      unfold id in Hev.
      destruct (Qle_bool (y - x) 0) eqn:E; [discriminate|].
      injection Hev as _ <-. apply Qle_bool_gt in E.
      pose proof (interval_to_tempo_nonneg (y - x) E) as Hnn.
      exists (y - x)%Q. split; [right; exists i, x, y; auto|].
      split; [exact E|lia]. }
    destruct (Qltb 0 b0) eqn:Hb0.
    + destruct (meta_set_tempo (interval_to_tempo b0) 0) as [msg|e'] eqn:Hmsg.
      * cbn [mbind result_bind] in H.
        destruct (tempo_loop tpb (b0 :: r) tpb _ _) as [track'|e''] eqn:Hrun;
          [discriminate|].
        cbn [mbind result_bind] in H. injection H as <-.
        eapply Hloop. exact Hrun.
      * cbn [mbind result_bind] in H. injection H as <-.
        apply meta_set_tempo_Raise in Hmsg as [-> Hout].
        split; [reflexivity|]. apply Qltb_lt in Hb0.
        pose proof (interval_to_tempo_nonneg b0 Hb0) as Hnn.
        exists b0. split; [left; reflexivity|]. split; [exact Hb0|lia].
    + cbn [mbind result_bind] in H.
      destruct (tempo_loop tpb (b0 :: r) 0 _ _) as [track'|e''] eqn:Hrun;
        [discriminate|].
      cbn [mbind result_bind] in H. injection H as <-.
      eapply Hloop. exact Hrun.
Qed.

(** X22: without a second beat document [generate_midi] never returns a
    value. On an empty or missing beat list it raises IndexError before
    anything is saved. On any other list it either raises ValueError
    before anything is saved, which takes a lead-in or an interval of
    more than 16.777215 seconds, whose tempo the MIDI library refuses,
    or it saves the file and then raises UnboundLocalError on its
    unbound prefix beat. *)
Theorem generate_midi_without_second_document (tpb : Z)
  (beat_data1 : beat_document) (tolerance : Q) :
  exists saved e,
    generate_midi tpb beat_data1 None tolerance = (saved, GRaises e)
    /\ match default [] (doc_beats beat_data1) with
       | [] => saved = None /\ e = Propagated IndexError
       | _ :: _ =>
           (saved = None /\ e = Propagated ValueError
            /\ exists d,
                 encoded_duration (default [] (doc_beats beat_data1)) d
                 /\ (inject_Z max_tempo < d * 1000000)%Q)
           \/ (e = UnboundLocalError
               /\ exists tracks,
                    saved = Some tracks
                    /\ build_tracks tpb (default [] (doc_beats beat_data1))
                         (default [] (doc_segments beat_data1)) = Ok tracks)
       end.
Proof.
  unfold generate_midi. cbv zeta.
  destruct (default [] (doc_beats beat_data1)) as [|b0 r] eqn:Hb.
  - eexists _, _. split; [reflexivity|]. auto.
  - destruct (build_tracks tpb (b0 :: r) (default [] (doc_segments beat_data1)))
      as [tracks|x] eqn:Ht.
    + eexists _, _. split; [reflexivity|]. right. eauto.
    + eexists _, _. split; [reflexivity|]. left.
      unfold build_tracks in Ht. cbv zeta in Ht.
      destruct (create_tempo_track tpb (b0 :: r)) as [tt|x'] eqn:Hc;
        [discriminate|].
      cbn [mbind result_bind] in Ht. injection Ht as <-.
      apply create_tempo_track_raises in Hc
        as [[Hnil _]|(_ & -> & d & Henc & Hd & Hbig)]; [discriminate|].
      split; [reflexivity|]. split; [reflexivity|].
      exists d. split; [exact Henc|].
      rewrite (interval_to_tempo_floor d Hd) in Hbig.
      pose proof (Qfloor_le (d * 1000000)) as Hle.
      assert (Hz : (inject_Z (max_tempo + 1) <= inject_Z (Qfloor (d * 1000000)))%Q)
        by (rewrite <- Zle_Qle; lia).
      rewrite inject_Z_plus in Hz. change (inject_Z 1) with 1%Q in Hz. lra.
Qed.

(** A lead-in of 20 seconds: the tempo 20000000 is refused and nothing
    is saved. *)
Lemma generate_midi_long_lead_in :
  generate_midi 480
    (mkBeatDocument (Some [q 20 1; q 41 2]) None None None) None
    scenario_tolerance
  = (None, GRaises (Propagated ValueError)).
Proof. vm_compute. reflexivity. Qed.

(** X23: with a second beat document, when one of the two beat lists is
    empty or missing, [generate_midi] raises TypeError on the unpacked
    dictionary key and saves nothing. *)
Theorem generate_midi_empty_beats (tpb : Z) (beat_data1 : beat_document)
  (beat_data2 : beat_document2) (tolerance : Q) :
  default [] (doc_beats beat_data1) = []
  \/ default [] (doc2_beats beat_data2) = [] ->
  generate_midi tpb beat_data1 (Some beat_data2) tolerance
  = (None, GRaises (Propagated TypeError)).
Proof.
  intros H. unfold generate_midi. cbv zeta.
  rewrite generate_midi_merge_empty_input by exact H. reflexivity.
Qed.

Lemma index_from_first (v : Z) (l : list Z) (n i : nat) :
  l !! n = Some v -> (forall j, (j < n)%nat -> l !! j <> Some v) ->
  index_from v l i = Ok (i + n)%nat.
Proof.
  revert n i. induction l as [|x r IH]; intros n i Hn Hmin; [discriminate|].
  cbn [index_from]. destruct n as [|n].
  - injection Hn as ->. rewrite Z.eqb_refl. f_equal. lia.
  - destruct (Z.eqb_spec x v) as [->|Hne].
    + exfalso. apply (Hmin 0%nat); [lia|reflexivity].
    + rewrite (IH n (S i)); [f_equal; lia|exact Hn|].
      intros j Hj. apply (Hmin (S j)). lia.
Qed.

(** The first index at position 1 is the anchor index reduced modulo
    the bar length. *)
Lemma first_position_one (B : Z) (k len : nat) (fp : list Z) :
  (1 <= B)%Z -> (k < len)%nat -> length fp = len ->
  (forall i, (i < len)%nat ->
     fp !! i = Some (code_position B (Z.of_nat k) (Z.of_nat i))) ->
  py_index 1 fp = Ok (Z.to_nat (Z.of_nat k mod B)).
Proof.
  intros HB Hk Hlen Hpos.
  pose proof (Z.mod_pos_bound (Z.of_nat k) B ltac:(lia)) as Hr.
  pose proof (Z.mod_le (Z.of_nat k) B ltac:(lia) ltac:(lia)) as Hrk.
  set (r := (Z.of_nat k mod B)%Z) in *.
  unfold py_index. rewrite (index_from_first 1%Z fp (Z.to_nat r) 0);
    [reflexivity| |].
  - rewrite Hpos by lia. f_equal. apply code_position_one; [exact HB|].
    rewrite Z2Nat.id by lia. unfold r.
    rewrite Zminus_mod_idemp_l, Z.sub_diag. apply Z.mod_0_l. lia.
  - intros j Hj Hone. rewrite Hpos in Hone by lia. injection Hone as Hone.
    apply code_position_one in Hone; [|exact HB].
    assert (Hjr : ((Z.of_nat j - r) mod B = 0)%Z).
    { unfold r. rewrite Zminus_mod_idemp_r. exact Hone. }
    apply Z.mod_divide in Hjr; [|lia]. destruct Hjr as [c Hc].
    assert (Hjlt : (Z.of_nat j < r)%Z) by lia.
    assert (Hj0 : (0 <= Z.of_nat j)%Z) by lia.
    destruct (Z_lt_le_dec c 0) as [Hneg|Hnn].
    + assert (c * B <= - B)%Z by nia. lia.
    + assert (0 <= c * B)%Z by nia. lia.
Qed.

(** X24: when [generate_midi] returns, the second document was given, the
    merge took its main path, the saved file was built from the merged
    beats, and for beatsPerBar >= 1 the returned prefix beat is the index
    of the first flagged downbeat reduced modulo beatsPerBar, that is the
    number of beats before the first bar line. *)
Theorem generate_midi_prefix_beat (tpb : Z) (beat_data1 : beat_document)
  (beat_data2 : option beat_document2) (tolerance : Q)
  (saved : option (list (list message))) (prefix_beat : nat) :
  generate_midi tpb beat_data1 beat_data2 tolerance
  = (saved, GReturns prefix_beat) ->
  exists d2 fb fp md B k tracks,
    beat_data2 = Some d2
    /\ merge_beats (default [] (doc_beats beat_data1))
         (default [] (doc2_beats d2))
         (default [] (doc_beat_positions beat_data1))
         (default [] (doc_downbeats beat_data1))
         (default [] (doc2_downbeats d2)) tolerance
       = Ok (RTuple fb fp md)
    /\ py_max_int (default [] (doc_beat_positions beat_data1)) = Ok B
    /\ py_index 1 (downbeat_flags fb (default [] (doc_downbeats beat_data1))
                     (default [] (doc2_downbeats d2))) = Ok k
    /\ saved = Some tracks
    /\ build_tracks tpb fb (default [] (doc_segments beat_data1)) = Ok tracks
    /\ py_index 1 fp = Ok prefix_beat
    /\ ((1 <= B)%Z -> Z.of_nat prefix_beat = (Z.of_nat k mod B)%Z).
Proof.
  unfold generate_midi. cbv zeta. intros H.
  destruct beat_data2 as [d2|].
  2:{ destruct (build_tracks _ _ _); discriminate. }
  unfold generate_midi_merge in H.
  destruct (merge_beats _ _ _ _ _ _) as [[b p d|fb fp md]|e] eqn:Hm;
    cbn [mbind result_bind unpack3 py_iter pyval_index] in H;
    try discriminate.
  destruct (py_index 1 fp) as [n|e] eqn:Hn;
    cbn [mbind result_bind pyval_floats] in H; [|discriminate].
  destruct (build_tracks tpb fb _) as [tracks|e] eqn:Hb; [|discriminate].
  injection H as <- <-.
  pose proof Hm as Hm'.
  apply merge_positions_lookup in Hm'
    as (B & k & HB & Hk & Hlt & HB0 & Hlen & Hpos & Hmd).
  exists d2, fb, fp, md, B, k, tracks.
  repeat split; try assumption; try reflexivity.
  intros HB1.
  rewrite (first_position_one B k (length fb) fp HB1 Hlt Hlen Hpos) in Hn.
  injection Hn as <-. rewrite Z2Nat.id; [reflexivity|].
  apply Z.mod_pos_bound. lia.
Qed.

(** ** The drum track holds notes only *)

Lemma keeps_notes_ret {A : Type} (a : A) : keeps_notes (mret a : M A).
Proof. intros s Hs. exact Hs. Qed.

Lemma keeps_notes_bind {A B : Type} (m : M A) (f : A -> M B) :
  keeps_notes m -> (forall a, keeps_notes (f a)) -> keeps_notes (m ≫= f).
Proof.
  intros Hm Hf s Hs. unfold mbind, M_bind.
  specialize (Hm s Hs). destruct (m s) as [[a|e|] s1]; cbn [snd] in *.
  - apply Hf. exact Hm.
  - exact Hm.
  - exact Hm.
Qed.

Lemma keeps_notes_get_state : keeps_notes get_state.
Proof. intros s Hs. exact Hs. Qed.

Lemma keeps_notes_track_append (ev : event) :
  keeps_notes (track_append (to_message ev)).
Proof.
  intros s Hs. cbn [track_append snd track]. apply Forall_app. split.
  - exact Hs.
  - constructor; [reflexivity|constructor].
Qed.

Lemma keeps_notes_random_choice (rand : nat -> nat) (len : nat) :
  keeps_notes (random_choice rand len).
Proof. intros s Hs. unfold random_choice. destruct len; exact Hs. Qed.

Lemma keeps_notes_bump_start_event (j e : nat) (d : Z) :
  keeps_notes (bump_start_event j e d).
Proof. intros s Hs. exact Hs. Qed.

Lemma keeps_notes_append_events (events : list event) :
  keeps_notes (append_events events).
Proof.
  induction events as [|ev r IH]; [apply keeps_notes_ret|].
  cbn [append_events]. apply keeps_notes_bind.
  - apply keeps_notes_track_append.
  - intros _. exact IH.
Qed.

Lemma keeps_notes_start_events (prefix_beat : Z) (j e : nat)
  (events : list event) :
  keeps_notes (start_events prefix_beat j e events).
Proof.
  revert e. induction events as [|ev r IH]; intros e;
    [apply keeps_notes_ret|].
  cbn [start_events]. apply keeps_notes_bind; [apply keeps_notes_get_state|].
  intros s. apply keeps_notes_bind.
  - destruct (length (track s) =? 0)%nat; [|apply keeps_notes_ret].
    apply keeps_notes_bind; [apply keeps_notes_bump_start_event|].
    intros _. apply keeps_notes_ret.
  - intros ev'. apply keeps_notes_bind; [apply keeps_notes_track_append|].
    intros _. apply IH.
Qed.

Lemma keeps_notes_choose_fragment (rand : nat -> nat)
  (category : drum_library -> list fragment) :
  keeps_notes (choose_fragment rand category).
Proof.
  unfold choose_fragment. apply keeps_notes_bind;
    [apply keeps_notes_get_state|].
  intros s. apply keeps_notes_bind; [apply keeps_notes_random_choice|].
  intros j. apply keeps_notes_ret.
Qed.

Lemma keeps_notes_start_region (rand : nat -> nat)
  (prefix_beat start_loop_length current_beat_idx : Z) :
  keeps_notes (start_region rand prefix_beat start_loop_length
                 current_beat_idx).
Proof.
  unfold start_region. destruct (current_beat_idx <? start_loop_length)%Z;
    [|apply keeps_notes_ret].
  apply keeps_notes_bind; [apply keeps_notes_get_state|]. intros s.
  apply keeps_notes_bind; [apply keeps_notes_random_choice|]. intros j.
  apply keeps_notes_bind; [apply keeps_notes_start_events|].
  intros _. apply keeps_notes_ret.
Qed.

Lemma keeps_notes_mid_loop (fuel : nat) (rand : nat -> nat)
  (total_beats end_loop_length mid_loop_length current_beat_idx : Z)
  (mid_order_index : nat) :
  keeps_notes (mid_loop fuel rand total_beats end_loop_length
                 mid_loop_length current_beat_idx mid_order_index).
Proof.
  revert current_beat_idx mid_order_index.
  induction fuel as [|fuel IH]; intros cur idx; cbn [mid_loop];
    destruct (cur <? total_beats - end_loop_length)%Z;
    try apply keeps_notes_ret.
  - intros s Hs. exact Hs.
  - apply keeps_notes_bind; [apply keeps_notes_choose_fragment|].
    intros evs. apply keeps_notes_bind; [apply keeps_notes_append_events|].
    intros _. apply IH.
Qed.

Lemma keeps_notes_end_region (rand : nat -> nat)
  (total_beats end_loop_length current_beat_idx : Z) :
  keeps_notes (end_region rand total_beats end_loop_length current_beat_idx).
Proof.
  unfold end_region. destruct (current_beat_idx <? total_beats)%Z;
    [|apply keeps_notes_ret].
  apply keeps_notes_bind; [apply keeps_notes_choose_fragment|].
  intros evs. apply keeps_notes_bind; [apply keeps_notes_append_events|].
  intros _. apply keeps_notes_ret.
Qed.

Lemma bind_returns {A B : Type} (m : M A) (f : A -> M B) (s s' : state)
  (b : B) :
  (m ≫= f) s = (Returns b, s') ->
  exists a s1, m s = (Returns a, s1) /\ f a s1 = (Returns b, s').
Proof.
  unfold mbind, M_bind. destruct (m s) as [[a|e|] s1]; intros H;
    [|discriminate..].
  exists a, s1. split; [reflexivity|exact H].
Qed.

Lemma run_keeps_notes {A : Type} (m : M A) (s s' : state) (o : outcome A) :
  keeps_notes m -> Forall (fun msg => is_note msg = true) (track s) ->
  m s = (o, s') -> Forall (fun msg => is_note msg = true) (track s').
Proof. intros Hm Hs Hrun. specialize (Hm s Hs). rewrite Hrun in Hm. exact Hm. Qed.

Lemma filter_is_tempo_notes (l : list message) :
  Forall (fun msg => is_note msg = true) l -> List.filter is_tempo l = [].
Proof.
  induction 1 as [|m r Hm _ IH]; [reflexivity|].
  cbn [List.filter]. destruct m; try discriminate. cbn [is_tempo]. exact IH.
Qed.

(** X25: whenever [sample_drum_loops] returns, the file it saves is the
    target's tracks followed by one drum track that holds note messages
    only, so the target grid of the saved file is the grid of the target:
    sampling adds no tempo message and a second pass sees the same
    beats. *)
Theorem sampling_keeps_the_grid (beats_per_bar : Z) (rand : nat -> nat)
  (target_midi : list (list message)) (library : drum_library)
  (prefix_beat : Z) (saved : list (list message)) :
  fst (sample_drum_loops beats_per_bar rand target_midi library prefix_beat)
  = Returns saved ->
  exists drum_track,
    saved = target_midi ++ [drum_track]
    /\ Forall (fun msg => is_note msg = true) drum_track
    /\ get_target_beats saved = get_target_beats target_midi.
Proof.
  unfold sample_drum_loops.
  destruct (assemble beats_per_bar rand target_midi prefix_beat
              (mkState library [] 0)) as [out s4] eqn:Hrun.
  cbn [fst]. intros ->. unfold assemble in Hrun. cbv zeta in Hrun.
  apply bind_returns in Hrun as (cur1 & s1 & Hrun1 & Hrun).
  apply bind_returns in Hrun as (cur2 & s2 & Hrun2 & Hrun).
  apply bind_returns in Hrun as (cur3 & s3 & Hrun3 & Hrun).
  unfold mbind, M_bind, get_state, mret, M_ret in Hrun.
  injection Hrun as Hsaved _. subst saved.
  assert (H1 : Forall (fun msg => is_note msg = true) (track s1)).
  { eapply run_keeps_notes; [apply keeps_notes_start_region| |exact Hrun1].
    constructor. }
  assert (H2 : Forall (fun msg => is_note msg = true) (track s2)).
  { eapply run_keeps_notes; [apply keeps_notes_mid_loop|exact H1|exact Hrun2]. }
  assert (H3 : Forall (fun msg => is_note msg = true) (track s3)).
  { eapply run_keeps_notes;
      [apply keeps_notes_end_region|exact H2|exact Hrun3]. }
  exists (track s3). split; [reflexivity|]. split; [exact H3|].
  rewrite !get_target_beats_grid.
  rewrite (grid_from_filter 480 (concat (target_midi ++ [track s3]))).
  rewrite (grid_from_filter 480 (concat target_midi)).
  rewrite concat_app, List.filter_app. cbn [concat]. rewrite app_nil_r.
  rewrite (filter_is_tempo_notes _ H3), app_nil_r. reflexivity.
Qed.

(** ** The further properties on concrete inputs *)

Lemma tick2second_nonneg (tpb tick tempo : Z) :
  (0 < tpb)%Z -> (0 <= tick)%Z -> (0 <= tempo)%Z ->
  (0 <= tick2second tick tpb tempo)%Q.
Proof.
  intros Htpb Htick Htempo. unfold tick2second.
  assert (H1 : (0 <= inject_Z tick)%Q)
    by (change 0%Q with (inject_Z 0); rewrite <- Zle_Qle; exact Htick).
  assert (H2 : (0 <= inject_Z tempo)%Q)
    by (change 0%Q with (inject_Z 0); rewrite <- Zle_Qle; exact Htempo).
  assert (H3 : (0 < inject_Z tpb)%Q)
    by (change 0%Q with (inject_Z 0); rewrite <- Zlt_Qlt; exact Htpb).
  apply Qle_shift_div_l; [lra|]. rewrite Qmult_0_l.
  apply Qmult_le_0_compat; assumption.
Qed.

(** Position 3 at index 2 of the scenario lies in 1..3. *)
Lemma merge_positions_in_range_witness : (1 <= 3 <= 3)%Z.
Proof.
  apply (merge_positions_in_range scenario_beat1 scenario_beat2
           scenario_positions1 scenario_downbeats1 scenario_downbeats2
           scenario_tolerance scenario_beat2 [1; 2; 3; 1; 2; 3; 1]%Z
           [q 0 1; q 3 2; q 3 1] 3 2 3).
  - vm_compute. reflexivity.
  - reflexivity.
  - lia.
  - reflexivity.
Defined.

(** After position 3 at index 2 of the scenario comes position 1. *)
Lemma merge_positions_cycle_witness :
  1%Z = if Z.eqb 3 3 then 1%Z else (3 + 1)%Z.
Proof.
  apply (merge_positions_cycle scenario_beat1 scenario_beat2
           scenario_positions1 scenario_downbeats1 scenario_downbeats2
           scenario_tolerance scenario_beat2 [1; 2; 3; 1; 2; 3; 1]%Z
           [q 0 1; q 3 2; q 3 1] 3 2 3 1).
  - vm_compute. reflexivity.
  - reflexivity.
  - lia.
  - reflexivity.
  - reflexivity.
Defined.

(** The scenario's beat at 1.5 s is a downbeat: its index 3 is one bar
    after the anchor index 0. *)
Lemma merge_downbeats_periodic_witness :
  q 3 2 ∈ [q 0 1; q 3 2; q 3 1]
  <-> exists i, scenario_beat2 !! i = Some (q 3 2)
                /\ ((Z.of_nat i - Z.of_nat 0) mod 3 = 0)%Z.
Proof.
  apply (merge_downbeats_periodic scenario_beat1 scenario_beat2
           scenario_positions1 scenario_downbeats1 scenario_downbeats2
           scenario_tolerance scenario_beat2 [1; 2; 3; 1; 2; 3; 1]%Z
           [q 0 1; q 3 2; q 3 1] 3 0 (q 3 2)).
  - vm_compute. reflexivity.
  - reflexivity.
  - lia.
  - reflexivity.
Defined.

(** The scenario's first merged beat is the secondary beat at 0.0. *)
Lemma merged_beat_origin_witness :
  q 0 1 ∈ scenario_beat1
  \/ (q 0 1 ∈ scenario_beat2
      /\ ((q 0 1 < q 1 1 - scenario_tolerance)%Q
          \/ (q 2 1 + scenario_tolerance < q 0 1)%Q)).
Proof.
  apply (merged_beat_origin scenario_beat1 scenario_beat2
           scenario_positions1 scenario_downbeats1 scenario_downbeats2
           scenario_tolerance scenario_beat2 [1; 2; 3; 1; 2; 3; 1]%Z
           [q 0 1; q 3 2; q 3 1] (q 1 1) (q 2 1) (q 0 1)).
  - vm_compute. reflexivity.
  - reflexivity.
  - reflexivity.
  - left.
Defined.

(** The jump on the beat list [0.0, 1.0, 2.0] at time 0.5. *)
Lemma time_to_beat_position_jump_witness :
  ((q 1 2 <= q 0 1)%Q
   -> time_to_beat_position (q 1 2) [q 0 1; q 1 1; q 2 1] = 0%Q)
  /\ ((q 0 1 < q 1 2)%Q
      -> (1 <= time_to_beat_position (q 1 2) [q 0 1; q 1 1; q 2 1])%Q).
Proof.
  apply (time_to_beat_position_jump [q 0 1; q 1 1; q 2 1] (q 0 1) (q 1 2)).
  reflexivity.
Defined.

(** Times 0.5 and 1.5 on the beat list [0.0, 1.0, 2.0]. *)
Lemma time_to_beat_position_monotone_witness :
  (time_to_beat_position (q 1 2) [q 0 1; q 1 1; q 2 1]
   <= time_to_beat_position (q 3 2) [q 0 1; q 1 1; q 2 1])%Q.
Proof.
  apply (time_to_beat_position_monotone [q 0 1; q 1 1; q 2 1] (q 1 2) (q 3 2)).
  - discriminate.
  - reflexivity.
  - vm_compute. discriminate.
Defined.

(** Four beats with a repeated time: the entry of the first interval. *)
Lemma calculate_tempo_entries_witness :
  (inject_Z 0, (60 / (q 1 2 - q 0 1))%Q)
    ∈ calculate_tempo_from_beats [q 0 1; q 1 2; q 1 2; q 1 1]
  <-> exists i x y,
        [q 0 1; q 1 2; q 1 2; q 1 1] !! i = Some x
        /\ [q 0 1; q 1 2; q 1 2; q 1 1] !! S i = Some y /\ (x < y)%Q
        /\ (inject_Z 0, (60 / (q 1 2 - q 0 1))%Q)
           = (inject_Z (Z.of_nat i), (60 / (y - x))%Q).
Proof.
  apply (calculate_tempo_entries [q 0 1; q 1 2; q 1 2; q 1 1]).
  simpl. lia.
Defined.

(** Two segments given out of order, on the beat list [0.0, 1.0, 2.0]. *)
Lemma create_segment_markers_sorted_witness :
  let beats := [q 0 1; q 1 1; q 2 1] in
  let segments := [mkSegment (Some (q 3 2)) (Some "chorus");
                   mkSegment None (Some "intro")] in
  create_segment_markers beats segments
    ≡ₚ map (segment_marker beats) segments
  /\ StronglySorted position_le (create_segment_markers beats segments)
  /\ List.filter (fun m => Qeq_bool (fst m) 0)
       (create_segment_markers beats segments)
     = List.filter (fun m => Qeq_bool (fst m) 0)
         (map (segment_marker beats) segments).
Proof.
  apply (create_segment_markers_sorted [q 0 1; q 1 1; q 2 1]).
  discriminate.
Defined.

(** The markers of the same two segments at 480 ticks per beat. *)
Lemma segment_markers_on_their_ticks_witness :
  let beats := [q 0 1; q 1 1; q 2 1] in
  let segments := [mkSegment (Some (q 3 2)) (Some "chorus");
                   mkSegment None (Some "intro")] in
  marker_events
    (create_marker_track 480 (create_segment_markers beats segments))
  = map (fun m => (beats_to_ticks 480 (fst m), snd m))
        (create_segment_markers beats segments).
Proof.
  apply (segment_markers_on_their_ticks 480 [q 0 1; q 1 1; q 2 1]).
  lia.
Defined.

(** A track with a lead-in and one skipped pair: the tempo of the last
    pair sits two beats after the start. *)
Lemma tempo_track_alignment_witness :
  (1440%Z, 2000000%Z)
    ∈ tempo_events
        [track_name "Tempo Track" 0; set_tempo 500000 0;
         set_tempo 500000 480; set_tempo 2000000 960; end_of_track 0]
  <-> ((0 < q 1 2)%Q /\ (1440%Z, 2000000%Z) = (0%Z, interval_to_tempo (q 1 2)))
      \/ exists i x y,
           [q 1 2; q 1 1; q 1 1; q 3 1] !! i = Some x
           /\ [q 1 2; q 1 1; q 1 1; q 3 1] !! S i = Some y /\ (x < y)%Q
           /\ (1440%Z, 2000000%Z)
              = (((if Qltb 0 (q 1 2) then 480 else 0) + Z.of_nat i * 480)%Z,
                 interval_to_tempo (y - x)).
Proof.
  apply (tempo_track_alignment 480 [q 1 2; q 1 1; q 1 1; q 3 1]).
  - vm_compute. reflexivity.
  - reflexivity.
Defined.

(** The grid of the file generated for the same four beats. *)
Lemma target_grid_of_generated_file_witness :
  get_target_beats
    ([[time_signature 4 4 0];
      [track_name "Tempo Track" 0; set_tempo 500000 0;
       set_tempo 500000 480; set_tempo 2000000 960; end_of_track 0]]
     ++ [[]])
  = map (fun e => (480 + fst e)%Z)
        (tempo_events
           [track_name "Tempo Track" 0; set_tempo 500000 0;
            set_tempo 500000 480; set_tempo 2000000 960; end_of_track 0]).
Proof.
  apply (target_grid_of_generated_file 480 [q 1 2; q 1 1; q 1 1; q 3 1] []).
  - vm_compute. reflexivity.
  - vm_compute. reflexivity.
Defined.

(** The one-fragment library is stocked. *)
Lemma stocked_library_returns_witness :
  exists drum_track,
    fst (sample_drum_loops 4 (fun n => n) [[set_tempo 500000 0]]
           demo_library 0)
    = Returns ([[set_tempo 500000 0]] ++ [drum_track]).
Proof.
  apply (stocked_library_returns 4 (fun n => n) [[set_tempo 500000 0]]
           demo_library 0).
  - repeat split; discriminate.
  - lia.
Defined.

(** Two random sources on the one-fragment library. *)
Lemma single_fragment_library_is_deterministic_witness :
  sample_drum_loops 4 (fun n => n) [[set_tempo 500000 0]] demo_library 0
  = sample_drum_loops 4 (fun _ => 7%nat) [[set_tempo 500000 0]]
      demo_library 0.
Proof.
  apply (single_fragment_library_is_deterministic 4 (fun n => n)
           (fun _ => 7%nat) [[set_tempo 500000 0]] demo_library 0).
  repeat split; reflexivity.
Defined.

(** The library without a start fragment. *)
Lemma empty_start_category_raises_witness :
  assemble 4 (fun n => n) silent_target 0 (mkState no_start_library [] 0)
  = (Raises IndexError, mkState no_start_library [] 0)
  /\ sample_drum_loops 4 (fun n => n) silent_target no_start_library 0
     = (Raises IndexError, no_start_library).
Proof.
  apply (empty_start_category_raises 4 (fun n => n) silent_target
           no_start_library 0).
  - reflexivity.
  - lia.
Defined.

(** Two notes around a tempo change, with the conversion of the MIDI
    library at 480 ticks per beat. *)
Lemma converted_notes_ordered_witness :
  Forall (fun n => (note_start n <= note_end n)%Q)
    (convert_notes tick2second 480 two_note_track)
  /\ StronglySorted Qle
       (map note_end (convert_notes tick2second 480 two_note_track)).
Proof.
  apply (converted_notes_ordered tick2second 480 two_note_track).
  - intros tick tempo. apply tick2second_nonneg. lia.
  - repeat constructor; simpl; lia.
  - repeat constructor; simpl; lia.
Defined.

(** The first tempo entry of four beats and the tempo track at 480. *)
Lemma tempo_changes_match_tempo_track_witness :
  exists tick tempo,
    bpm_to_tempo (60 / (q 1 1 - q 1 2)) = Ok tempo
    /\ (tick, tempo)
       ∈ tempo_events
           [track_name "Tempo Track" 0; set_tempo 500000 0;
            set_tempo 500000 480; set_tempo 2000000 960; end_of_track 0].
Proof.
  apply (tempo_changes_match_tempo_track 480 [q 1 2; q 1 1; q 1 1; q 3 1]
           _ (inject_Z 0)).
  - simpl. lia.
  - vm_compute. reflexivity.
  - left.
Defined.

(** The scenario's first document with a second one without beats. *)
Lemma generate_midi_empty_beats_witness :
  generate_midi 480 scenario_document1 (Some (mkBeatDocument2 None None))
    scenario_tolerance
  = (None, GRaises (Propagated TypeError)).
Proof.
  apply (generate_midi_empty_beats 480 scenario_document1).
  right. reflexivity.
Defined.

(** The scenario's two documents: the file is saved and the prefix is 0. *)
Lemma generate_midi_prefix_beat_witness :
  exists d2 fb fp md B k tracks,
    Some scenario_document2 = Some d2
    /\ merge_beats (default [] (doc_beats scenario_document1))
         (default [] (doc2_beats d2))
         (default [] (doc_beat_positions scenario_document1))
         (default [] (doc_downbeats scenario_document1))
         (default [] (doc2_downbeats d2)) scenario_tolerance
       = Ok (RTuple fb fp md)
    /\ py_max_int (default [] (doc_beat_positions scenario_document1)) = Ok B
    /\ py_index 1 (downbeat_flags fb
                     (default [] (doc_downbeats scenario_document1))
                     (default [] (doc2_downbeats d2))) = Ok k
    /\ fst (generate_midi 480 scenario_document1 (Some scenario_document2)
              scenario_tolerance) = Some tracks
    /\ build_tracks 480 fb (default [] (doc_segments scenario_document1))
       = Ok tracks
    /\ py_index 1 fp = Ok 0%nat
    /\ ((1 <= B)%Z -> Z.of_nat 0 = (Z.of_nat k mod B)%Z).
Proof.
  apply (generate_midi_prefix_beat 480 scenario_document1
           (Some scenario_document2) scenario_tolerance
           (fst (generate_midi 480 scenario_document1
                   (Some scenario_document2) scenario_tolerance)) 0).
  vm_compute. reflexivity.
Defined.

(** The run on the one-fragment library and a one-tempo target. *)
Lemma sampling_keeps_the_grid_witness :
  exists drum_track,
    [[set_tempo 500000 0];
     [note_message note_on 0 36 100 480; note_message note_off 0 36 0 240]]
    = [[set_tempo 500000 0]] ++ [drum_track]
    /\ Forall (fun msg => is_note msg = true) drum_track
    /\ get_target_beats
         [[set_tempo 500000 0];
          [note_message note_on 0 36 100 480; note_message note_off 0 36 0 240]]
       = get_target_beats [[set_tempo 500000 0]].
Proof.
  apply (sampling_keeps_the_grid 4 (fun n => n) [[set_tempo 500000 0]]
           demo_library 0).
  vm_compute. reflexivity.
Defined.
